(** * Zud Assistance: the live-session hook [useZud]

    A shallow embedding of [src/hooks/useZud.ts] (and of the data model of
    [src/types.ts]).  The hook is a reactive program: React state and refs
    are mutated by a handful of entry points ([start], [stop]) and by the
    callbacks the hook registers on the remote live session, on the
    microphone request and on every playback source.

    The embedding keeps two records apart:
    - [Hook]: the React state and the refs of the hook, field by field;
    - [World]: what lives outside the hook and is only reached through
      handles: remote sessions, audio contexts, microphone streams,
      processor nodes, playback sources, and the logs of what was sent.

    Every handler is a function [Env -> Config -> Config].  [Env] carries
    the answers of the outside for the duration of one handler: the wall
    clock, the playback clock, the replies of the external services and
    whether a close operation fails.

    Modelling conventions.
    - A handler runs to completion before the next one starts: the
      suspension points inside [onmessage] ([await] of an external service)
      are not interleaved with other handlers.  The one [await] of
      [onopen] (the microphone request) is split in two events, because
      its continuation is the subject of a scenario; and the loop over a
      tool-call batch is also given with its suspension points
      ([handleCallsAwaiting]), for what depends on a [stop] in between.
    - React applies the queued state updates of one handler in order.  The
      one React state a function of the hook reads from its closure,
      [isLiveConnected] in [start], is a parameter of [start]: the flag at
      the render that created the function the caller holds.
    - JavaScript numbers used as times are exact rationals.
    - Strings are sequences of 8-bit code units. *)

From Stdlib Require Import Ascii String QArith Qminmax Lqa.
From stdpp Require Import base option list strings pretty gmap.

Set Default Proof Using "Type".

(** ** Data model ([src/types.ts]) *)

Inductive Speaker := user | model.

Record SourceItem := { src_uri : string; src_title : string }.

Record Video := {
  vid_id : string; vid_title : string;
  vid_channel : string; vid_description : string }.

Inductive MessagePart :=
| TextPart (content : string)
| ImagePart (uri : string) (alt : option string)
| SourcePart (items : list SourceItem)
| YouTubePart (videos : list Video).

Record Message := {
  msg_id : string;
  speaker : Speaker;
  parts : list MessagePart }.

(** ** JavaScript values the hook looks at *)

(** A thrown value: an [Error] with its [message], or anything else with
    the result of [String(e)]. *)
Inductive Thrown :=
| ErrorObj (message : string)
| NonError (repr : string).

(** [e instanceof Error ? e.message : String(e)] *)
Definition errorMessageOf (e : Thrown) : string :=
  match e with
  | ErrorObj m => m
  | NonError r => r
  end.

(** Truthiness of a possibly undefined string. *)
Definition truthy (o : option string) : bool :=
  match o with
  | Some s => negb (String.eqb s EmptyString)
  | None => false
  end.

(** [a || d] on a possibly undefined string. *)
Definition or_else (o : option string) (d : string) : string :=
  match o with
  | Some s => if String.eqb s EmptyString then d else s
  | None => d
  end.

(** White space and line terminators below code unit 256. *)
Definition is_space (a : ascii) : bool :=
  let n := nat_of_ascii a in
  (Nat.eqb n 9 || Nat.eqb n 10 || Nat.eqb n 11 || Nat.eqb n 12
   || Nat.eqb n 13 || Nat.eqb n 32 || Nat.eqb n 160)%bool.

Fixpoint trimStart (s : string) : string :=
  match s with
  | String a s' => if is_space a then trimStart s' else s
  | EmptyString => EmptyString
  end.

Fixpoint trimEnd (s : string) : string :=
  match s with
  | String a s' =>
      let r := trimEnd s' in
      if (is_space a && String.eqb r EmptyString)%bool then EmptyString else String a r
  | EmptyString => EmptyString
  end.

(** [String.prototype.trim] *)
Definition trim (s : string) : string := trimEnd (trimStart s).

(** [Array.prototype.join] on strings. *)
Definition join (sep : string) (l : list string) : string := String.concat sep l.

(** [n.toString()] for a non-negative integer. *)
Definition toString (n : N) : string := pretty n.

(** ** Frames of the live-session protocol *)

(** A function call of a tool-call batch.  [fc_args] is the argument
    object, read by property name. *)
Record FunctionCall := {
  fc_id : string;
  fc_name : string;
  fc_args : list (string * string) }.

(** [const { k } = args]: the property, or undefined. *)
Fixpoint prop (k : string) (args : list (string * string)) : option string :=
  match args with
  | [] => None
  | (k', v) :: rest => if String.eqb k k' then Some v else prop k rest
  end.

(** The [functionResponse] variable of [onmessage]: [{ result }] or
    [{ error: { message } }]; [None] is the variable left undefined. *)
Inductive FunctionResponse :=
| Result (result : string)
| Failure (message : string).

(** The argument of [sendToolResponse]:
    [{ functionResponses: { id, name, response } }]. *)
Record ToolResponse := {
  tr_id : string;
  tr_name : string;
  tr_response : option FunctionResponse }.

(** The argument of [sendRealtimeInput]: [{ media: pcmBlob }]. *)
Record Blob := { blob_data : string; blob_mimeType : string }.

(** What [onmessage] reads of a [LiveServerMessage]. *)
Record LiveServerMessage := {
  outputTranscription : option string; (* serverContent?.outputTranscription.text *)
  inputTranscription : option string;  (* serverContent?.inputTranscription.text *)
  toolCall : option (list FunctionCall); (* toolCall.functionCalls *)
  turnComplete : bool;                 (* serverContent?.turnComplete *)
  inlineAudio : option string; (* serverContent?.modelTurn?.parts[0]?.inlineData?.data *)
  interrupted : bool }.                (* serverContent?.interrupted *)

(** ** Replies of the external services *)

Inductive Outcome (A : Type) :=
| Returns (a : A)
| Throws (e : Thrown).
Arguments Returns {A} a.
Arguments Throws {A} e.

(** A grounding chunk's [web] entry. *)
Record Web := { web_uri : option string; web_title : option string }.

(** What the hook reads of a [generateContent] response: [response.text]
    and [candidates?.[0]?.groundingMetadata?.groundingChunks], each
    chunk with its possibly undefined [web]. *)
Record GenerateContentResponse := {
  resp_text : option string;
  resp_groundingChunks : option (list (option Web)) }.

(** The query string of the YouTube request, by parameter ([req_q] before
    [encodeURIComponent]). *)
Record SearchRequest := {
  req_q : string;
  req_type : string;
  req_videoEmbeddable : bool;
  req_maxResults : N;
  req_key : string }.

(** An item of the YouTube reply: [item.id.videoId] and the snippet. *)
Record SearchItem := {
  item_videoId : string;
  item_title : string;
  item_channelTitle : string;
  item_description : string }.

Inductive FetchReply :=
| FetchRejects (e : Thrown)            (* fetch or json() fails *)
| HttpError (message : string)         (* !response.ok, errorData.error.message *)
| HttpOk (items : list SearchItem).

(** ** The environment of one handler run *)

Record Env := {
  API_KEY : option string;             (* process.env.API_KEY *)
  YOUTUBE_API_KEY : string;            (* config.ts *)
  now : N;                             (* Date.now() *)
  currentTime : Q;                     (* audioContext.currentTime *)
  connectThrows : option Thrown;       (* live.connect fails synchronously *)
  closeThrows : option Thrown;         (* session.close() throws *)
  contextCloseRejects : nat -> option Thrown; (* ctx.close() rejects *)
  generateImages : option string -> Outcome string; (* imageBytes of image 0 *)
  generateContent : option string -> Outcome GenerateContentResponse;
  fetch : SearchRequest -> FetchReply;
  decodedDuration : string -> Q }.     (* duration of the decoded buffer *)

(** ** The hook: React state and refs *)

Record Hook := {
  status : string;
  error : option string;
  messages : list Message;
  isLiveConnected : bool;
  isMicMuted : bool;
  aiRef : bool;                        (* a client has been constructed *)
  sessionPromiseRef : option nat;      (* the promise of session [n] *)
  inputAudioContextRef : option nat;
  outputAudioContextRef : option nat;
  microphoneStreamRef : option nat;
  scriptProcessorRef : option nat;
  nextStartTimeRef : Q;
  audioSourcesRef : list nat;          (* a Set, in insertion order *)
  currentInputTranscriptionRef : string;
  currentOutputTranscriptionRef : string }.

Definition set_status (v : string) (h : Hook) : Hook :=
  {| status := v; error := error h; messages := messages h; isLiveConnected :=
     isLiveConnected h; isMicMuted := isMicMuted h; aiRef := aiRef h;
     sessionPromiseRef := sessionPromiseRef h; inputAudioContextRef :=
     inputAudioContextRef h; outputAudioContextRef := outputAudioContextRef h;
     microphoneStreamRef := microphoneStreamRef h; scriptProcessorRef :=
     scriptProcessorRef h; nextStartTimeRef := nextStartTimeRef h; audioSourcesRef :=
     audioSourcesRef h; currentInputTranscriptionRef := currentInputTranscriptionRef
     h; currentOutputTranscriptionRef := currentOutputTranscriptionRef h |}.
Definition set_error (v : option string) (h : Hook) : Hook :=
  {| status := status h; error := v; messages := messages h; isLiveConnected :=
     isLiveConnected h; isMicMuted := isMicMuted h; aiRef := aiRef h;
     sessionPromiseRef := sessionPromiseRef h; inputAudioContextRef :=
     inputAudioContextRef h; outputAudioContextRef := outputAudioContextRef h;
     microphoneStreamRef := microphoneStreamRef h; scriptProcessorRef :=
     scriptProcessorRef h; nextStartTimeRef := nextStartTimeRef h; audioSourcesRef :=
     audioSourcesRef h; currentInputTranscriptionRef := currentInputTranscriptionRef
     h; currentOutputTranscriptionRef := currentOutputTranscriptionRef h |}.
Definition set_messages (v : list Message) (h : Hook) : Hook :=
  {| status := status h; error := error h; messages := v; isLiveConnected :=
     isLiveConnected h; isMicMuted := isMicMuted h; aiRef := aiRef h;
     sessionPromiseRef := sessionPromiseRef h; inputAudioContextRef :=
     inputAudioContextRef h; outputAudioContextRef := outputAudioContextRef h;
     microphoneStreamRef := microphoneStreamRef h; scriptProcessorRef :=
     scriptProcessorRef h; nextStartTimeRef := nextStartTimeRef h; audioSourcesRef :=
     audioSourcesRef h; currentInputTranscriptionRef := currentInputTranscriptionRef
     h; currentOutputTranscriptionRef := currentOutputTranscriptionRef h |}.
Definition set_isLiveConnected (v : bool) (h : Hook) : Hook :=
  {| status := status h; error := error h; messages := messages h; isLiveConnected :=
     v; isMicMuted := isMicMuted h; aiRef := aiRef h; sessionPromiseRef :=
     sessionPromiseRef h; inputAudioContextRef := inputAudioContextRef h;
     outputAudioContextRef := outputAudioContextRef h; microphoneStreamRef :=
     microphoneStreamRef h; scriptProcessorRef := scriptProcessorRef h;
     nextStartTimeRef := nextStartTimeRef h; audioSourcesRef := audioSourcesRef h;
     currentInputTranscriptionRef := currentInputTranscriptionRef h;
     currentOutputTranscriptionRef := currentOutputTranscriptionRef h |}.
Definition set_isMicMuted (v : bool) (h : Hook) : Hook :=
  {| status := status h; error := error h; messages := messages h; isLiveConnected :=
     isLiveConnected h; isMicMuted := v; aiRef := aiRef h; sessionPromiseRef :=
     sessionPromiseRef h; inputAudioContextRef := inputAudioContextRef h;
     outputAudioContextRef := outputAudioContextRef h; microphoneStreamRef :=
     microphoneStreamRef h; scriptProcessorRef := scriptProcessorRef h;
     nextStartTimeRef := nextStartTimeRef h; audioSourcesRef := audioSourcesRef h;
     currentInputTranscriptionRef := currentInputTranscriptionRef h;
     currentOutputTranscriptionRef := currentOutputTranscriptionRef h |}.
Definition set_aiRef (v : bool) (h : Hook) : Hook :=
  {| status := status h; error := error h; messages := messages h; isLiveConnected :=
     isLiveConnected h; isMicMuted := isMicMuted h; aiRef := v; sessionPromiseRef :=
     sessionPromiseRef h; inputAudioContextRef := inputAudioContextRef h;
     outputAudioContextRef := outputAudioContextRef h; microphoneStreamRef :=
     microphoneStreamRef h; scriptProcessorRef := scriptProcessorRef h;
     nextStartTimeRef := nextStartTimeRef h; audioSourcesRef := audioSourcesRef h;
     currentInputTranscriptionRef := currentInputTranscriptionRef h;
     currentOutputTranscriptionRef := currentOutputTranscriptionRef h |}.
Definition set_sessionPromiseRef (v : option nat) (h : Hook) : Hook :=
  {| status := status h; error := error h; messages := messages h; isLiveConnected :=
     isLiveConnected h; isMicMuted := isMicMuted h; aiRef := aiRef h;
     sessionPromiseRef := v; inputAudioContextRef := inputAudioContextRef h;
     outputAudioContextRef := outputAudioContextRef h; microphoneStreamRef :=
     microphoneStreamRef h; scriptProcessorRef := scriptProcessorRef h;
     nextStartTimeRef := nextStartTimeRef h; audioSourcesRef := audioSourcesRef h;
     currentInputTranscriptionRef := currentInputTranscriptionRef h;
     currentOutputTranscriptionRef := currentOutputTranscriptionRef h |}.
Definition set_inputAudioContextRef (v : option nat) (h : Hook) : Hook :=
  {| status := status h; error := error h; messages := messages h; isLiveConnected :=
     isLiveConnected h; isMicMuted := isMicMuted h; aiRef := aiRef h;
     sessionPromiseRef := sessionPromiseRef h; inputAudioContextRef := v;
     outputAudioContextRef := outputAudioContextRef h; microphoneStreamRef :=
     microphoneStreamRef h; scriptProcessorRef := scriptProcessorRef h;
     nextStartTimeRef := nextStartTimeRef h; audioSourcesRef := audioSourcesRef h;
     currentInputTranscriptionRef := currentInputTranscriptionRef h;
     currentOutputTranscriptionRef := currentOutputTranscriptionRef h |}.
Definition set_outputAudioContextRef (v : option nat) (h : Hook) : Hook :=
  {| status := status h; error := error h; messages := messages h; isLiveConnected :=
     isLiveConnected h; isMicMuted := isMicMuted h; aiRef := aiRef h;
     sessionPromiseRef := sessionPromiseRef h; inputAudioContextRef :=
     inputAudioContextRef h; outputAudioContextRef := v; microphoneStreamRef :=
     microphoneStreamRef h; scriptProcessorRef := scriptProcessorRef h;
     nextStartTimeRef := nextStartTimeRef h; audioSourcesRef := audioSourcesRef h;
     currentInputTranscriptionRef := currentInputTranscriptionRef h;
     currentOutputTranscriptionRef := currentOutputTranscriptionRef h |}.
Definition set_microphoneStreamRef (v : option nat) (h : Hook) : Hook :=
  {| status := status h; error := error h; messages := messages h; isLiveConnected :=
     isLiveConnected h; isMicMuted := isMicMuted h; aiRef := aiRef h;
     sessionPromiseRef := sessionPromiseRef h; inputAudioContextRef :=
     inputAudioContextRef h; outputAudioContextRef := outputAudioContextRef h;
     microphoneStreamRef := v; scriptProcessorRef := scriptProcessorRef h;
     nextStartTimeRef := nextStartTimeRef h; audioSourcesRef := audioSourcesRef h;
     currentInputTranscriptionRef := currentInputTranscriptionRef h;
     currentOutputTranscriptionRef := currentOutputTranscriptionRef h |}.
Definition set_scriptProcessorRef (v : option nat) (h : Hook) : Hook :=
  {| status := status h; error := error h; messages := messages h; isLiveConnected :=
     isLiveConnected h; isMicMuted := isMicMuted h; aiRef := aiRef h;
     sessionPromiseRef := sessionPromiseRef h; inputAudioContextRef :=
     inputAudioContextRef h; outputAudioContextRef := outputAudioContextRef h;
     microphoneStreamRef := microphoneStreamRef h; scriptProcessorRef := v;
     nextStartTimeRef := nextStartTimeRef h; audioSourcesRef := audioSourcesRef h;
     currentInputTranscriptionRef := currentInputTranscriptionRef h;
     currentOutputTranscriptionRef := currentOutputTranscriptionRef h |}.
Definition set_nextStartTimeRef (v : Q) (h : Hook) : Hook :=
  {| status := status h; error := error h; messages := messages h; isLiveConnected :=
     isLiveConnected h; isMicMuted := isMicMuted h; aiRef := aiRef h;
     sessionPromiseRef := sessionPromiseRef h; inputAudioContextRef :=
     inputAudioContextRef h; outputAudioContextRef := outputAudioContextRef h;
     microphoneStreamRef := microphoneStreamRef h; scriptProcessorRef :=
     scriptProcessorRef h; nextStartTimeRef := v; audioSourcesRef := audioSourcesRef
     h; currentInputTranscriptionRef := currentInputTranscriptionRef h;
     currentOutputTranscriptionRef := currentOutputTranscriptionRef h |}.
Definition set_audioSourcesRef (v : list nat) (h : Hook) : Hook :=
  {| status := status h; error := error h; messages := messages h; isLiveConnected :=
     isLiveConnected h; isMicMuted := isMicMuted h; aiRef := aiRef h;
     sessionPromiseRef := sessionPromiseRef h; inputAudioContextRef :=
     inputAudioContextRef h; outputAudioContextRef := outputAudioContextRef h;
     microphoneStreamRef := microphoneStreamRef h; scriptProcessorRef :=
     scriptProcessorRef h; nextStartTimeRef := nextStartTimeRef h; audioSourcesRef :=
     v; currentInputTranscriptionRef := currentInputTranscriptionRef h;
     currentOutputTranscriptionRef := currentOutputTranscriptionRef h |}.
Definition set_currentInputTranscriptionRef (v : string) (h : Hook) : Hook :=
  {| status := status h; error := error h; messages := messages h; isLiveConnected :=
     isLiveConnected h; isMicMuted := isMicMuted h; aiRef := aiRef h;
     sessionPromiseRef := sessionPromiseRef h; inputAudioContextRef :=
     inputAudioContextRef h; outputAudioContextRef := outputAudioContextRef h;
     microphoneStreamRef := microphoneStreamRef h; scriptProcessorRef :=
     scriptProcessorRef h; nextStartTimeRef := nextStartTimeRef h; audioSourcesRef :=
     audioSourcesRef h; currentInputTranscriptionRef := v;
     currentOutputTranscriptionRef := currentOutputTranscriptionRef h |}.
Definition set_currentOutputTranscriptionRef (v : string) (h : Hook) : Hook :=
  {| status := status h; error := error h; messages := messages h; isLiveConnected :=
     isLiveConnected h; isMicMuted := isMicMuted h; aiRef := aiRef h;
     sessionPromiseRef := sessionPromiseRef h; inputAudioContextRef :=
     inputAudioContextRef h; outputAudioContextRef := outputAudioContextRef h;
     microphoneStreamRef := microphoneStreamRef h; scriptProcessorRef :=
     scriptProcessorRef h; nextStartTimeRef := nextStartTimeRef h; audioSourcesRef :=
     audioSourcesRef h; currentInputTranscriptionRef := currentInputTranscriptionRef
     h; currentOutputTranscriptionRef := v |}.

(** ** The world behind the handles *)

Inductive Phase :=
| Connecting   (* connect() called, promise pending *)
| Open         (* connected: onopen delivered, promise resolved *)
| Closing      (* closed or failed, onclose not yet delivered *)
| Closed.

(** Continuations registered on a session promise with [.then]. *)
Inductive Deferred :=
| DClose                               (* session => session.close(), .catch(console.error) *)
| DToolResponse (r : ToolResponse)     (* session => session.sendToolResponse(r) *)
| DRealtimeInput (b : Blob).           (* session => session.sendRealtimeInput(b) *)

(** A remote session with what its callbacks closed over. *)
Record Session := {
  phase : Phase;
  resolved : bool;                     (* the promise of connect() has resolved *)
  systemInstruction : string;
  imagePart : option MessagePart;      (* the [imagePart] of this [start] call *)
  thens : list Deferred }.

Record AudioContext := { sampleRate : N; closed : bool }.

(** A scheduled buffer source and the [turnComplete] its [ended]
    listener closed over. *)
Record PlaybackSource := {
  ps_start : Q;
  ps_duration : Q;
  ps_stopped : bool;
  ps_turnComplete : bool }.

Record World := {
  sessions : list Session;             (* by session number *)
  contexts : list AudioContext;        (* by context number *)
  streams : list bool;                 (* microphone streams: tracks stopped? *)
  processors : list bool;              (* script processors: connected? *)
  sources : list PlaybackSource;       (* by source number *)
  toolResponses : list (nat * ToolResponse);  (* sent, oldest first *)
  realtimeInputs : list (nat * Blob);  (* sent, oldest first *)
  console : list Thrown;               (* console.error, oldest first *)
  micPending : nat }.                  (* getUserMedia requests not yet answered *)

Definition set_sessions (v : list Session) (w : World) : World :=
  {| sessions := v; contexts := contexts w; streams := streams w; processors :=
     processors w; sources := sources w; toolResponses := toolResponses w;
     realtimeInputs := realtimeInputs w; console := console w; micPending :=
     micPending w |}.
Definition set_contexts (v : list AudioContext) (w : World) : World :=
  {| sessions := sessions w; contexts := v; streams := streams w; processors :=
     processors w; sources := sources w; toolResponses := toolResponses w;
     realtimeInputs := realtimeInputs w; console := console w; micPending :=
     micPending w |}.
Definition set_streams (v : list bool) (w : World) : World :=
  {| sessions := sessions w; contexts := contexts w; streams := v; processors :=
     processors w; sources := sources w; toolResponses := toolResponses w;
     realtimeInputs := realtimeInputs w; console := console w; micPending :=
     micPending w |}.
Definition set_processors (v : list bool) (w : World) : World :=
  {| sessions := sessions w; contexts := contexts w; streams := streams w; processors
     := v; sources := sources w; toolResponses := toolResponses w; realtimeInputs :=
     realtimeInputs w; console := console w; micPending := micPending w |}.
Definition set_sources (v : list PlaybackSource) (w : World) : World :=
  {| sessions := sessions w; contexts := contexts w; streams := streams w; processors
     := processors w; sources := v; toolResponses := toolResponses w; realtimeInputs
     := realtimeInputs w; console := console w; micPending := micPending w |}.
Definition set_toolResponses (v : list (nat * ToolResponse)) (w : World) : World :=
  {| sessions := sessions w; contexts := contexts w; streams := streams w; processors
     := processors w; sources := sources w; toolResponses := v; realtimeInputs :=
     realtimeInputs w; console := console w; micPending := micPending w |}.
Definition set_realtimeInputs (v : list (nat * Blob)) (w : World) : World :=
  {| sessions := sessions w; contexts := contexts w; streams := streams w; processors
     := processors w; sources := sources w; toolResponses := toolResponses w;
     realtimeInputs := v; console := console w; micPending := micPending w |}.
Definition set_console (v : list Thrown) (w : World) : World :=
  {| sessions := sessions w; contexts := contexts w; streams := streams w; processors
     := processors w; sources := sources w; toolResponses := toolResponses w;
     realtimeInputs := realtimeInputs w; console := v; micPending := micPending w |}.
Definition set_micPending (v : nat) (w : World) : World :=
  {| sessions := sessions w; contexts := contexts w; streams := streams w; processors
     := processors w; sources := sources w; toolResponses := toolResponses w;
     realtimeInputs := realtimeInputs w; console := console w; micPending := v |}.

Definition set_phase (v : Phase) (s : Session) : Session :=
  {| phase := v; resolved := resolved s; systemInstruction := systemInstruction s;
     imagePart := imagePart s; thens := thens s |}.
Definition set_resolved (v : bool) (s : Session) : Session :=
  {| phase := phase s; resolved := v; systemInstruction := systemInstruction s;
     imagePart := imagePart s; thens := thens s |}.
Definition set_thens (v : list Deferred) (s : Session) : Session :=
  {| phase := phase s; resolved := resolved s; systemInstruction := systemInstruction s;
     imagePart := imagePart s; thens := v |}.
Definition set_closed (v : bool) (a : AudioContext) : AudioContext :=
  {| sampleRate := sampleRate a; closed := v |}.
Definition set_ps_stopped (v : bool) (p : PlaybackSource) : PlaybackSource :=
  {| ps_start := ps_start p; ps_duration := ps_duration p; ps_stopped := v;
     ps_turnComplete := ps_turnComplete p |}.

(** ** Configurations and handlers *)

Record Config := { hook : Hook; world : World }.

Definition Handler := Config -> Config.

Definition upd_hook (f : Hook -> Hook) : Handler :=
  fun c => {| hook := f (hook c); world := world c |}.
Definition upd_world (f : World -> World) : Handler :=
  fun c => {| hook := hook c; world := f (world c) |}.

Definition seq (f g : Handler) : Handler := fun c => g (f c).
Definition skip : Handler := fun c => c.

Declare Scope handler_scope.
Delimit Scope handler_scope with H.
Bind Scope handler_scope with Handler.
Notation "f ;; g" := (seq f g)
  (at level 100, g at level 200, right associativity) : handler_scope.

(** [if (o) body(o)] on a ref read from the hook. *)
Definition whenSome {A} (read : Hook -> option A) (body : A -> Handler) : Handler :=
  fun c => match read (hook c) with
           | Some a => body a c
           | None => c
           end.

Definition initialHook : Hook :=
  {| status := "Ready"; error := None; messages := []; isLiveConnected := false;
     isMicMuted := false; aiRef := false; sessionPromiseRef := None;
     inputAudioContextRef := None; outputAudioContextRef := None;
     microphoneStreamRef := None; scriptProcessorRef := None;
     nextStartTimeRef := 0%Q; audioSourcesRef := [];
     currentInputTranscriptionRef := EmptyString;
     currentOutputTranscriptionRef := EmptyString |}.

Definition emptyWorld : World :=
  {| sessions := []; contexts := []; streams := []; processors := []; sources := [];
     toolResponses := []; realtimeInputs := []; console := []; micPending := 0 |}.

Definition initial : Config := {| hook := initialHook; world := emptyWorld |}.

(** React state setters. *)
Definition setStatus (v : string) : Handler := upd_hook (set_status v).
Definition setError (v : option string) : Handler := upd_hook (set_error v).
Definition setMessages (v : list Message) : Handler := upd_hook (set_messages v).
Definition setIsLiveConnected (v : bool) : Handler := upd_hook (set_isLiveConnected v).
Definition setIsMicMuted (v : bool) : Handler := upd_hook (set_isMicMuted v).

(** [console.error(e)] *)
Definition consoleError (e : Thrown) : Handler :=
  upd_world (fun w => set_console (console w ++ [e]) w).

(** *** Promises of sessions *)

(** A continuation of the session promise runs on the resolved session.
    A send on a connection that is no longer open is discarded by the
    socket; [close] on it changes nothing. *)
Definition runDeferred (env : Env) (n : nat) (d : Deferred) (w : World) : World :=
  match sessions w !! n with
  | None => w
  | Some s =>
      match d with
      | DClose =>
          match closeThrows env with
          | Some e => set_console (console w ++ [e]) w
          | None =>
              match phase s with
              | Open => set_sessions (<[n := set_phase Closing s]> (sessions w)) w
              | _ => w
              end
          end
      | DToolResponse r =>
          match phase s with
          | Open => set_toolResponses (toolResponses w ++ [(n, r)]) w
          | _ => w
          end
      | DRealtimeInput b =>
          match phase s with
          | Open => set_realtimeInputs (realtimeInputs w ++ [(n, b)]) w
          | _ => w
          end
      end
  end.

(** [promise.then(d)]: run now when the promise has resolved, keep the
    continuation otherwise. *)
Definition promiseThen (env : Env) (n : nat) (d : Deferred) (w : World) : World :=
  match sessions w !! n with
  | None => w
  | Some s =>
      if resolved s then runDeferred env n d w
      else set_sessions (<[n := set_thens (thens s ++ [d]) s]> (sessions w)) w
  end.

(** [sessionPromiseRef.current?.then(d)] *)
Definition onSession (env : Env) (d : Deferred) : Handler :=
  whenSome sessionPromiseRef (fun n => upd_world (promiseThen env n d)).

(** ** The hook's functions *)

(** [clearSessionMessages] *)
Definition clearSessionMessages : Handler := setMessages [].

(** [source.stop()] *)
Definition sourceStop (i : nat) (w : World) : World :=
  match sources w !! i with
  | Some p => set_sources (<[i := set_ps_stopped true p]> (sources w)) w
  | None => w
  end.

(** [audioSourcesRef.current.delete(source)] *)
Definition deleteSource (i : nat) (h : Hook) : Hook :=
  set_audioSourcesRef (filter (fun j => j <> i) (audioSourcesRef h)) h.

(** The loop of [stopAudioPlayback] over the sources of the set. *)
Fixpoint stopEach (l : list nat) : Handler :=
  match l with
  | [] => skip
  | i :: rest => upd_world (sourceStop i) ;; upd_hook (deleteSource i) ;; stopEach rest
  end%H.

(** [stopAudioPlayback] (lines 129-137) *)
Definition stopAudioPlayback : Handler :=
  whenSome outputAudioContextRef (fun _ =>
    (fun c => stopEach (audioSourcesRef (hook c)) c) ;;
    upd_hook (set_nextStartTimeRef 0%Q))%H.

(** [track.stop()] on every track of a stream. *)
Definition stopTracks (i : nat) (w : World) : World :=
  set_streams (<[i := true]> (streams w)) w.

(** [scriptProcessor.disconnect()] *)
Definition disconnect (i : nat) (w : World) : World :=
  set_processors (<[i := false]> (processors w)) w.

(** [if (ctx && ctx.state !== 'closed') ctx.close().catch(console.error)] *)
Definition closeContext (env : Env) (i : nat) (w : World) : World :=
  match contexts w !! i with
  | None => w
  | Some a =>
      if closed a then w
      else match contextCloseRejects env i with
           | Some e => set_console (console w ++ [e]) w
           | None => set_contexts (<[i := set_closed true a]> (contexts w)) w
           end
  end.

(** [stop] (lines 139-165) *)
Definition stop (env : Env) : Handler :=
  (onSession env DClose ;;
   upd_hook (set_sessionPromiseRef None) ;;
   whenSome microphoneStreamRef (fun i => upd_world (stopTracks i)) ;;
   upd_hook (set_microphoneStreamRef None) ;;
   whenSome scriptProcessorRef (fun i => upd_world (disconnect i)) ;;
   upd_hook (set_scriptProcessorRef None) ;;
   whenSome inputAudioContextRef (fun i => upd_world (closeContext env i)) ;;
   upd_hook (set_inputAudioContextRef None) ;;
   stopAudioPlayback ;;
   whenSome outputAudioContextRef (fun i => upd_world (closeContext env i)) ;;
   upd_hook (set_outputAudioContextRef None) ;;
   setIsLiveConnected false ;;
   setStatus "Ready" ;;
   setError None)%H.

(** [addMessage] (lines 167-169) *)
Definition addMessage (m : Message) : Handler :=
  upd_hook (fun h => set_messages (messages h ++ [m]) h).

Inductive Topic := general | speech_therapy | learn_english.
Inductive Language := en_US | te_IN.

Definition nl : string := String (ascii_of_nat 10) EmptyString.

Definition isText (p : MessagePart) : option string :=
  match p with
  | TextPart t => Some t
  | _ => None
  end.

(** [historyText] of [start] *)
Definition historyText (history : list Message) : string :=
  match history with
  | [] => EmptyString
  | _ =>
      nl +:+ nl +:+ "This is the conversation history so far:" +:+ nl
      +:+ join nl (map (fun m =>
             let textContent := join " " (omap isText (parts m)) in
             (match speaker m with user => "User" | model => "Zud" end)
             +:+ ": " +:+ textContent) history)
      +:+ nl +:+ "Continue the conversation."
  end.

Definition topicInstructions (t : Topic) : string :=
  match t with
  | speech_therapy => "You are a specialized speech therapy assistant. Speak slowly and clearly. Guide the user through speech exercises. Be patient and supportive. Focus on articulation and fluency."
  | learn_english => "You are an expert English language tutor. Speak clearly in English. Help the user practice their pronunciation, vocabulary, and grammar. Keep your responses encouraging and conversational."
  | general => "You are a friendly and helpful voice assistant. Keep your responses concise and conversational."
  end.

Definition languageInstruction (l : Language) : string :=
  match l with
  | te_IN => "You MUST respond in the Telugu language."
  | en_US => "You MUST respond in English."
  end.

Definition buildSystemInstruction (history : list Message) (t : Topic) (l : Language)
  : string :=
  "You are Zud Assistance. " +:+ topicInstructions t +:+ " "
  +:+ languageInstruction l +:+ " " +:+ historyText history.

(** [new AudioContext({ sampleRate })]: the number of the new context. *)
Definition newContext (rate : N) (w : World) : World :=
  set_contexts (contexts w ++ [{| sampleRate := rate; closed := false |}]) w.

(** [live.connect(...)]: a new session, its promise pending. *)
Definition connect (instruction : string) (img : option MessagePart) (w : World)
  : World :=
  set_sessions (sessions w ++ [{| phase := Connecting; resolved := false;
                                  systemInstruction := instruction;
                                  imagePart := img; thens := [] |}]) w.

(** The [catch] of [start] (lines 391-398) *)
Definition startFailed (e : Thrown) : Handler :=
  (consoleError e ;;
   setError (Some ("Failed to start session: " +:+ errorMessageOf e)) ;;
   setStatus "Error" ;;
   setIsLiveConnected false)%H.

(** The [try] block of [start] (lines 185-389), up to the first throw. *)
Definition startAttempt (env : Env) (history : list Message) (t : Topic)
    (l : Language) (img : option MessagePart) : Handler :=
  if truthy (API_KEY env) then
    (upd_hook (set_aiRef true) ;;
     (fun c => (upd_world (newContext 24000) ;;
                upd_hook (set_outputAudioContextRef
                            (Some (length (contexts (world c)))))) c) ;;
     match img with
     | Some p => addMessage {| msg_id := toString (now env); speaker := user;
                               parts := [p] |}
     | None => skip
     end ;;
     match connectThrows env with
     | Some e => startFailed e
     | None =>
         fun c => (upd_world (connect (buildSystemInstruction history t l) img) ;;
                   upd_hook (set_sessionPromiseRef
                               (Some (length (sessions (world c)))))) c
     end)%H
  else startFailed (ErrorObj "API_KEY environment variable not set.").

(** [start] (lines 171-399).  [start] is a [useCallback] that depends on
    [isLiveConnected]: its guard reads the flag as it was at the render
    that created the function the caller holds, [liveAtRender], and not
    the flag of the hook at the time of the call. *)
Definition start (env : Env) (liveAtRender : bool) (history : list Message)
    (t : Topic) (l : Language) (img : option MessagePart) : Handler :=
  fun c =>
    if liveAtRender then c
    else
      (setStatus "Connecting..." ;;
       setError None ;;
       setMessages [] ;;
       upd_hook (set_currentInputTranscriptionRef EmptyString) ;;
       upd_hook (set_currentOutputTranscriptionRef EmptyString) ;;
       startAttempt env history t l img)%H c.

(** [toggleMicMute] *)
Definition toggleMicMute : Handler :=
  fun c => setIsMicMuted (negb (isMicMuted (hook c))) c.

(** ** The callbacks of a session *)

(** [onopen], up to the [await] of the microphone (lines 222-227). *)
Definition onopen : Handler :=
  (setIsLiveConnected true ;;
   setStatus "Listening..." ;;
   upd_world (fun w => set_micPending (S (micPending w)) w))%H.

(** [onopen] after the microphone is granted (lines 227-244). *)
Definition onopenGranted : Handler :=
  ((fun c => (upd_world (fun w => set_streams (streams w ++ [false]) w) ;;
              upd_hook (set_microphoneStreamRef
                          (Some (length (streams (world c)))))) c) ;;
   (fun c => (upd_world (newContext 16000) ;;
              upd_hook (set_inputAudioContextRef
                          (Some (length (contexts (world c)))))) c) ;;
   (fun c => (upd_world (fun w => set_processors (processors w ++ [true]) w) ;;
              upd_hook (set_scriptProcessorRef
                          (Some (length (processors (world c)))))) c))%H.

(** [onopen] when the microphone request fails (lines 246-252). *)
Definition onopenDenied (env : Env) (err : Thrown) : Handler :=
  (setError (Some ("Microphone error: " +:+ errorMessageOf err)) ;;
   setStatus "Error" ;;
   stop env)%H.

(** [onaudioprocess] (lines 236-241); [pcmBlob] is the encoded frame. *)
Definition onaudioprocess (env : Env) (pcmBlob : Blob) : Handler :=
  fun c => if isMicMuted (hook c) then c
           else onSession env (DRealtimeInput pcmBlob) c.

(** [fetchYouTubeVideos] (lines 18-52): the result, and what it logs. *)
Definition fetchYouTubeVideos (env : Env) (query : option string)
  : Outcome (list Video) * list Thrown :=
  let apiKey := YOUTUBE_API_KEY env in
  if String.eqb apiKey EmptyString then
    (Throws (ErrorObj "The YouTube API key is not configured in config.ts. Please add your key to enable video search."), [])
  else
    let maxResults := 5%N in
    let apiUrl := {| req_q := default "undefined" query; req_type := "video";
                     req_videoEmbeddable := true; req_maxResults := maxResults;
                     req_key := apiKey |} in
    match fetch env apiUrl with
    | FetchRejects e => (Throws e, [e])
    | HttpError m =>
        let e := ErrorObj ("YouTube API error: " +:+ m) in (Throws e, [e])
    | HttpOk items =>
        (Returns (map (fun item =>
                         {| vid_id := item_videoId item;
                            vid_title := item_title item;
                            vid_channel := item_channelTitle item;
                            vid_description := item_description item |}) items),
         [])
    end.

(** The web citations of a response (lines 288-290): chunks whose [web]
    has a non-empty uri and a non-empty title. *)
Definition citation (chunk : option Web) : option SourceItem :=
  match chunk with
  | Some {| web_uri := Some u; web_title := Some t |} =>
      if (negb (String.eqb u EmptyString) && negb (String.eqb t EmptyString))%bool
      then Some {| src_uri := u; src_title := t |}
      else None
  | _ => None
  end.

Definition citations (r : GenerateContentResponse) : list SourceItem :=
  match resp_groundingChunks r with
  | Some chunks => omap citation chunks
  | None => []
  end.

Definition googleFallbackText : string :=
  "I looked for that, but couldn't find any specific information.".

Definition youtubeFallbackText : string :=
  "Sorry, no videos could be found that allow playback here.".

(** The [googleSearch] branch after the response arrived (lines 287-306). *)
Definition googleSearchReply (env : Env) (response : GenerateContentResponse)
  : Message * FunctionResponse :=
  let text := option_map trim (resp_text response) in
  let sources := citations response in
  if (truthy text || negb (Nat.eqb (length sources) 0))%bool then
    let parts := (if truthy text then [TextPart (default EmptyString text)] else [])
                 ++ (if negb (Nat.eqb (length sources) 0)
                     then [SourcePart sources] else []) in
    ({| msg_id := toString (now env); speaker := model; parts := parts |},
     Result (or_else text "I found some information for you."))
  else
    let fallbackText := googleFallbackText in
    ({| msg_id := toString (now env); speaker := model;
        parts := [TextPart fallbackText] |},
     Result fallbackText).

(** The [try] block of one function call (lines 266-322): the
    configuration reached, and the response or the value thrown. *)
Definition tryCall (env : Env) (fc : FunctionCall) (c : Config)
  : Config * Outcome (option FunctionResponse) :=
  if (String.eqb (fc_name fc) "generateImage" && aiRef (hook c))%bool then
    let prompt := prop "prompt" (fc_args fc) in
    match generateImages env prompt with
    | Throws e => (c, Throws e)
    | Returns base64ImageBytes =>
        let imageUrl := "data:image/jpeg;base64," +:+ base64ImageBytes in
        (addMessage {| msg_id := toString (now env); speaker := model;
                       parts := [ImagePart imageUrl prompt] |} c,
         Returns (Some (Result "OK, I've generated that image for you.")))
    end
  else if (String.eqb (fc_name fc) "googleSearch" && aiRef (hook c))%bool then
    let query := prop "query" (fc_args fc) in
    match generateContent env query with
    | Throws e => (c, Throws e)
    | Returns response =>
        let (m, r) := googleSearchReply env response in
        (addMessage m c, Returns (Some r))
    end
  else if String.eqb (fc_name fc) "youtubeSearch" then
    let query := prop "query" (fc_args fc) in
    match fetchYouTubeVideos env query with
    | (Throws e, logged) =>
        (upd_world (fun w => set_console (console w ++ logged) w) c, Throws e)
    | (Returns videos, _) =>
        if negb (Nat.eqb (length videos) 0) then
          let textPart := TextPart "Found some videos for you:" in
          let youtubePart := YouTubePart videos in
          (addMessage {| msg_id := toString (now env); speaker := model;
                         parts := [textPart; youtubePart] |} c,
           Returns (Some (Result ("OK, I found "
                                  +:+ toString (N.of_nat (length videos))
                                  +:+ " videos."))))
        else
          let fallbackText := youtubeFallbackText in
          (addMessage {| msg_id := toString (now env); speaker := model;
                         parts := [TextPart fallbackText] |} c,
           Returns (Some (Result fallbackText)))
    end
  else (c, Returns None).

(** The [catch] of a function call (lines 323-330). *)
Definition toolFailed (env : Env) (e : Thrown) : Handler :=
  (consoleError e ;;
   setError (Some ("Error with tool: " +:+ errorMessageOf e)) ;;
   addMessage {| msg_id := toString (now env); speaker := model;
                 parts := [TextPart ("An error occurred: " +:+ errorMessageOf e)] |})%H.

(** One iteration of the loop over the batch (lines 264-337). *)
Definition handleCall (env : Env) (fc : FunctionCall) : Handler :=
  fun c =>
    let (c1, r) := tryCall env fc c in
    let (c2, functionResponse) :=
      match r with
      | Returns fr => (c1, fr)
      | Throws e =>
          (toolFailed env e c1,
           Some (Failure ("Tool execution failed: " +:+ errorMessageOf e)))
      end in
    onSession env (DToolResponse {| tr_id := fc_id fc; tr_name := fc_name fc;
                                    tr_response := functionResponse |}) c2.

(** The loop over the batch, when no other handler runs while a call is
    awaited; [handleCallsAwaiting] below is the loop with what runs at
    its suspension points. *)
Fixpoint handleCalls (env : Env) (calls : list FunctionCall) : Handler :=
  match calls with
  | [] => skip
  | fc :: rest => handleCall env fc ;; handleCalls env rest
  end%H.

Definition handoffText : string :=
  "Let me check with my partner AI for better assistance...".

Definition handoffMessage (env : Env) : Message :=
  {| msg_id := "handoff-" +:+ toString (now env); speaker := model;
     parts := [TextPart handoffText] |}.

(** The transcription accumulators (lines 255-259). *)
Definition accumulate (m : LiveServerMessage) : Handler :=
  match outputTranscription m, inputTranscription m with
  | Some t, _ =>
      upd_hook (fun h => set_currentOutputTranscriptionRef
                           (currentOutputTranscriptionRef h +:+ t) h)
  | None, Some t =>
      upd_hook (fun h => set_currentInputTranscriptionRef
                           (currentInputTranscriptionRef h +:+ t) h)
  | None, None => skip
  end.

(** The tool-call batch (lines 261-338). *)
Definition onToolCall (env : Env) (m : LiveServerMessage) : Handler :=
  match toolCall m with
  | Some functionCalls =>
      (addMessage (handoffMessage env) ;;
       setStatus "Thinking..." ;;
       handleCalls env functionCalls)%H
  | None => skip
  end.

(** The user's finalized input (lines 341-345). *)
Definition flushInput (env : Env) (img : option MessagePart) : Handler :=
  fun c =>
    let fullInput := trim (currentInputTranscriptionRef (hook c)) in
    if negb (String.eqb fullInput EmptyString) then
      let parts := match img with
                   | Some p => [p; TextPart fullInput]
                   | None => [TextPart fullInput]
                   end in
      addMessage {| msg_id := toString (now env); speaker := user; parts := parts |} c
    else c.

(** The model's finalized output (lines 347-350). *)
Definition flushOutput (env : Env) : Handler :=
  fun c =>
    let fullOutput := trim (currentOutputTranscriptionRef (hook c)) in
    if negb (String.eqb fullOutput EmptyString) then
      addMessage {| msg_id := toString (now env); speaker := model;
                    parts := [TextPart fullOutput] |} c
    else c.

(** Turn completion (lines 340-355). *)
Definition onTurnComplete (env : Env) (img : option MessagePart)
    (m : LiveServerMessage) : Handler :=
  if turnComplete m then
    (flushInput env img ;;
     flushOutput env ;;
     upd_hook (set_currentInputTranscriptionRef EmptyString) ;;
     upd_hook (set_currentOutputTranscriptionRef EmptyString) ;;
     setStatus "Listening...")%H
  else skip.

(** [source.start(t)] on a new buffer source of the given duration, with
    the [ended] listener of this message attached. *)
Definition startSource (t duration : Q) (turnDone : bool) (w : World) : World :=
  set_sources (sources w ++ [{| ps_start := t; ps_duration := duration;
                                ps_stopped := false;
                                ps_turnComplete := turnDone |}]) w.

(** An audio fragment (lines 357-376). *)
Definition onAudio (env : Env) (m : LiveServerMessage) : Handler :=
  fun c =>
    match inlineAudio m, outputAudioContextRef (hook c) with
    | Some base64Audio, Some _ =>
        if String.eqb base64Audio EmptyString then c
        else
          (setStatus "Speaking..." ;;
           upd_hook (fun h => set_nextStartTimeRef
                                (Qmax (nextStartTimeRef h) (currentTime env)) h) ;;
           (fun c1 =>
              let duration := decodedDuration env base64Audio in
              let source := length (sources (world c1)) in
              (upd_world (startSource (nextStartTimeRef (hook c1)) duration
                                      (turnComplete m)) ;;
               upd_hook (fun h => set_nextStartTimeRef
                                    (nextStartTimeRef h + duration)%Q h) ;;
               upd_hook (fun h => set_audioSourcesRef
                                    (audioSourcesRef h ++ [source]) h)) c1))%H c
    | _, _ => c
    end.

(** [onmessage] (lines 254-379); [img] is the [imagePart] of the [start]
    call that registered the callback.  [beforeInterrupted] is the body
    up to line 376, the last line (378) handles the interruption marker. *)
Definition beforeInterrupted (env : Env) (img : option MessagePart)
    (m : LiveServerMessage) : Handler :=
  (accumulate m ;;
   onToolCall env m ;;
   onTurnComplete env img m ;;
   onAudio env m)%H.

Definition onmessage (env : Env) (img : option MessagePart) (m : LiveServerMessage)
  : Handler :=
  (beforeInterrupted env img m ;;
   (if interrupted m then stopAudioPlayback else skip))%H.

(** [onerror] (lines 380-385) *)
Definition onerror (env : Env) (message : string) : Handler :=
  (consoleError (ErrorObj message) ;;
   setError (Some ("Session error: " +:+ message)) ;;
   setStatus "Error" ;;
   stop env)%H.

(** [onclose] (line 386) *)
Definition onclose (env : Env) : Handler := stop env.

(** The [ended] listener of a source (lines 367-372); [turnDone] is the
    [turnComplete] of the message that scheduled the source. *)
Definition onended (source : nat) (turnDone : bool) : Handler :=
  (upd_hook (deleteSource source) ;;
   (fun c => if (Nat.eqb (length (audioSourcesRef (hook c))) 0 && negb turnDone)%bool
             then setStatus "Listening..." c else c))%H.

(** ** The reactive system *)

(** What can happen to the hook: calls of its functions by the
    component, and events delivered to the callbacks it registered. *)
Inductive Event :=
| CallStart (liveAtRender : bool) (history : list Message) (t : Topic)
            (l : Language) (img : option MessagePart)
| CallStop
| CallToggleMicMute
| CallClearSessionMessages
| SessionOpened (n : nat)              (* the connection of session [n] opens *)
| MicrophoneGranted                    (* getUserMedia resolves *)
| MicrophoneDenied (e : Thrown)        (* getUserMedia rejects *)
| SessionMessage (n : nat) (m : LiveServerMessage)
| SessionError (n : nat) (message : string)
| SessionClosed (n : nat)              (* the close event of session [n] *)
| AudioFrame (p : nat) (pcmBlob : Blob)
| SourceEnded (i : nat).

(** The connection of session [n] opens: [onopen] runs, then the promise
    of [connect] resolves and its continuations run in order. *)
Definition sessionOpened (env : Env) (n : nat) (s : Session) : Handler :=
  (upd_world (fun w =>
     set_sessions (<[n := set_thens [] (set_resolved true (set_phase Open s))]>
                     (sessions w)) w) ;;
   onopen ;;
   upd_world (fun w => foldl (fun w d => runDeferred env n d w) w (thens s)))%H.

Definition markPhase (n : nat) (s : Session) (p : Phase) : Handler :=
  upd_world (fun w => set_sessions (<[n := set_phase p s]> (sessions w)) w).

(** One event; [None] when the event cannot occur in this configuration. *)
Definition step (env : Env) (ev : Event) (c : Config) : option Config :=
  match ev with
  | CallStart liveAtRender history t l img =>
      Some (start env liveAtRender history t l img c)
  | CallStop => Some (stop env c)
  | CallToggleMicMute => Some (toggleMicMute c)
  | CallClearSessionMessages => Some (clearSessionMessages c)
  | SessionOpened n =>
      match sessions (world c) !! n with
      | Some s =>
          match phase s with
          | Connecting => Some (sessionOpened env n s c)
          | _ => None
          end
      | None => None
      end
  | MicrophoneGranted =>
      match micPending (world c) with
      | S k => Some ((upd_world (set_micPending k) ;; onopenGranted)%H c)
      | O => None
      end
  | MicrophoneDenied e =>
      match micPending (world c) with
      | S k => Some ((upd_world (set_micPending k) ;; onopenDenied env e)%H c)
      | O => None
      end
  | SessionMessage n m =>
      match sessions (world c) !! n with
      | Some s =>
          match phase s with
          | Open | Closing => Some (onmessage env (imagePart s) m c)
          | _ => None
          end
      | None => None
      end
  | SessionError n message =>
      match sessions (world c) !! n with
      | Some s =>
          match phase s with
          | Closed => None
          | _ => Some ((markPhase n s Closing ;; onerror env message)%H c)
          end
      | None => None
      end
  | SessionClosed n =>
      match sessions (world c) !! n with
      | Some s =>
          match phase s with
          | Closed => None
          | _ => Some ((markPhase n s Closed ;; onclose env)%H c)
          end
      | None => None
      end
  | AudioFrame p pcmBlob =>
      match processors (world c) !! p with
      | Some true => Some (onaudioprocess env pcmBlob c)
      | _ => None
      end
  | SourceEnded i =>
      match sources (world c) !! i with
      | Some p => Some (onended i (ps_turnComplete p) c)
      | None => None
      end
  end.

(** A trace: each event with the environment it runs in. *)
Fixpoint run (trace : list (Env * Event)) (c : Config) : option Config :=
  match trace with
  | [] => Some c
  | (env, ev) :: rest =>
      match step env ev c with
      | Some c' => run rest c'
      | None => None
      end
  end.

(** The sessions whose connection is open. *)
Definition isOpen (s : Session) : bool :=
  match phase s with
  | Open => true
  | _ => false
  end.

Definition connectedSessions (w : World) : nat :=
  length (filter (fun s => isOpen s = true) (sessions w)).

(** An environment in which nothing fails and the services answer with
    empty results. *)
Definition quiet : Env :=
  {| API_KEY := Some "key"; YOUTUBE_API_KEY := "ytkey"; now := 1000%N;
     currentTime := 0%Q; connectThrows := None; closeThrows := None;
     contextCloseRejects := fun _ => None;
     generateImages := fun _ => Returns "AAAA";
     generateContent := fun _ => Returns {| resp_text := None;
                                            resp_groundingChunks := None |};
     fetch := fun _ => HttpOk [];
     decodedDuration := fun _ => 1%Q |}.

(** ** Notions used by the properties *)

(** No [close()] of a session throws in this environment. *)
Definition calm (env : Env) : bool :=
  match closeThrows env with
  | None => true
  | Some _ => false
  end.

(** [start] is called with the flag of the hook (the caller holds the
    function of the last render) and not while the session slot still
    holds a session that has not reported open: either the hook is
    connected (the call is then a no-op) or the slot is empty. *)
Definition mayStart (liveAtRender : bool) (c : Config) : bool :=
  (Bool.eqb liveAtRender (isLiveConnected (hook c))
   && (isLiveConnected (hook c)
       || match sessionPromiseRef (hook c) with None => true | Some _ => false end))%bool.

Definition allowed (env : Env) (ev : Event) (c : Config) : bool :=
  (calm env && match ev with
               | CallStart liveAtRender _ _ _ _ => mayStart liveAtRender c
               | _ => true
               end)%bool.

(** A trace whose every event is [allowed] where it occurs. *)
Fixpoint disciplined (trace : list (Env * Event)) (c : Config) : bool :=
  match trace with
  | [] => true
  | (env, ev) :: rest =>
      (allowed env ev c
       && match step env ev c with
          | Some c' => disciplined rest c'
          | None => false
          end)%bool
  end.

Definition isNone {A} (o : option A) : bool :=
  match o with
  | None => true
  | Some _ => false
  end.

(** The hook is idle: status [Ready], no error, not connected, no
    session and no audio resource held. *)
Definition idle (c : Config) : bool :=
  (String.eqb (status (hook c)) "Ready"
   && isNone (error (hook c))
   && negb (isLiveConnected (hook c))
   && isNone (sessionPromiseRef (hook c))
   && isNone (microphoneStreamRef (hook c))
   && isNone (scriptProcessorRef (hook c))
   && isNone (inputAudioContextRef (hook c))
   && isNone (outputAudioContextRef (hook c)))%bool.

(** The errors raised by the close operations of one [stop]: by
    [session.close()] when the promise in the slot has resolved, and by
    [close()] of the capture and of the playback context. *)
Definition closeError (env : Env) (w : World) (ref : option nat) : list Thrown :=
  match ref with
  | Some n =>
      match sessions w !! n, closeThrows env with
      | Some s, Some e => if resolved s then [e] else []
      | _, _ => []
      end
  | None => []
  end.

Definition contextError (env : Env) (w : World) (ref : option nat) : list Thrown :=
  match ref with
  | Some i =>
      match contexts w !! i, contextCloseRejects env i with
      | Some a, Some e => if closed a then [] else [e]
      | _, _ => []
      end
  | None => []
  end.

Definition raisedByStop (env : Env) (c : Config) : list Thrown :=
  closeError env (world c) (sessionPromiseRef (hook c))
  ++ contextError env (world c) (inputAudioContextRef (hook c))
  ++ contextError env (world c) (outputAudioContextRef (hook c)).

Definition nonEmptyParts (m : Message) : bool :=
  match parts m with
  | [] => false
  | _ :: _ => true
  end.

(** The three declared tools (lines 100-102). *)
Definition declaredTools : list string :=
  ["generateImage"; "googleSearch"; "youtubeSearch"].

Definition isDeclared (name : string) : bool :=
  existsb (String.eqb name) declaredTools.

(** The function result of [googleSearch] as the specification words it:
    the answer text, or the fallback text when there is none. *)
Definition specGoogleResult (response : GenerateContentResponse) : FunctionResponse :=
  let text := option_map trim (resp_text response) in
  Result (or_else text googleFallbackText).

(** The message that reports a tool failure carries this text. *)
Definition reportsError (e : Thrown) (m : Message) : bool :=
  existsb (fun p => match p with
                    | TextPart t => String.eqb t ("An error occurred: " +:+ errorMessageOf e)
                    | _ => false
                    end) (parts m).

(** Delivery of consecutive messages to [onmessage], each in its
    environment. *)
Fixpoint deliver (img : option MessagePart) (ms : list (Env * LiveServerMessage))
  : Handler :=
  match ms with
  | [] => skip
  | (env, m) :: rest => onmessage env img m ;; deliver img rest
  end%H.

(** A message that carries an audio fragment and no interruption
    marker. *)
Definition carriesAudio (em : Env * LiveServerMessage) : bool :=
  (truthy (inlineAudio (snd em)) && negb (interrupted (snd em)))%bool.

(** The schedule as the specification words it: each fragment starts at
    the maximum of the previous scheduled end and the playback clock at
    arrival, and ends one duration later.  Pairs are (start, end). *)
Fixpoint specSchedule (previousEnd : Q) (ms : list (Env * LiveServerMessage))
  : list (Q * Q) :=
  match ms with
  | [] => []
  | (env, m) :: rest =>
      let startAt := Qmax previousEnd (currentTime env) in
      let endAt := (startAt + decodedDuration env (default EmptyString (inlineAudio m)))%Q in
      (startAt, endAt) :: specSchedule endAt rest
  end.

(** The (start, end) of the sources scheduled since [c]. *)
Definition scheduledSince (c c' : Config) : list (Q * Q) :=
  map (fun p => (ps_start p, (ps_start p + ps_duration p)%Q))
      (drop (length (sources (world c))) (sources (world c'))).

(** Each start is at or after the previous end and the clock at arrival. *)
Fixpoint monotonic (previousEnd : Q) (ms : list (Env * LiveServerMessage))
    (schedule : list (Q * Q)) : Prop :=
  match ms, schedule with
  | (env, _) :: ms', (startAt, endAt) :: schedule' =>
      (previousEnd <= startAt)%Q /\ (currentTime env <= startAt)%Q
      /\ monotonic endAt ms' schedule'
  | [], [] => True
  | _, _ => False
  end.

(** Source [i] has been stopped. *)
Definition stoppedAt (w : World) (i : nat) : bool :=
  match sources w !! i with
  | Some p => ps_stopped p
  | None => false
  end.

(** Every handle of the active set names a source of the world. *)
Definition handlesValid (c : Config) : Prop :=
  Forall (fun i => i < length (sources (world c))) (audioSourcesRef (hook c)).

(** [c'] has the messages of [c] followed by messages with parts. *)
Definition extends (c c' : Config) : Prop :=
  exists l, messages (hook c') = messages (hook c) ++ l
            /\ Forall (fun m => nonEmptyParts m = true) l.

(** Every message of [c'] is a message of [c] or has parts. *)
Definition freshOk (c c' : Config) : Prop :=
  forall m, m ∈ messages (hook c') -> m ∈ messages (hook c) \/ nonEmptyParts m = true.

(** A tool-call frame with one function call and nothing else. *)
Definition toolCallFrame (calls : list FunctionCall) : LiveServerMessage :=
  {| outputTranscription := None; inputTranscription := None;
     toolCall := Some calls; turnComplete := false; inlineAudio := None;
     interrupted := false |}.

(** The message appended by the [catch] of a function call. *)
Definition failureReport (env : Env) (e : Thrown) : Message :=
  {| msg_id := toString (now env); speaker := model;
     parts := [TextPart ("An error occurred: " +:+ errorMessageOf e)] |}.

(** A connected session: started, opened, microphone granted. *)
Definition connected : Config :=
  default initial
    (run [(quiet, CallStart false [] general en_US None); (quiet, SessionOpened 0);
          (quiet, MicrophoneGranted)] initial).

(** Sample inputs. *)
Definition weatherCall : FunctionCall :=
  {| fc_id := "call-7"; fc_name := "getWeather"; fc_args := [("city", "Paris")] |}.

Definition imageCall : FunctionCall :=
  {| fc_id := "call-1"; fc_name := "generateImage";
     fc_args := [("prompt", "a red kite")] |}.

Definition searchCall : FunctionCall :=
  {| fc_id := "call-2"; fc_name := "googleSearch";
     fc_args := [("query", "tallest tree")] |}.

Definition citedOnly : GenerateContentResponse :=
  {| resp_text := None;
     resp_groundingChunks :=
       Some [Some {| web_uri := Some "https://example.org/a"; web_title := Some "A" |}] |}.

(** [quiet], except that image generation fails. *)
Definition imagesFail : Env :=
  {| API_KEY := API_KEY quiet; YOUTUBE_API_KEY := YOUTUBE_API_KEY quiet;
     now := now quiet; currentTime := currentTime quiet;
     connectThrows := None; closeThrows := None;
     contextCloseRejects := contextCloseRejects quiet;
     generateImages := fun _ => Throws (ErrorObj "quota exceeded");
     generateContent := generateContent quiet; fetch := fetch quiet;
     decodedDuration := decodedDuration quiet |}.

(** [stop], split into what it does to the hook and to the world. *)
Definition stopSources (l : list nat) (w : World) : World :=
  foldl (fun w i => sourceStop i w) w l.

Definition playbackHook (h : Hook) : Hook :=
  match outputAudioContextRef h with
  | Some _ => set_nextStartTimeRef 0%Q (set_audioSourcesRef [] h)
  | None => h
  end.

Definition playbackWorld (h : Hook) (w : World) : World :=
  match outputAudioContextRef h with
  | Some _ => stopSources (audioSourcesRef h) w
  | None => w
  end.

Definition stopHook (h : Hook) : Hook :=
  set_error None (set_status "Ready" (set_isLiveConnected false
    (set_outputAudioContextRef None
       (playbackHook
          (set_inputAudioContextRef None (set_scriptProcessorRef None
             (set_microphoneStreamRef None (set_sessionPromiseRef None h)))))))).

Definition onRef (ref : option nat) (f : nat -> World -> World) (w : World) : World :=
  match ref with
  | Some i => f i w
  | None => w
  end.

Definition stopWorld (env : Env) (h : Hook) (w : World) : World :=
  onRef (outputAudioContextRef h) (closeContext env)
    (playbackWorld h
       (onRef (inputAudioContextRef h) (closeContext env)
          (onRef (scriptProcessorRef h) disconnect
             (onRef (microphoneStreamRef h) stopTracks
                (onRef (sessionPromiseRef h) (fun n => promiseThen env n DClose) w))))).

(** [c'] has the playback state of [c]: the same playback context,
    scheduling clock, active set and sources. *)
Definition audioFrame (c c' : Config) : Prop :=
  outputAudioContextRef (hook c') = outputAudioContextRef (hook c)
  /\ nextStartTimeRef (hook c') = nextStartTimeRef (hook c)
  /\ audioSourcesRef (hook c') = audioSourcesRef (hook c)
  /\ sources (world c') = sources (world c).

(** [quiet] with the playback clock at [t]. *)
Definition quietAt (t : Q) : Env :=
  {| API_KEY := API_KEY quiet; YOUTUBE_API_KEY := YOUTUBE_API_KEY quiet;
     now := now quiet; currentTime := t;
     connectThrows := None; closeThrows := None;
     contextCloseRejects := contextCloseRejects quiet;
     generateImages := generateImages quiet;
     generateContent := generateContent quiet; fetch := fetch quiet;
     decodedDuration := decodedDuration quiet |}.

(** A message with an audio fragment, and an interruption marker. *)
Definition fragment : LiveServerMessage :=
  {| outputTranscription := None; inputTranscription := None; toolCall := None;
     turnComplete := false; inlineAudio := Some "UklGRg=="; interrupted := false |}.

Definition bargeIn : LiveServerMessage :=
  {| outputTranscription := None; inputTranscription := None; toolCall := None;
     turnComplete := false; inlineAudio := None; interrupted := true |}.

(** Two fragments arrive, the second while the first still plays. *)
Definition twoFragments : list (Env * LiveServerMessage) :=
  [(quietAt 0, fragment); (quietAt (1 # 2), fragment)].

Definition playing : Config := deliver None twoFragments connected.

(** The scenario of C3: [start([], 'general', 'en-US')], the session
    opens, the microphone request is rejected. *)
Definition microphoneDenied (e : Thrown) : list (Env * Event) :=
  [(quiet, CallStart false [] general en_US None); (quiet, SessionOpened 0);
   (quiet, MicrophoneDenied e)].

(** The session invariant: an open session is the one in the slot, and
    a session still connecting is the one in the slot or is already
    marked to be closed as soon as it opens. *)
Definition slotInv (slot : option nat) (ss : list Session) : Prop :=
  forall n s, ss !! n = Some s ->
    match phase s with
    | Open => slot = Some n /\ resolved s = true
    | Connecting => resolved s = false /\ (slot = Some n \/ DClose ∈ thens s)
    | _ => True
    end.

Definition sessionInv (c : Config) : Prop :=
  slotInv (sessionPromiseRef (hook c)) (sessions (world c)).

(** [ss'] is [ss] up to continuations added to pending promises. *)
Definition sessionsGrow (ss ss' : list Session) : Prop :=
  forall n s', ss' !! n = Some s' ->
    exists s, ss !! n = Some s /\ phase s' = phase s /\ resolved s' = resolved s
              /\ forall d, d ∈ thens s -> d ∈ thens s'.

(** [c'] has the connection of [c]: the same flag, the same slot, and
    the same sessions up to continuations. *)
Definition sendFrame (c c' : Config) : Prop :=
  isLiveConnected (hook c') = isLiveConnected (hook c)
  /\ sessionPromiseRef (hook c') = sessionPromiseRef (hook c)
  /\ sessionsGrow (sessions (world c)) (sessions (world c')).

Definition isDClose (d : Deferred) : bool :=
  match d with
  | DClose => true
  | _ => false
  end.

(** A sample trace: a session that is used, stopped and started again. *)
Definition restarted : list (Env * Event) :=
  [(quiet, CallStart false [] general en_US None); (quiet, SessionOpened 0);
   (quiet, MicrophoneGranted); (quiet, CallStart true [] general en_US None);
   (quiet, CallStop); (quiet, CallStart false [] general en_US None);
   (quiet, SessionClosed 0); (quiet, SessionOpened 1)].

(** The configuration at the end of [restarted]. *)
Definition restartedEnd : Config := default initial (run restarted initial).

(** While the status is [Ready] there is no error and no connection. *)
Definition readyClean (c : Config) : Prop :=
  status (hook c) = "Ready" ->
  error (hook c) = None /\ isLiveConnected (hook c) = false.

(** [c'] has the status, the error and the flag of [c]. *)
Definition statusFrame (c c' : Config) : Prop :=
  status (hook c') = status (hook c)
  /\ error (hook c') = error (hook c)
  /\ isLiveConnected (hook c') = isLiveConnected (hook c).

(** ** Notions used by the further properties *)

(** Consecutive frames of the capture node, each in its environment. *)
Fixpoint captureAll (frames : list (Env * Blob)) : Handler :=
  match frames with
  | [] => skip
  | (env, pcmBlob) :: rest => onaudioprocess env pcmBlob ;; captureAll rest
  end%H.

(** The session in the slot is connected and its promise has resolved. *)
Definition slotOpen (c : Config) (n : nat) : Prop :=
  sessionPromiseRef (hook c) = Some n
  /\ exists s, sessions (world c) !! n = Some s /\ resolved s = true /\ phase s = Open.

(** What [c'] has sent and appended since [c]. *)
Definition responsesSince (c c' : Config) : list (nat * ToolResponse) :=
  drop (length (toolResponses (world c))) (toolResponses (world c')).

Definition messagesSince (c c' : Config) : list Message :=
  drop (length (messages (hook c))) (messages (hook c')).

Definition isDefined (r : nat * ToolResponse) : bool :=
  match tr_response (snd r) with
  | Some _ => true
  | None => false
  end.

(** [c'] has the world of [c] but for the console. *)
Definition worldButConsole (c c' : Config) : Prop :=
  sessions (world c') = sessions (world c)
  /\ contexts (world c') = contexts (world c)
  /\ streams (world c') = streams (world c)
  /\ processors (world c') = processors (world c)
  /\ sources (world c') = sources (world c)
  /\ toolResponses (world c') = toolResponses (world c)
  /\ realtimeInputs (world c') = realtimeInputs (world c)
  /\ micPending (world c') = micPending (world c).

(** ** The dispatcher with its suspension points

    Each function call of a batch awaits an external service (lines 269,
    281 and 309), and other handlers may run in the meantime.  What a
    call decides before it is suspended depends on the configuration
    only through [aiRef]; the rest runs when the service has answered,
    on the configuration of that time. *)






(** A response that is not [undefined]. *)
Definition definedResponse (r : option FunctionResponse) : bool :=
  match r with
  | Some _ => true
  | None => false
  end.

(** A message that only carries transcription. *)
Definition transcriptOnly (em : Env * LiveServerMessage) : bool :=
  (isNone (toolCall (snd em)) && negb (turnComplete (snd em))
   && negb (truthy (inlineAudio (snd em))) && negb (interrupted (snd em)))%bool.

(** The deltas a sequence of messages adds to each accumulator: an
    input delta counts only in a message without output transcription. *)
Fixpoint outputDeltas (ms : list (Env * LiveServerMessage)) : string :=
  match ms with
  | [] => EmptyString
  | (_, m) :: rest => default EmptyString (outputTranscription m) +:+ outputDeltas rest
  end.

Fixpoint inputDeltas (ms : list (Env * LiveServerMessage)) : string :=
  match ms with
  | [] => EmptyString
  | (_, m) :: rest =>
      match outputTranscription m with
      | Some _ => inputDeltas rest
      | None => default EmptyString (inputTranscription m) +:+ inputDeltas rest
      end
  end.

(** The turn-completion marker on its own. *)
Definition turnEnd : LiveServerMessage :=
  {| outputTranscription := None; inputTranscription := None; toolCall := None;
     turnComplete := true; inlineAudio := None; interrupted := false |}.

(** The messages of a finished turn, from the two transcripts. *)
Definition turnMessages (env : Env) (img : option MessagePart) (input output : string)
  : list Message :=
  (if String.eqb (trim input) EmptyString then []
   else [{| msg_id := toString (now env); speaker := user;
            parts := match img with
                     | Some p => [p; TextPart (trim input)]
                     | None => [TextPart (trim input)]
                     end |}])
  ++ (if String.eqb (trim output) EmptyString then []
      else [{| msg_id := toString (now env); speaker := model;
               parts := [TextPart (trim output)] |}]).

(** What the system instruction keeps of a history message. *)
Definition spokenText (m : Message) : Speaker * list string :=
  (speaker m, omap isText (parts m)).

(** Hook fields that no part of [onmessage] before the audio touches. *)
Definition refsKept (c c' : Config) : Prop :=
  sessionPromiseRef (hook c') = sessionPromiseRef (hook c)
  /\ outputAudioContextRef (hook c') = outputAudioContextRef (hook c)
  /\ isLiveConnected (hook c') = isLiveConnected (hook c).

(** Each scheduled interval starts where the previous one ends. *)
Fixpoint contiguous (previousEnd : Q) (schedule : list (Q * Q)) : Prop :=
  match schedule with
  | [] => True
  | (startAt, endAt) :: rest => startAt = previousEnd /\ contiguous endAt rest
  end.

(** Fragments that arrive no later than the scheduled end [t], with
    durations that are not negative. *)
Definition arrivesBy (t : Q) (em : Env * LiveServerMessage) : Prop :=
  (currentTime (fst em) <= t)%Q
  /\ (0 <= decodedDuration (fst em) (default EmptyString (inlineAudio (snd em))))%Q.

(** The [ended] events of sources, each with the [turnComplete] its
    listener closed over. *)
Fixpoint endAll (l : list (nat * bool)) : Handler :=
  match l with
  | [] => skip
  | (i, turnDone) :: rest => onended i turnDone ;; endAll rest
  end%H.

(** The request [fetchYouTubeVideos] issues for a query. *)
Definition searchRequest (env : Env) (query : option string) : SearchRequest :=
  {| req_q := default "undefined" query; req_type := "video";
     req_videoEmbeddable := true; req_maxResults := 5;
     req_key := YOUTUBE_API_KEY env |}.

Definition missingKeyError : Thrown :=
  ErrorObj "The YouTube API key is not configured in config.ts. Please add your key to enable video search.".

(** The strings the hook ever sets as status. *)
Definition displayStatuses : list string :=
  ["Ready"; "Connecting..."; "Listening..."; "Thinking..."; "Speaking..."; "Error"].

Definition statusKnown (c : Config) : Prop := status (hook c) ∈ displayStatuses.

(** [c'] has the status of [c] or one of the display strings. *)
Definition statusStep (c c' : Config) : Prop :=
  status (hook c') = status (hook c) \/ statusKnown c'.

(** Every handle the hook holds names an object of the world, and
    sources are active only while there is a playback context. *)
Definition refIn {A} (ref : option nat) (l : list A) : Prop :=
  match ref with
  | Some i => i < length l
  | None => True
  end.

Definition refsValid (c : Config) : Prop :=
  refIn (inputAudioContextRef (hook c)) (contexts (world c))
  /\ refIn (outputAudioContextRef (hook c)) (contexts (world c))
  /\ refIn (microphoneStreamRef (hook c)) (streams (world c))
  /\ refIn (scriptProcessorRef (hook c)) (processors (world c))
  /\ handlesValid c
  /\ (outputAudioContextRef (hook c) = None -> audioSourcesRef (hook c) = []).

(** An environment in which no close operation fails. *)
Definition closesSucceed (env : Env) : Prop :=
  closeThrows env = None /\ forall i, contextCloseRejects env i = None.

Definition closedAt (w : World) (ref : option nat) : Prop :=
  match ref with
  | Some i => exists a, contexts w !! i = Some a /\ closed a = true
  | None => True
  end.

(** [c'] holds the audio handles of [c]. *)
Definition handlesKept (c c' : Config) : Prop :=
  inputAudioContextRef (hook c') = inputAudioContextRef (hook c)
  /\ outputAudioContextRef (hook c') = outputAudioContextRef (hook c)
  /\ microphoneStreamRef (hook c') = microphoneStreamRef (hook c)
  /\ scriptProcessorRef (hook c') = scriptProcessorRef (hook c).

(** [c'] has the devices of [c]: the same contexts, streams and
    processor nodes, under the same handles. *)
Definition devicesKept (c c' : Config) : Prop :=
  handlesKept c c'
  /\ contexts (world c') = contexts (world c)
  /\ streams (world c') = streams (world c)
  /\ processors (world c') = processors (world c).

(** The part of [refsValid] about contexts, stream and processor. *)
Definition devicesValid (c : Config) : Prop :=
  refIn (inputAudioContextRef (hook c)) (contexts (world c))
  /\ refIn (outputAudioContextRef (hook c)) (contexts (world c))
  /\ refIn (microphoneStreamRef (hook c)) (streams (world c))
  /\ refIn (scriptProcessorRef (hook c)) (processors (world c)).

Definition quietWithoutPlayback (c : Config) : Prop :=
  outputAudioContextRef (hook c) = None -> audioSourcesRef (hook c) = [].

(** [getStatusColor] of the chat panel ([src/unnamed/part_000],
    lines 117-125) *)
Definition getStatusColor (status : string) : string :=
  if (String.eqb status "Thinking..." || String.eqb status "Connecting...")%bool
  then "text-yellow-400"
  else if String.eqb status "Listening..." then "text-green-400"
  else if String.eqb status "Speaking..." then "text-blue-400"
  else if String.eqb status "Error" then "text-red-400"
  else "text-gray-400".

(** ** The application ([src/App.tsx])

    The component that uses the hook.  It keeps the conversations, starts
    and stops the live session, and saves the messages of a session when
    the session has ended.

    Modelling conventions.
    - React applies the state updates queued by one handler together,
      renders, and then runs the effects whose dependencies changed:
      a step of the application is a handler followed by [render].
    - A handler reads the state of the render that created it.  The one
      handler with a suspension point, [handleToggleConversation], is
      split there: other events may occur before it resumes, and it
      resumes with the values of its closure.
    - The hook is the one modelled above; its callbacks reach the
      application as events on its configuration.
    - Of the state of [App] only what the handlers read or write is
      kept: the visibility of the history panel and the copies of the
      settings and conversations in [localStorage] are left out. *)

(** A stored conversation.  The save effect builds the updated
    conversation by spreading the one it found, which may be missing:
    [id] and [title] are then absent.  The conversations are kept in a
    [Record<string, Conversation>], here a finite map. *)
Record Conversation := {
  conv_id : option string;
  conv_title : option string;
  conv_messages : list Message }.

(** A run of [handleToggleConversation] suspended at its [await]
    (line 131), with what its closure holds: the history, the settings
    and the file being converted.  A file is represented by the outcome
    of [fileToGenerativePart] on it: the part it resolves to, or the
    value it rejects with. *)
Record PendingToggle := {
  pt_history : list Message;
  pt_topic : Topic;
  pt_language : Language;
  pt_file : Outcome MessagePart }.

(** The state of [App] the handlers below read or write, with the
    configuration of the hook it uses and the suspended runs of
    [handleToggleConversation]. *)
Record App := {
  conversations : gmap string Conversation;
  currentConversationId : option string;
  language : Language;
  topic : Topic;
  attachedFile : option (Outcome MessagePart);
  wasLiveConnectedRef : bool;
  pendingToggles : list PendingToggle;
  zud : Config }.

Definition set_conversations (v : gmap string Conversation) (a : App) : App :=
  {| conversations := v; currentConversationId := currentConversationId a;
     language := language a; topic := topic a; attachedFile := attachedFile a;
     wasLiveConnectedRef := wasLiveConnectedRef a;
     pendingToggles := pendingToggles a; zud := zud a |}.
Definition set_currentConversationId (v : option string) (a : App) : App :=
  {| conversations := conversations a; currentConversationId := v;
     language := language a; topic := topic a; attachedFile := attachedFile a;
     wasLiveConnectedRef := wasLiveConnectedRef a;
     pendingToggles := pendingToggles a; zud := zud a |}.
Definition set_language (v : Language) (a : App) : App :=
  {| conversations := conversations a; currentConversationId := currentConversationId a;
     language := v; topic := topic a; attachedFile := attachedFile a;
     wasLiveConnectedRef := wasLiveConnectedRef a;
     pendingToggles := pendingToggles a; zud := zud a |}.
Definition set_topic (v : Topic) (a : App) : App :=
  {| conversations := conversations a; currentConversationId := currentConversationId a;
     language := language a; topic := v; attachedFile := attachedFile a;
     wasLiveConnectedRef := wasLiveConnectedRef a;
     pendingToggles := pendingToggles a; zud := zud a |}.
Definition set_attachedFile (v : option (Outcome MessagePart)) (a : App) : App :=
  {| conversations := conversations a; currentConversationId := currentConversationId a;
     language := language a; topic := topic a; attachedFile := v;
     wasLiveConnectedRef := wasLiveConnectedRef a;
     pendingToggles := pendingToggles a; zud := zud a |}.
Definition set_wasLiveConnectedRef (v : bool) (a : App) : App :=
  {| conversations := conversations a; currentConversationId := currentConversationId a;
     language := language a; topic := topic a; attachedFile := attachedFile a;
     wasLiveConnectedRef := v; pendingToggles := pendingToggles a; zud := zud a |}.
Definition set_pendingToggles (v : list PendingToggle) (a : App) : App :=
  {| conversations := conversations a; currentConversationId := currentConversationId a;
     language := language a; topic := topic a; attachedFile := attachedFile a;
     wasLiveConnectedRef := wasLiveConnectedRef a; pendingToggles := v; zud := zud a |}.

(** A call of the hook from the application. *)
Definition upd_zud (f : Handler) (a : App) : App :=
  {| conversations := conversations a; currentConversationId := currentConversationId a;
     language := language a; topic := topic a; attachedFile := attachedFile a;
     wasLiveConnectedRef := wasLiveConnectedRef a;
     pendingToggles := pendingToggles a; zud := f (zud a) |}.

(** [m.speaker === 'user'] and [p.type === 'text'] *)
Definition isUser (m : Message) : bool :=
  match speaker m with
  | user => true
  | model => false
  end.

Definition isTextPart (p : MessagePart) : bool :=
  match p with
  | TextPart _ => true
  | _ => false
  end.

(** The title of a conversation saved for the first time (lines 82-86):
    the first 40 code units of the first text of the first user message,
    or of ['Image Query']. *)
Definition firstUserText (firstUserMessage : Message) : string :=
  or_else (find isTextPart (parts firstUserMessage) ≫= isText) "Image Query".

Definition derivedTitle (firstUserMessage : Message) : string :=
  let t := firstUserText firstUserMessage in
  substring 0 40 t +:+ (if 40 <? String.length t then "..." else EmptyString).

(** The updater passed to [setConversations] by the save effect
    (lines 77-95). *)
Definition saveConversation (k : string) (firstUserMessage : Message)
    (sessionMessages : list Message) (prev : gmap string Conversation)
    : gmap string Conversation :=
  let conversationToUpdate := prev !! k in
  let existingMessages := from_option conv_messages [] conversationToUpdate in
  let isNewConversation :=
    bool_decide (conversationToUpdate ≫= conv_title = Some "New Conversation") in
  let newTitle := if isNewConversation then Some (derivedTitle firstUserMessage)
                  else conversationToUpdate ≫= conv_title in
  <[k := {| conv_id := conversationToUpdate ≫= conv_id;
            conv_title := newTitle;
            conv_messages := existingMessages ++ sessionMessages |}]> prev.

(** One run of the effect that saves a conversation when a live session
    has ended (lines 69-100).  The run that finds no user message returns
    before the assignment to [wasLiveConnectedRef]. *)
Definition saveEffect (a : App) : App :=
  let h := hook (zud a) in
  if (wasLiveConnectedRef a && negb (isLiveConnected h)
      && (0 <? length (messages h)) && truthy (currentConversationId a))%bool then
    match currentConversationId a, find isUser (messages h) with
    | Some k, Some firstUserMessage =>
        set_wasLiveConnectedRef (isLiveConnected h)
          (upd_zud clearSessionMessages
             (set_conversations
                (saveConversation k firstUserMessage (messages h) (conversations a)) a))
    | _, _ => upd_zud clearSessionMessages a
    end
  else set_wasLiveConnectedRef (isLiveConnected h) a.

(** The effect runs after a render whose [isLiveConnected],
    [sessionMessages] or [currentConversationId] changed; a run that
    clears the session messages causes one more render and run. *)
Definition render (a : App) : App := saveEffect (saveEffect a).

(** [handleNewChat] (lines 103-115) *)
Definition handleNewChat (env : Env) (a : App) : App :=
  let a1 := if isLiveConnected (hook (zud a)) then upd_zud (stop env) a else a in
  let newId := toString (now env) in
  let newConversation := {| conv_id := Some newId;
                            conv_title := Some "New Conversation";
                            conv_messages := [] |} in
  set_attachedFile None
    (upd_zud clearSessionMessages
       (set_currentConversationId (Some newId)
          (set_conversations (<[newId := newConversation]> (conversations a1)) a1))).

(** [handleSelectConversation] (lines 117-123) *)
Definition handleSelectConversation (env : Env) (id : string) (a : App) : App :=
  let a1 := if isLiveConnected (hook (zud a)) then upd_zud (stop env) a else a in
  set_attachedFile None
    (upd_zud clearSessionMessages (set_currentConversationId (Some id) a1)).

(** [handleToggleConversation] (lines 125-137), up to its [await]: with
    a file attached the run is suspended until the conversion settles.
    [live] is the [isLiveConnected] of the render that created the
    handler, and so is the flag [start] reads. *)
Definition handleToggleConversation (env : Env) (a : App) : App :=
  let live := isLiveConnected (hook (zud a)) in
  if live then upd_zud (stop env) a
  else
    let history :=
      match currentConversationId a with
      | Some k => if truthy (Some k)
                  then from_option conv_messages [] (conversations a !! k)
                  else []
      | None => []
      end in
    match attachedFile a with
    | Some file =>
        set_pendingToggles
          (pendingToggles a ++ [{| pt_history := history; pt_topic := topic a;
                                   pt_language := language a; pt_file := file |}]) a
    | None =>
        upd_zud (start env live history (topic a) (language a) None) a
    end.

(** The rest of a suspended run (lines 132-135), once the conversion has
    settled: a rejection ends the run; otherwise the attachment is
    cleared and [start] is called with what the closure holds, whatever
    happened in between.  The flag in the closure is [false], since the
    run took the [else] branch. *)
Definition resumeToggleConversation (env : Env) (p : PendingToggle) (a : App) : App :=
  match pt_file p with
  | Throws _ => a
  | Returns imagePart =>
      upd_zud (start env false (pt_history p) (pt_topic p) (pt_language p)
                     (Some imagePart))
        (set_attachedFile None a)
  end.

(** [handleDeleteConversation] (lines 139-148) *)
Definition handleDeleteConversation (id : string) (a : App) : App :=
  set_currentConversationId
    (if bool_decide (currentConversationId a = Some id) then None
     else currentConversationId a)
    (set_conversations (delete id (conversations a)) a).

(** [handleUpdateConversationTitle] (lines 150-161) *)
Definition handleUpdateConversationTitle (id newTitle : string) (a : App) : App :=
  match conversations a !! id with
  | None => a
  | Some conv =>
      set_conversations
        (<[id := {| conv_id := conv_id conv; conv_title := Some newTitle;
                    conv_messages := conv_messages conv |}]> (conversations a)) a
  end.

(** [handleSaveTitle] of [src/components/HistoryPanel.tsx] (lines 66-72),
    on the conversation and the text being edited. *)
Definition handleSaveTitle (editingConversationId : option string)
    (editingTitle : string) (a : App) : App :=
  match editingConversationId with
  | Some id =>
      if (truthy (Some id) && truthy (Some (trim editingTitle)))%bool
      then handleUpdateConversationTitle id (trim editingTitle) a
      else a
  | None => a
  end.

(** [displayedMessages] (line 163): the stored messages of the current
    conversation followed by those of the session; undefined when the
    current conversation is not stored, where [concat] is called on
    [undefined]. *)
Definition displayedMessages (a : App) : option (list Message) :=
  let sessionMessages := messages (hook (zud a)) in
  match currentConversationId a with
  | Some k =>
      if truthy (Some k)
      then conv ← conversations a !! k; Some (conv_messages conv ++ sessionMessages)
      else Some ([] ++ sessionMessages)
  | None => Some ([] ++ sessionMessages)
  end.

(** The conversations handed to the history panel carry these ids. *)
Definition listed (id : string) (a : App) : bool :=
  bool_decide (Some id ∈ (conv_id <$> (map_to_list (conversations a)).*2)).

(** What happens to the application: the user acts on the panels, or the
    hook receives one of its callbacks. *)
Inductive AppEvent :=
| NewChat
| SelectConversation (id : string)
| ToggleConversation
| FileConverted (i : nat)             (* the conversion of run [i] settles *)
| DeleteConversation (id : string)
| SaveTitle (editingConversationId : option string) (editingTitle : string)
| FileAttach (file : Outcome MessagePart)
| FileClear
| LanguageChange (l : Language)
| TopicChange (t : Topic)
| ToggleMicMute
| Callback (ev : Event).

(** The hook entry points are called by the application only. *)
Definition isCallback (ev : Event) : bool :=
  match ev with
  | CallStart _ _ _ _ _ | CallStop | CallToggleMicMute | CallClearSessionMessages => false
  | _ => true
  end.

(** The handler of an event; [None] when the event cannot occur: the
    history panel lists the stored conversations, and the chat panel
    ([src/unnamed/part_000]) disables the main button without a
    current conversation, the attach button while connected and the mute
    button while not connected. *)
Definition handle (env : Env) (ev : AppEvent) (a : App) : option App :=
  match ev with
  | NewChat => Some (handleNewChat env a)
  | SelectConversation id =>
      if listed id a then Some (handleSelectConversation env id a) else None
  | ToggleConversation =>
      if truthy (currentConversationId a)
      then Some (handleToggleConversation env a) else None
  | FileConverted i =>
      p ← pendingToggles a !! i;
      Some (resumeToggleConversation env p
              (set_pendingToggles (delete i (pendingToggles a)) a))
  | DeleteConversation id =>
      if listed id a then Some (handleDeleteConversation id a) else None
  | SaveTitle id t => Some (handleSaveTitle id t a)
  | FileAttach file =>
      if isLiveConnected (hook (zud a)) then None
      else Some (set_attachedFile (Some file) a)
  | FileClear => Some (set_attachedFile None a)
  | LanguageChange l => Some (set_language l a)
  | TopicChange t => Some (set_topic t a)
  | ToggleMicMute =>
      if isLiveConnected (hook (zud a)) then Some (upd_zud toggleMicMute a)
      else None
  | Callback ev =>
      if isCallback ev
      then c ← step env ev (zud a); Some (upd_zud (fun _ => c) a)
      else None
  end.

(** One event and the render that follows it. *)
Definition appStep (env : Env) (ev : AppEvent) (a : App) : option App :=
  render <$> handle env ev a.

Fixpoint appRun (trace : list (Env * AppEvent)) (a : App) : option App :=
  match trace with
  | [] => Some a
  | (env, ev) :: rest =>
      match appStep env ev a with
      | Some a' => appRun rest a'
      | None => None
      end
  end.

(** The application after its first render and the load of the saved
    conversations (lines 27-36), with the settings found in
    [localStorage] (lines 22-23). *)
Definition initialApp (saved : gmap string Conversation) (l : Language) (t : Topic)
  : App :=
  {| conversations := saved; currentConversationId := None;
     language := l; topic := t; attachedFile := None;
     wasLiveConnectedRef := false; pendingToggles := []; zud := initial |}.

(** A first visit: nothing saved, the default settings. *)
Definition firstVisit : App := initialApp ∅ en_US general.

(** Every stored conversation is stored under its [id] and has a title,
    and the current conversation is a stored one. *)
Definition wellKeyed (s : gmap string Conversation) : Prop :=
  forall k conv, s !! k = Some conv ->
    conv_id conv = Some k /\ is_Some (conv_title conv).

Definition wellFormed (a : App) : Prop :=
  wellKeyed (conversations a)
  /\ forall k, currentConversationId a = Some k -> is_Some (conversations a !! k).

(** ** Sample inputs of the further properties *)

Definition pcm (data : string) : Blob :=
  {| blob_data := data; blob_mimeType := "audio/pcm;rate=16000" |}.

(** A message with an input transcription delta, and one with an output
    delta. *)
Definition heard (t : string) : LiveServerMessage :=
  {| outputTranscription := None; inputTranscription := Some t; toolCall := None;
     turnComplete := false; inlineAudio := None; interrupted := false |}.

Definition said (t : string) : LiveServerMessage :=
  {| outputTranscription := Some t; inputTranscription := None; toolCall := None;
     turnComplete := false; inlineAudio := None; interrupted := false |}.

Definition youtubeCall : FunctionCall :=
  {| fc_id := "call-3"; fc_name := "youtubeSearch";
     fc_args := [("query", "kite tutorial")] |}.

(** [quiet] without the API key, without the YouTube key, and with a
    given reply of the YouTube service. *)
Definition noKey : Env :=
  {| API_KEY := None; YOUTUBE_API_KEY := YOUTUBE_API_KEY quiet;
     now := now quiet; currentTime := currentTime quiet;
     connectThrows := None; closeThrows := None;
     contextCloseRejects := contextCloseRejects quiet;
     generateImages := generateImages quiet;
     generateContent := generateContent quiet; fetch := fetch quiet;
     decodedDuration := decodedDuration quiet |}.

Definition noYouTubeKey : Env :=
  {| API_KEY := API_KEY quiet; YOUTUBE_API_KEY := EmptyString;
     now := now quiet; currentTime := currentTime quiet;
     connectThrows := None; closeThrows := None;
     contextCloseRejects := contextCloseRejects quiet;
     generateImages := generateImages quiet;
     generateContent := generateContent quiet; fetch := fetch quiet;
     decodedDuration := decodedDuration quiet |}.

Definition youTubeReplies (reply : FetchReply) : Env :=
  {| API_KEY := API_KEY quiet; YOUTUBE_API_KEY := YOUTUBE_API_KEY quiet;
     now := now quiet; currentTime := currentTime quiet;
     connectThrows := None; closeThrows := None;
     contextCloseRejects := contextCloseRejects quiet;
     generateImages := generateImages quiet;
     generateContent := generateContent quiet; fetch := fun _ => reply;
     decodedDuration := decodedDuration quiet |}.

Definition kiteVideo : SearchItem :=
  {| item_videoId := "v1"; item_title := "Kites"; item_channelTitle := "Wind";
     item_description := "How to fly a kite" |}.

(** A conversation in the application: a new chat, the main button, the
    session opens, the user says hello and the turn completes. *)
Definition chat : list (Env * AppEvent) :=
  [(quiet, NewChat); (quiet, ToggleConversation);
   (quiet, Callback (SessionOpened 0)); (quiet, Callback MicrophoneGranted);
   (quiet, Callback (SessionMessage 0 (heard "hello")));
   (quiet, Callback (SessionMessage 0 turnEnd))].

Definition talking : App := default firstVisit (appRun chat firstVisit).

(** The same with only the model speaking. *)
Definition monologue : list (Env * AppEvent) :=
  [(quiet, NewChat); (quiet, ToggleConversation);
   (quiet, Callback (SessionOpened 0)); (quiet, Callback MicrophoneGranted);
   (quiet, Callback (SessionMessage 0 (said "welcome")));
   (quiet, Callback (SessionMessage 0 turnEnd))].

Definition listening : App :=
  default firstVisit (appRun monologue firstVisit).

(** The state in which the hook has stopped and the render has not
    happened yet. *)
Definition hungUp (a : App) : App := upd_zud (stop quiet) a.

Definition newConversation : Conversation :=
  {| conv_id := Some "1000"; conv_title := Some "New Conversation";
     conv_messages := [] |}.

Definition hello : Message :=
  {| msg_id := "1000"; speaker := user; parts := [TextPart "hello"] |}.

(** The main button pressed after a new chat: the session is connecting.
    Then pressed again before the session opens; both sessions open. *)
Definition pressedOnce : list (Env * AppEvent) :=
  [(quiet, NewChat); (quiet, ToggleConversation)].

Definition connecting : App := default firstVisit (appRun pressedOnce firstVisit).

Definition pressedTwice : list (Env * AppEvent) :=
  pressedOnce ++ [(quiet, ToggleConversation);
                  (quiet, Callback (SessionOpened 0));
                  (quiet, Callback (SessionOpened 1))].

(** The session created by the first press. *)
Definition firstSession : Session :=
  {| phase := Connecting; resolved := false;
     systemInstruction := buildSystemInstruction [] general en_US;
     imagePart := None; thens := [] |}.

(** The main button pressed with a file attached, twice; the first
    conversion settles and its session opens; then the second settles. *)
Definition staleStart : list (Env * AppEvent) :=
  [(quiet, NewChat);
   (quiet, FileAttach (Returns (ImagePart "data:image/png;base64,AA" None)));
   (quiet, ToggleConversation); (quiet, ToggleConversation);
   (quiet, FileConverted 0); (quiet, Callback (SessionOpened 0));
   (quiet, FileConverted 0); (quiet, Callback (SessionOpened 1))].

(** * Properties *)

(** ** Handlers that leave the messages alone, or only append *)

Lemma hook_whenSome_world {A} (read : Hook -> option A) (f : A -> World -> World) c :
  hook (whenSome read (fun a => upd_world (f a)) c) = hook c.
Proof. unfold whenSome. by destruct (read (hook c)). Qed.

Lemma hook_onSession env d c : hook (onSession env d c) = hook c.
Proof. apply hook_whenSome_world. Qed.

Lemma extends_refl c : extends c c.
Proof. exists []. by rewrite app_nil_r. Qed.

Lemma extends_same c c' : messages (hook c') = messages (hook c) -> extends c c'.
Proof. intros H. exists []. by rewrite app_nil_r. Qed.

Lemma extends_trans c1 c2 c3 : extends c1 c2 -> extends c2 c3 -> extends c1 c3.
Proof.
  intros (l1 & H1 & F1) (l2 & H2 & F2). exists (l1 ++ l2). split.
  - by rewrite H2, H1, app_assoc.
  - by apply Forall_app.
Qed.

Lemma extends_seq (f g : Handler) c :
  extends c (f c) -> (forall c1, extends c1 (g c1)) -> extends c (seq f g c).
Proof. intros Hf Hg. eapply extends_trans; [exact Hf | apply Hg]. Qed.

Lemma extends_addMessage m c : nonEmptyParts m = true -> extends c (addMessage m c).
Proof. intros H. exists [m]. split; [reflexivity | by constructor]. Qed.

Lemma messages_stopEach l c : messages (hook (stopEach l c)) = messages (hook c).
Proof.
  revert c. induction l as [|i l IH]; intros c; [reflexivity|].
  simpl. unfold seq. by rewrite IH.
Qed.

Lemma messages_stopAudioPlayback c :
  messages (hook (stopAudioPlayback c)) = messages (hook c).
Proof.
  unfold stopAudioPlayback, whenSome.
  destruct (outputAudioContextRef (hook c)); [|reflexivity].
  unfold seq. simpl. apply messages_stopEach.
Qed.

Lemma messages_stop env c : messages (hook (stop env c)) = messages (hook c).
Proof.
  unfold stop, seq.
  repeat (cbn -[whenSome stopAudioPlayback onSession];
          rewrite ?hook_whenSome_world, ?messages_stopAudioPlayback, ?hook_onSession).
  reflexivity.
Qed.

Lemma googleSearchReply_nonEmpty env r :
  nonEmptyParts (fst (googleSearchReply env r)) = true.
Proof.
  unfold googleSearchReply.
  destruct (truthy (option_map trim (resp_text r))) eqn:Ht; simpl.
  - reflexivity.
  - destruct (Nat.eqb (length (citations r)) 0) eqn:Hs; reflexivity.
Qed.

Lemma extends_tryCall env fc c : extends c (fst (tryCall env fc c)).
Proof.
  unfold tryCall.
  repeat case_match; simpl; try apply extends_refl;
    try (apply extends_addMessage; reflexivity).
  - apply extends_addMessage.
    match goal with
    | H : googleSearchReply ?e ?r = _ |- _ =>
        pose proof (googleSearchReply_nonEmpty e r) as Hn; rewrite H in Hn; exact Hn
    end.
  - by apply extends_same.
Qed.

Lemma extends_handleCall env fc c : extends c (handleCall env fc c).
Proof.
  unfold handleCall. pose proof (extends_tryCall env fc c) as Ht.
  destruct (tryCall env fc c) as [c1 [fr|e]]; simpl in Ht.
  - eapply extends_trans; [exact Ht|]. apply extends_same. by rewrite hook_onSession.
  - eapply extends_trans; [exact Ht|].
    eapply extends_trans; [|apply extends_same; by rewrite hook_onSession].
    unfold toolFailed, seq.
    eapply extends_trans; [|by apply extends_addMessage]. by apply extends_same.
Qed.

Lemma extends_handleCalls env calls c : extends c (handleCalls env calls c).
Proof.
  revert c. induction calls as [|fc calls IH]; intros c; [apply extends_refl|].
  simpl. apply extends_seq; [apply extends_handleCall | exact IH].
Qed.

Lemma extends_onToolCall env m c : extends c (onToolCall env m c).
Proof.
  unfold onToolCall. destruct (toolCall m); [|apply extends_refl].
  unfold seq. eapply extends_trans; [|apply extends_handleCalls].
  by apply extends_addMessage.
Qed.

Lemma extends_flushInput env img c : extends c (flushInput env img c).
Proof.
  unfold flushInput. case_match; [|apply extends_refl].
  apply extends_addMessage. by destruct img.
Qed.

Lemma extends_flushOutput env c : extends c (flushOutput env c).
Proof.
  unfold flushOutput. case_match; [|apply extends_refl]. by apply extends_addMessage.
Qed.

Lemma extends_onTurnComplete env img m c : extends c (onTurnComplete env img m c).
Proof.
  unfold onTurnComplete. destruct (turnComplete m); [|apply extends_refl].
  apply extends_seq; [apply extends_flushInput|]. intros c1.
  apply extends_seq; [apply extends_flushOutput|]. intros c2.
  by apply extends_same.
Qed.

Lemma messages_onAudio env m c : messages (hook (onAudio env m c)) = messages (hook c).
Proof. unfold onAudio. repeat case_match; reflexivity. Qed.

Lemma messages_accumulate m c : messages (hook (accumulate m c)) = messages (hook c).
Proof. unfold accumulate. repeat case_match; reflexivity. Qed.

Lemma extends_interruption m c :
  extends c ((if interrupted m then stopAudioPlayback else skip) c).
Proof.
  destruct (interrupted m); [apply extends_same, messages_stopAudioPlayback|].
  apply extends_refl.
Qed.

Lemma extends_beforeInterrupted env img m c : extends c (beforeInterrupted env img m c).
Proof.
  unfold beforeInterrupted.
  apply extends_seq; [apply extends_same, messages_accumulate|]. intros c1.
  apply extends_seq; [apply extends_onToolCall|]. intros c2.
  apply extends_seq; [apply extends_onTurnComplete|]. intros c3.
  apply extends_same, messages_onAudio.
Qed.

Lemma extends_onmessage env img m c : extends c (onmessage env img m c).
Proof.
  unfold onmessage. apply extends_seq; [apply extends_beforeInterrupted|].
  intros c1. apply extends_interruption.
Qed.

Lemma extends_freshOk c c' : extends c c' -> freshOk c c'.
Proof.
  intros (l & H & F) m Hm. rewrite H in Hm.
  apply elem_of_app in Hm as [Hm|Hm]; [by left|right].
  rewrite Forall_forall in F. by apply F.
Qed.

Lemma same_freshOk c c' : messages (hook c') = messages (hook c) -> freshOk c c'.
Proof. intros H. apply extends_freshOk, extends_same, H. Qed.

Lemma start_freshOk env live history t l img c :
  freshOk c (start env live history t l img c).
Proof.
  unfold start. destruct live; [by apply same_freshOk|].
  intros m. unfold seq, startAttempt, startFailed, seq.
  destruct (truthy (API_KEY env)); simpl; [|by intros ?%elem_of_nil].
  destruct img as [p|], (connectThrows env); simpl;
    try (by intros ?%elem_of_nil); intros ->%list_elem_of_singleton; by right.
Qed.

Lemma step_freshOk env ev c c' : step env ev c = Some c' -> freshOk c c'.
Proof.
  intros Hstep.
  destruct ev; simpl in Hstep; repeat case_match; simplify_eq.
  all: try (apply same_freshOk; reflexivity).
  all: try (apply start_freshOk).
  all: try (apply same_freshOk; unfold seq, onopenDenied, onerror, onclose, seq;
            rewrite messages_stop; reflexivity).
  all: try (apply same_freshOk; unfold onaudioprocess; case_match;
            rewrite ?hook_onSession; reflexivity).
  all: try (apply same_freshOk; unfold onended, seq; case_match; reflexivity).
  all: try (apply extends_freshOk, extends_onmessage).
  intros m Hm. by apply elem_of_nil in Hm.
Qed.

Lemma nonEmptyParts_spec m : nonEmptyParts m = true <-> parts m <> [].
Proof. unfold nonEmptyParts. destruct (parts m); split; congruence. Qed.

(** C4: whatever the event (a call of [start] with a leading image, a
    tool-call batch with its handoff notice, results and errors, a turn
    completion, or any other), every message that is in the list after
    the event and was not in it before has a non-empty [parts]. *)
Theorem appended_messages_have_parts env ev c c' :
  step env ev c = Some c' ->
  forall m, m ∈ messages (hook c') -> m ∈ messages (hook c) \/ parts m <> [].
Proof.
  intros Hstep m Hm. destruct (step_freshOk _ _ _ _ Hstep m Hm) as [H|H]; [by left|].
  right. by apply nonEmptyParts_spec.
Qed.

Lemma appended_messages_have_parts_witness :
  let c' := start quiet false [] general en_US
              (Some (ImagePart "data:image/png;base64,AA" None)) initial in
  step quiet (CallStart false [] general en_US
                (Some (ImagePart "data:image/png;base64,AA" None)))
       initial = Some c'
  /\ forall m, m ∈ messages (hook c') -> m ∈ messages (hook initial) \/ parts m <> [].
Proof.
  split; [reflexivity|].
  apply (appended_messages_have_parts quiet
           (CallStart false [] general en_US
              (Some (ImagePart "data:image/png;base64,AA" None)))
           initial).
  reflexivity.
Defined.

(** Along every trace from the initial configuration the message list
    holds only messages with parts. *)
Lemma reachable_messages_have_parts trace c :
  Forall (fun m => nonEmptyParts m = true) (messages (hook c)) ->
  forall c', run trace c = Some c' ->
  Forall (fun m => nonEmptyParts m = true) (messages (hook c')).
Proof.
  revert c. induction trace as [|[env ev] trace IH]; intros c Hc c' Hrun; simpl in Hrun.
  - by simplify_eq.
  - destruct (step env ev c) as [c1|] eqn:Hstep; [|done].
    apply (IH c1); [|exact Hrun].
    apply Forall_forall. intros m Hm.
    destruct (step_freshOk _ _ _ _ Hstep m Hm) as [H|H]; [|exact H].
    rewrite Forall_forall in Hc. by apply Hc.
Qed.

(** C10: whatever the calls of a tool-call batch and their outcomes, the
    notice "Let me check with my partner AI for better assistance...",
    a message of the model with the id [handoff-] followed by the time,
    is appended before the first call is processed; the message list
    after the batch is the old list, the notice, and what the rest of
    the handler appended, so it has grown by at least one message. *)
Theorem tool_batch_appends_handoff_first env img m calls c :
  toolCall m = Some calls ->
  let notice := {| msg_id := "handoff-" +:+ toString (now env); speaker := model;
                   parts := [TextPart "Let me check with my partner AI for better assistance..."] |} in
  onToolCall env m c
  = handleCalls env calls (setStatus "Thinking..." (addMessage notice c))
  /\ messages (hook (setStatus "Thinking..." (addMessage notice c)))
     = messages (hook c) ++ [notice]
  /\ (exists rest, messages (hook (onmessage env img m c))
                   = messages (hook c) ++ notice :: rest)
  /\ length (messages (hook c)) < length (messages (hook (onmessage env img m c))).
Proof.
  intros Hcalls notice.
  assert (exists rest, messages (hook (onmessage env img m c))
                       = messages (hook c) ++ notice :: rest) as [rest Hrest].
  { unfold onmessage, beforeInterrupted, seq.
    set (c0 := accumulate m c).
    assert (messages (hook c0) = messages (hook c)) as H0 by apply messages_accumulate.
    assert (extends (addMessage notice c0) (onToolCall env m c0)) as H1.
    { unfold onToolCall. rewrite Hcalls. unfold seq.
      eapply extends_trans; [|apply extends_handleCalls]. by apply extends_same. }
    set (c1 := onToolCall env m c0) in *.
    pose proof (extends_onTurnComplete env img m c1) as H2.
    set (c2 := onTurnComplete env img m c1) in *.
    pose proof (extends_same c2 (onAudio env m c2) (messages_onAudio env m c2)) as H3.
    pose proof (extends_interruption m (onAudio env m c2)) as H4.
    destruct (extends_trans _ _ _ H1 (extends_trans _ _ _ H2 (extends_trans _ _ _ H3 H4)))
      as (rest & Hrest & _).
    exists rest. rewrite Hrest. simpl. rewrite H0. by rewrite <- app_assoc. }
  split; [|split; [reflexivity|split]].
  - unfold onToolCall. by rewrite Hcalls.
  - by exists rest.
  - rewrite Hrest, length_app. simpl. lia.
Qed.

Lemma tool_batch_appends_handoff_first_witness :
  let m := toolCallFrame [weatherCall; imageCall] in
  let c' := onmessage quiet None m connected in
  (toolCall m = Some [weatherCall; imageCall]
   /\ isLiveConnected (hook connected) = true
   /\ messages (hook connected) = [])
  /\ messages (hook c')
     = [{| msg_id := "handoff-1000"; speaker := model;
           parts := [TextPart "Let me check with my partner AI for better assistance..."] |};
        {| msg_id := "1000"; speaker := model;
           parts := [ImagePart "data:image/jpeg;base64,AAAA" (Some "a red kite")] |}]
  /\ (exists rest,
        messages (hook c')
        = messages (hook connected)
          ++ {| msg_id := "handoff-1000"; speaker := model;
                parts := [TextPart "Let me check with my partner AI for better assistance..."] |}
             :: rest)
  /\ length (messages (hook connected)) < length (messages (hook c')).
Proof.
  assert (toString (now quiet) = "1000") as Hnow by (vm_compute; reflexivity).
  destruct (tool_batch_appends_handoff_first quiet None
              (toolCallFrame [weatherCall; imageCall]) [weatherCall; imageCall]
              connected eq_refl) as (_ & _ & H3 & H4).
  rewrite Hnow in H3.
  split; [repeat split; vm_compute; reflexivity|].
  split; [vm_compute; reflexivity|].
  split; [exact H3 | exact H4].
Defined.

(** ** [stop] *)

Lemma set_audioSourcesRef_id h : set_audioSourcesRef (audioSourcesRef h) h = h.
Proof. by destruct h. Qed.

Lemma filter_all {A} (P : A -> Prop) `{forall x, Decision (P x)} (l : list A) :
  (forall x, x ∈ l -> P x) -> filter P l = l.
Proof.
  induction l as [|x l IH]; intros Hall; [reflexivity|].
  rewrite filter_cons_True by (apply Hall; left). f_equal. apply IH.
  intros y Hy. apply Hall. by right.
Qed.

Lemma filter_none {A} (P : A -> Prop) `{forall x, Decision (P x)} (l : list A) :
  (forall x, x ∈ l -> ~ P x) -> filter P l = [].
Proof.
  induction l as [|x l IH]; intros Hall; [reflexivity|].
  rewrite filter_cons_False by (apply Hall; left). apply IH.
  intros y Hy. apply Hall. by right.
Qed.

Lemma stopEach_hook l c :
  hook (stopEach l c)
  = set_audioSourcesRef (filter (fun j => j ∉ l) (audioSourcesRef (hook c))) (hook c).
Proof.
  revert c. induction l as [|i l IH]; intros c.
  - simpl. unfold skip. rewrite <- (set_audioSourcesRef_id (hook c)) at 1. f_equal.
    symmetry. apply filter_all. intros. apply not_elem_of_nil.
  - simpl. unfold seq. rewrite IH. simpl. unfold set_audioSourcesRef, deleteSource. simpl.
    f_equal. rewrite list_filter_filter. apply list_filter_iff.
    intros j. rewrite not_elem_of_cons. tauto.
Qed.

Lemma stopEach_world l c : world (stopEach l c) = stopSources l (world c).
Proof.
  revert c. induction l as [|i l IH]; intros c; [reflexivity|].
  simpl. unfold seq. by rewrite IH.
Qed.

Lemma filter_not_self (l : list nat) : filter (fun j => j ∉ l) l = [].
Proof.
  apply filter_none. intros x Hx Hn. done.
Qed.

Lemma stopAudioPlayback_split c :
  stopAudioPlayback c
  = {| hook := playbackHook (hook c); world := playbackWorld (hook c) (world c) |}.
Proof.
  unfold stopAudioPlayback, whenSome, playbackHook, playbackWorld.
  destruct (outputAudioContextRef (hook c)); [|by destruct c].
  unfold seq, upd_hook. simpl. rewrite stopEach_hook, stopEach_world, filter_not_self.
  reflexivity.
Qed.

Lemma whenSome_world_split (read : Hook -> option nat) (f : nat -> World -> World) c :
  whenSome read (fun i => upd_world (f i)) c
  = {| hook := hook c; world := onRef (read (hook c)) f (world c) |}.
Proof. unfold whenSome, onRef. destruct (read (hook c)); [reflexivity | by destruct c]. Qed.

Lemma stop_split env c :
  stop env c = {| hook := stopHook (hook c); world := stopWorld env (hook c) (world c) |}.
Proof.
  unfold stop, seq, onSession.
  rewrite !whenSome_world_split, stopAudioPlayback_split.
  unfold stopHook, stopWorld, playbackWorld, playbackHook, setError, setStatus,
    setIsLiveConnected, upd_hook. simpl.
  destruct (outputAudioContextRef (hook c)) eqn:Ho; simpl; by rewrite ?Ho.
Qed.

Lemma idle_fields c :
  idle c = true ->
  status (hook c) = "Ready" /\ error (hook c) = None /\ isLiveConnected (hook c) = false
  /\ sessionPromiseRef (hook c) = None /\ microphoneStreamRef (hook c) = None
  /\ scriptProcessorRef (hook c) = None /\ inputAudioContextRef (hook c) = None
  /\ outputAudioContextRef (hook c) = None.
Proof.
  unfold idle, isNone. intros H.
  repeat (apply andb_prop in H as [H ?]). apply String.eqb_eq in H.
  destruct (error (hook c)), (isLiveConnected (hook c)), (sessionPromiseRef (hook c)),
    (microphoneStreamRef (hook c)), (scriptProcessorRef (hook c)),
    (inputAudioContextRef (hook c)), (outputAudioContextRef (hook c)); try discriminate.
  by repeat split.
Qed.

Lemma stop_idle env c : idle c = true -> stop env c = c.
Proof.
  intros (H1 & H2 & H3 & H4 & H5 & H6 & H7 & H8)%idle_fields.
  rewrite stop_split. destruct c as [h w], h. simpl in *. subst.
  reflexivity.
Qed.

Lemma idle_stop env c : idle (stop env c) = true.
Proof.
  rewrite stop_split. unfold idle, stopHook, playbackHook. simpl.
  by destruct (outputAudioContextRef (hook c)).
Qed.

Lemma console_stopSources l w : console (stopSources l w) = console w.
Proof.
  unfold stopSources. revert w. induction l as [|i l IH]; intros w; [reflexivity|].
  simpl. rewrite IH. unfold sourceStop. by case_match.
Qed.

Lemma contexts_stopSources l w : contexts (stopSources l w) = contexts w.
Proof.
  unfold stopSources. revert w. induction l as [|i l IH]; intros w; [reflexivity|].
  simpl. rewrite IH. unfold sourceStop. by case_match.
Qed.

Lemma console_promiseThen_close env n w :
  console (promiseThen env n DClose w) = console w ++ closeError env w (Some n).
Proof.
  unfold promiseThen, runDeferred, closeError.
  destruct (sessions w !! n) as [s|]; [|by rewrite app_nil_r].
  destruct (resolved s), (closeThrows env); simpl; rewrite ?app_nil_r; try reflexivity.
  by destruct (phase s).
Qed.

Lemma contexts_promiseThen env n d w : contexts (promiseThen env n d w) = contexts w.
Proof.
  unfold promiseThen, runDeferred.
  destruct (sessions w !! n) as [s|]; [|reflexivity].
  destruct (resolved s); [|reflexivity].
  destruct d; repeat case_match; reflexivity.
Qed.

Lemma console_closeContext env i w :
  console (closeContext env i w) = console w ++ contextError env w (Some i).
Proof.
  unfold closeContext, contextError.
  destruct (contexts w !! i) as [a|]; [|by rewrite app_nil_r].
  destruct (closed a), (contextCloseRejects env i); simpl; by rewrite ?app_nil_r.
Qed.

Lemma contextError_closeContext env i w ref :
  contextError env (closeContext env i w) ref = contextError env w ref.
Proof.
  destruct ref as [o|]; [|reflexivity]. unfold closeContext, contextError.
  destruct (contexts w !! i) as [a|] eqn:Hi; [|reflexivity].
  destruct (closed a) eqn:Hc; [reflexivity|].
  destruct (contextCloseRejects env i) eqn:Hr; [reflexivity|]. simpl.
  destruct (decide (o = i)) as [->|Hne].
  - rewrite list_lookup_insert_eq by (by eapply lookup_lt_Some). by rewrite Hi, Hr.
  - by rewrite list_lookup_insert_ne.
Qed.

Lemma contextError_same env w w' ref :
  contexts w' = contexts w -> contextError env w' ref = contextError env w ref.
Proof. intros H. unfold contextError. by rewrite H. Qed.

Lemma console_playbackWorld h w : console (playbackWorld h w) = console w.
Proof. unfold playbackWorld. case_match; [apply console_stopSources | reflexivity]. Qed.

Lemma contexts_playbackWorld h w : contexts (playbackWorld h w) = contexts w.
Proof. unfold playbackWorld. case_match; [apply contexts_stopSources | reflexivity]. Qed.

Lemma console_stop env c :
  console (world (stop env c)) = console (world c) ++ raisedByStop env c.
Proof.
  rewrite stop_split. unfold stopWorld, raisedByStop. destruct c as [h w]. simpl.
  set (w1 := onRef (sessionPromiseRef h) (fun n => promiseThen env n DClose) w).
  assert (console w1 = console w ++ closeError env w (sessionPromiseRef h)
          /\ contexts w1 = contexts w) as [Hc1 Hx1].
  { subst w1. destruct (sessionPromiseRef h); simpl.
    - split; [apply console_promiseThen_close | apply contexts_promiseThen].
    - by rewrite app_nil_r. }
  set (w2 := onRef (scriptProcessorRef h) disconnect
               (onRef (microphoneStreamRef h) stopTracks w1)).
  assert (console w2 = console w1 /\ contexts w2 = contexts w1) as [Hc2 Hx2].
  { subst w2. by destruct (scriptProcessorRef h), (microphoneStreamRef h). }
  set (w3 := onRef (inputAudioContextRef h) (closeContext env) w2).
  assert (console w3 = console w2 ++ contextError env w (inputAudioContextRef h)
          /\ forall ref, contextError env w3 ref = contextError env w ref) as [Hc3 Hx3].
  { assert (forall ref, contextError env w2 ref = contextError env w ref) as Hsame.
    { intros ref. apply contextError_same. congruence. }
    subst w3. destruct (inputAudioContextRef h) as [i|]; simpl.
    - split; [by rewrite console_closeContext, Hsame|].
      intros ref. by rewrite contextError_closeContext.
    - by rewrite app_nil_r. }
  set (w4 := playbackWorld h w3).
  assert (console w4 = console w3
          /\ forall ref, contextError env w4 ref = contextError env w ref) as [Hc4 Hx4].
  { subst w4. split; [apply console_playbackWorld|].
    intros ref. rewrite <- Hx3. apply contextError_same, contexts_playbackWorld. }
  destruct (outputAudioContextRef h) as [o|]; simpl.
  - rewrite console_closeContext, Hx4, Hc4, Hc3, Hc2, Hc1. by rewrite <- !app_assoc.
  - rewrite Hc4, Hc3, Hc2, Hc1, app_nil_r. by rewrite <- !app_assoc.
Qed.

(** C2: [stop] on an idle hook changes nothing, neither in the hook nor
    in the world.  From any configuration [stop] ends idle, so a second
    [stop] changes nothing either; and every error raised by closing the
    session or an audio context ends in the console log: [stop] is a
    total function of the configuration, no error leaves it. *)
Theorem stop_idempotent env c :
  (idle c = true -> stop env c = c)
  /\ idle (stop env c) = true
  /\ (forall env', stop env' (stop env c) = stop env c)
  /\ console (world (stop env c)) = console (world c) ++ raisedByStop env c.
Proof.
  split; [apply stop_idle|]. split; [apply idle_stop|].
  split; [intros env'; apply stop_idle, idle_stop | apply console_stop].
Qed.

Lemma stop_idempotent_witness : idle initial = true /\ stop quiet initial = initial.
Proof.
  split; [reflexivity|].
  apply (proj1 (stop_idempotent quiet initial)). reflexivity.
Defined.

Lemma readyClean_frame c c' : statusFrame c c' -> readyClean c -> readyClean c'.
Proof. unfold readyClean. intros (-> & -> & ->). done. Qed.

Lemma readyClean_busy c : status (hook c) <> "Ready" -> readyClean c.
Proof. unfold readyClean. done. Qed.

Lemma readyClean_stop env c : readyClean (stop env c).
Proof.
  intros _. pose proof (idle_fields _ (idle_stop env c)) as (_ & He & Hl & _). done.
Qed.

(** The calls of a batch leave status and flag alone. *)
Lemma status_handleCalls env calls c :
  status (hook (handleCalls env calls c)) = status (hook c)
  /\ isLiveConnected (hook (handleCalls env calls c)) = isLiveConnected (hook c).
Proof.
  revert c. induction calls as [|fc calls IH]; intros c; [done|].
  simpl. unfold seq. destruct (IH (handleCall env fc c)) as [-> ->].
  unfold handleCall.
  assert (status (hook (fst (tryCall env fc c))) = status (hook c)
          /\ isLiveConnected (hook (fst (tryCall env fc c))) = isLiveConnected (hook c))
    as Ht by (unfold tryCall; repeat case_match; done).
  destruct (tryCall env fc c) as [c1 [fr|e]]; simpl in Ht; rewrite hook_onSession; done.
Qed.

Lemma statusFrame_stopAudioPlayback c : statusFrame c (stopAudioPlayback c).
Proof.
  rewrite stopAudioPlayback_split. unfold statusFrame, playbackHook. simpl.
  by case_match.
Qed.

Lemma readyClean_afterContent env img m c :
  readyClean (onTurnComplete env img m (onToolCall env m (accumulate m c))) ->
  readyClean (onmessage env img m c).
Proof.
  intros H. unfold onmessage, beforeInterrupted, seq.
  set (c0 := onTurnComplete env img m (onToolCall env m (accumulate m c))) in *.
  assert (readyClean (onAudio env m c0)) as Ha.
  { unfold onAudio. repeat case_match; try exact H. by apply readyClean_busy. }
  destruct (interrupted m); [|exact Ha].
  eapply readyClean_frame; [apply statusFrame_stopAudioPlayback | exact Ha].
Qed.

Lemma readyClean_onmessage env img m c : readyClean c -> readyClean (onmessage env img m c).
Proof.
  intros Hc. apply readyClean_afterContent.
  assert (statusFrame c (accumulate m c)) as H0
    by (unfold accumulate; repeat case_match; done).
  unfold onTurnComplete. destruct (turnComplete m).
  - by apply readyClean_busy.
  - unfold skip, onToolCall. destruct (toolCall m) as [calls|].
    + apply readyClean_busy. unfold seq.
      destruct (status_handleCalls env calls
                  (setStatus "Thinking..." (addMessage (handoffMessage env)
                                                       (accumulate m c)))) as [-> _].
      done.
    + unfold skip. by eapply readyClean_frame.
Qed.

Lemma step_readyClean env ev c c' : step env ev c = Some c' -> readyClean c -> readyClean c'.
Proof.
  intros Hstep Hc. destruct ev; simpl in Hstep.
  - simplify_eq. unfold start. destruct liveAtRender; [exact Hc|].
    apply readyClean_busy. unfold seq, startAttempt, startFailed, seq.
    destruct (truthy (API_KEY env)); [|done]. by destruct img, (connectThrows env).
  - simplify_eq. apply readyClean_stop.
  - simplify_eq. exact Hc.
  - simplify_eq. exact Hc.
  - destruct (sessions (world c) !! n) as [s|]; [|done].
    destruct (phase s); simplify_eq. by apply readyClean_busy.
  - destruct (micPending (world c)); simplify_eq. exact Hc.
  - destruct (micPending (world c)); simplify_eq. apply readyClean_stop.
  - destruct (sessions (world c) !! n) as [s|]; [|done].
    destruct (phase s); simplify_eq; by apply readyClean_onmessage.
  - destruct (sessions (world c) !! n) as [s|]; [|done].
    destruct (phase s); simplify_eq; apply readyClean_stop.
  - destruct (sessions (world c) !! n) as [s|]; [|done].
    destruct (phase s); simplify_eq; apply readyClean_stop.
  - destruct (processors (world c) !! p) as [[|]|]; simplify_eq.
    unfold onaudioprocess. destruct (isMicMuted (hook c)); [exact Hc|].
    eapply readyClean_frame; [|exact Hc]. unfold statusFrame. by rewrite hook_onSession.
  - destruct (sources (world c) !! i); simplify_eq.
    unfold onended, seq. case_match; [by apply readyClean_busy | exact Hc].
Qed.

(** In every configuration reached from the initial one, status [Ready]
    comes with no error and no connection: there the hook is idle as
    soon as it is [Ready] and holds no session and no audio resource. *)
Lemma run_readyClean trace c : run trace initial = Some c -> readyClean c.
Proof.
  assert (forall c0, readyClean c0 -> run trace c0 = Some c -> readyClean c) as H.
  { induction trace as [|[env ev] trace IH]; intros c0 Hc Hrun; simpl in Hrun.
    - by simplify_eq.
    - destruct (step env ev c0) as [c1|] eqn:Hstep; [|done].
      apply (IH c1); [by eapply step_readyClean | exact Hrun]. }
  apply H. done.
Qed.

(** The [catch] of [onopen] sets the error and then calls [stop], which
    clears it: whatever the configuration, the hook ends idle. *)
Lemma onopenDenied_idle env e c : idle (onopenDenied env e c) = true.
Proof. unfold onopenDenied, seq. apply idle_stop. Qed.

(** C3, evaluated: after [start([], 'general', 'en-US')], a successful
    open and a rejected microphone request the hook is disconnected and
    holds no stream and no context, every context is closed and no
    session is connected; but the status is [Ready] and the error is
    null: the message set by the [catch] is cleared by the [stop] it
    calls. *)
Theorem microphone_denied_clears_error e :
  exists c,
    run (microphoneDenied e) initial = Some c
    /\ isLiveConnected (hook c) = false
    /\ status (hook c) = "Ready"
    /\ error (hook c) = None
    /\ microphoneStreamRef (hook c) = None
    /\ inputAudioContextRef (hook c) = None
    /\ outputAudioContextRef (hook c) = None
    /\ contexts (world c) = [{| sampleRate := 24000; closed := true |}]
    /\ streams (world c) = []
    /\ connectedSessions (world c) = 0.
Proof. eexists. split; [reflexivity|]. by vm_compute. Qed.

(** ** Handlers that leave the connection alone *)

Lemma sessionsGrow_refl ss : sessionsGrow ss ss.
Proof. intros n s Hs. exists s. by repeat split. Qed.

Lemma sessionsGrow_trans ss1 ss2 ss3 :
  sessionsGrow ss1 ss2 -> sessionsGrow ss2 ss3 -> sessionsGrow ss1 ss3.
Proof.
  intros H12 H23 n s3 Hs3.
  destruct (H23 n s3 Hs3) as (s2 & Hs2 & Hp2 & Hr2 & Ht2).
  destruct (H12 n s2 Hs2) as (s1 & Hs1 & Hp1 & Hr1 & Ht1).
  exists s1. repeat split; try congruence. auto.
Qed.

Lemma sendFrame_refl c : sendFrame c c.
Proof. split; [reflexivity|]. split; [reflexivity | apply sessionsGrow_refl]. Qed.

Lemma sendFrame_trans c1 c2 c3 : sendFrame c1 c2 -> sendFrame c2 c3 -> sendFrame c1 c3.
Proof.
  intros (L1 & H1 & G1) (L2 & H2 & G2).
  split; [congruence|]. split; [congruence | by eapply sessionsGrow_trans].
Qed.

Lemma sendFrame_seq (f g : Handler) c :
  sendFrame c (f c) -> (forall c1, sendFrame c1 (g c1)) -> sendFrame c (seq f g c).
Proof. intros Hf Hg. eapply sendFrame_trans; [exact Hf | apply Hg]. Qed.

Lemma sendFrame_same c c' :
  isLiveConnected (hook c') = isLiveConnected (hook c) ->
  sessionPromiseRef (hook c') = sessionPromiseRef (hook c) ->
  sessions (world c') = sessions (world c) -> sendFrame c c'.
Proof.
  intros H0 H1 H2. split; [done|]. split; [done|]. rewrite H2. apply sessionsGrow_refl.
Qed.

Lemma sessionsGrow_send env n d w :
  isDClose d = false -> sessionsGrow (sessions w) (sessions (promiseThen env n d w)).
Proof.
  intros Hd. unfold promiseThen.
  destruct (sessions w !! n) as [s|] eqn:Hn; [|apply sessionsGrow_refl].
  destruct (resolved s).
  - unfold runDeferred. rewrite Hn. destruct d; try discriminate;
      destruct (phase s); apply sessionsGrow_refl.
  - simpl. intros m s' Hm. destruct (decide (m = n)) as [->|Hne].
    + rewrite list_lookup_insert_eq in Hm by (by eapply lookup_lt_Some).
      inversion Hm; subst. exists s. repeat split; [done|].
      intros d' Hd'. simpl. apply elem_of_app. by left.
    + rewrite list_lookup_insert_ne in Hm by done. exists s'. by repeat split.
Qed.

Lemma sendFrame_onSession env d c : isDClose d = false -> sendFrame c (onSession env d c).
Proof.
  intros Hd. split; [by rewrite hook_onSession|]. split; [by rewrite hook_onSession|].
  unfold onSession, whenSome. destruct (sessionPromiseRef (hook c)) as [n|].
  - by apply sessionsGrow_send.
  - apply sessionsGrow_refl.
Qed.

Lemma sendFrame_tryCall env fc c : sendFrame c (fst (tryCall env fc c)).
Proof. unfold tryCall. repeat case_match; simpl; by apply sendFrame_same. Qed.

Lemma sendFrame_handleCall env fc c : sendFrame c (handleCall env fc c).
Proof.
  unfold handleCall. pose proof (sendFrame_tryCall env fc c) as Ht.
  destruct (tryCall env fc c) as [c1 [fr|e]]; simpl in Ht.
  - eapply sendFrame_trans; [exact Ht | by apply sendFrame_onSession].
  - eapply sendFrame_trans; [exact Ht|].
    eapply sendFrame_trans; [|by apply sendFrame_onSession]. by apply sendFrame_same.
Qed.

Lemma sendFrame_handleCalls env calls c : sendFrame c (handleCalls env calls c).
Proof.
  revert c. induction calls as [|fc calls IH]; intros c; [apply sendFrame_refl|].
  simpl. apply sendFrame_seq; [apply sendFrame_handleCall | exact IH].
Qed.

Lemma sendFrame_onToolCall env m c : sendFrame c (onToolCall env m c).
Proof.
  unfold onToolCall. destruct (toolCall m); [|apply sendFrame_refl].
  unfold seq. eapply sendFrame_trans; [|apply sendFrame_handleCalls].
  by apply sendFrame_same.
Qed.

Lemma sendFrame_onTurnComplete env img m c : sendFrame c (onTurnComplete env img m c).
Proof.
  unfold onTurnComplete. destruct (turnComplete m); [|apply sendFrame_refl].
  unfold seq, flushInput, flushOutput. repeat case_match; by apply sendFrame_same.
Qed.

Lemma sendFrame_accumulate m c : sendFrame c (accumulate m c).
Proof. unfold accumulate. repeat case_match; by apply sendFrame_same. Qed.

Lemma sendFrame_onAudio env m c : sendFrame c (onAudio env m c).
Proof. unfold onAudio. repeat case_match; by apply sendFrame_same. Qed.

Lemma sessions_stopSources l w : sessions (stopSources l w) = sessions w.
Proof.
  unfold stopSources. revert w. induction l as [|i l IH]; intros w; [reflexivity|].
  simpl. rewrite IH. unfold sourceStop. by case_match.
Qed.

Lemma sessions_playbackWorld h w : sessions (playbackWorld h w) = sessions w.
Proof. unfold playbackWorld. case_match; [apply sessions_stopSources | reflexivity]. Qed.

Lemma slot_playbackHook h : sessionPromiseRef (playbackHook h) = sessionPromiseRef h.
Proof. unfold playbackHook. by case_match. Qed.

Lemma flag_playbackHook h : isLiveConnected (playbackHook h) = isLiveConnected h.
Proof. unfold playbackHook. by case_match. Qed.

Lemma sendFrame_stopAudioPlayback c : sendFrame c (stopAudioPlayback c).
Proof.
  rewrite stopAudioPlayback_split. apply sendFrame_same; simpl.
  - apply flag_playbackHook.
  - apply slot_playbackHook.
  - apply sessions_playbackWorld.
Qed.

Lemma sendFrame_onmessage env img m c : sendFrame c (onmessage env img m c).
Proof.
  unfold onmessage, beforeInterrupted.
  apply sendFrame_seq.
  - apply sendFrame_seq; [apply sendFrame_accumulate|]. intros c1.
    apply sendFrame_seq; [apply sendFrame_onToolCall|]. intros c2.
    apply sendFrame_seq; [apply sendFrame_onTurnComplete|]. intros c3.
    apply sendFrame_onAudio.
  - intros c1. destruct (interrupted m);
      [apply sendFrame_stopAudioPlayback | apply sendFrame_refl].
Qed.

(** ** The tool-call dispatcher *)

Lemma onmessage_toolCallFrame env img calls c :
  onmessage env img (toolCallFrame calls) c
  = handleCalls env calls (setStatus "Thinking..." (addMessage (handoffMessage env) c)).
Proof. reflexivity. Qed.

(** On an open session whose promise has resolved the response is sent
    at once. *)
Lemma onSession_open_response env r c n s :
  sessionPromiseRef (hook c) = Some n ->
  sessions (world c) !! n = Some s -> resolved s = true -> phase s = Open ->
  onSession env (DToolResponse r) c
  = upd_world (fun w => set_toolResponses (toolResponses w ++ [(n, r)]) w) c.
Proof.
  intros Hn Hs Hr Hp. unfold onSession, whenSome. rewrite Hn.
  unfold upd_world. f_equal. unfold promiseThen. rewrite Hs, Hr.
  unfold runDeferred. by rewrite Hs, Hp.
Qed.

Lemma handleCall_generateImage_throws env fc e c :
  fc_name fc = "generateImage" -> aiRef (hook c) = true ->
  generateImages env (prop "prompt" (fc_args fc)) = Throws e ->
  handleCall env fc c
  = onSession env (DToolResponse {| tr_id := fc_id fc; tr_name := fc_name fc;
                     tr_response := Some (Failure ("Tool execution failed: "
                                                   +:+ errorMessageOf e)) |})
      (toolFailed env e c).
Proof.
  intros Hname Hai Hthrow. unfold handleCall, tryCall.
  by rewrite Hname, Hai, Hthrow.
Qed.

Lemma reportsError_report env e : reportsError e (failureReport env e) = true.
Proof.
  unfold reportsError, failureReport. cbn [parts existsb].
  apply orb_true_iff. left. apply String.eqb_refl.
Qed.

Lemma reportsError_handoff env e : reportsError e (handoffMessage env) = false.
Proof. reflexivity. Qed.

(** C5: a tool-call batch with one [generateImage] call whose invocation
    throws, on a connected session.  After the handoff notice exactly one
    message is appended, a message of the model with the text
    "An error occurred: " followed by the error text (the [message] of an
    [Error], the string of any other value); the same text is set as
    error after "Error with tool: " and sent back on the session, once,
    as a failure after "Tool execution failed: "; the value is logged;
    the hook stays connected and the session is untouched.  No message
    at all, whatever the outcome of its calls, changes the flag, the slot
    or the phase of a session. *)
Theorem failed_generateImage_keeps_session env img fc e c n s :
  fc_name fc = "generateImage" -> aiRef (hook c) = true ->
  generateImages env (prop "prompt" (fc_args fc)) = Throws e ->
  isLiveConnected (hook c) = true ->
  sessionPromiseRef (hook c) = Some n ->
  sessions (world c) !! n = Some s -> resolved s = true -> phase s = Open ->
  let text := match e with
              | ErrorObj message => message
              | NonError repr => repr
              end in
  let notice := {| msg_id := "handoff-" +:+ toString (now env); speaker := model;
                   parts := [TextPart "Let me check with my partner AI for better assistance..."] |} in
  let report := {| msg_id := toString (now env); speaker := model;
                   parts := [TextPart ("An error occurred: " +:+ text)] |} in
  let c' := onmessage env img (toolCallFrame [fc]) c in
  messages (hook c') = messages (hook c) ++ [notice; report]
  /\ filter (fun m => reportsError e m = true) [notice; report] = [report]
  /\ error (hook c') = Some ("Error with tool: " +:+ text)
  /\ toolResponses (world c')
     = toolResponses (world c)
       ++ [(n, {| tr_id := fc_id fc; tr_name := fc_name fc;
                  tr_response := Some (Failure ("Tool execution failed: " +:+ text)) |})]
  /\ console (world c') = console (world c) ++ [e]
  /\ isLiveConnected (hook c') = true
  /\ sessionPromiseRef (hook c') = Some n
  /\ sessions (world c') = sessions (world c)
  /\ (forall env' img' m', sendFrame c (onmessage env' img' m' c)).
Proof.
  intros Hname Hai Hthrow Hlive Hn Hs Hr Hp text notice report c'. subst c'.
  assert (forall env' img' m', sendFrame c (onmessage env' img' m' c)) as Hnever
    by (intros; apply sendFrame_onmessage).
  rewrite onmessage_toolCallFrame. simpl. unfold seq, skip.
  rewrite (handleCall_generateImage_throws env fc e) by done.
  erewrite onSession_open_response by done.
  simpl. rewrite <- app_assoc. simpl.
  split; [done|]. split.
  { rewrite filter_cons_False
      by (change (reportsError e (handoffMessage env) <> true);
          by rewrite reportsError_handoff).
    by rewrite filter_cons_True by exact (reportsError_report env e). }
  by repeat (split; [done|]).
Qed.

Lemma failed_generateImage_keeps_session_witness :
  let c' := onmessage imagesFail None (toolCallFrame [imageCall]) connected in
  (generateImages imagesFail (prop "prompt" (fc_args imageCall))
   = Throws (ErrorObj "quota exceeded")
   /\ isLiveConnected (hook connected) = true
   /\ messages (hook connected) = []
   /\ toolResponses (world connected) = [])
  /\ messages (hook c')
     = [{| msg_id := "handoff-1000"; speaker := model;
           parts := [TextPart "Let me check with my partner AI for better assistance..."] |};
        {| msg_id := "1000"; speaker := model;
           parts := [TextPart "An error occurred: quota exceeded"] |}]
  /\ error (hook c') = Some "Error with tool: quota exceeded"
  /\ toolResponses (world c')
     = [(0, {| tr_id := "call-1"; tr_name := "generateImage";
               tr_response := Some (Failure "Tool execution failed: quota exceeded") |})]
  /\ isLiveConnected (hook c') = true
  /\ sessionPromiseRef (hook c') = Some 0
  /\ sessions (world c') = sessions (world connected).
Proof.
  assert (sessions (world connected) !! 0
          = Some {| phase := Open; resolved := true;
                    systemInstruction := buildSystemInstruction [] general en_US;
                    imagePart := None; thens := [] |}) as Hs by (vm_compute; reflexivity).
  assert (aiRef (hook connected) = true) as Hai by (vm_compute; reflexivity).
  assert (isLiveConnected (hook connected) = true) as Hl by (vm_compute; reflexivity).
  assert (sessionPromiseRef (hook connected) = Some 0) as Hn by (vm_compute; reflexivity).
  assert (messages (hook connected) = []) as Hm by (vm_compute; reflexivity).
  assert (toolResponses (world connected) = []) as Ht by (vm_compute; reflexivity).
  assert (toString (now imagesFail) = "1000") as Hnow by (vm_compute; reflexivity).
  destruct (failed_generateImage_keeps_session imagesFail None imageCall
              (ErrorObj "quota exceeded") connected 0 _
              eq_refl Hai eq_refl Hl Hn Hs eq_refl eq_refl)
    as (H1 & _ & H3 & H4 & _ & H6 & H7 & H8 & _).
  rewrite Hm, Hnow in H1. rewrite Ht in H4.
  split; [by repeat split|].
  split; [exact H1|]. split; [exact H3|]. split; [exact H4|].
  split; [exact H6|]. split; [exact H7 | exact H8].
Defined.

Lemma isDeclared_false name :
  isDeclared name = false ->
  String.eqb name "generateImage" = false /\ String.eqb name "googleSearch" = false
  /\ String.eqb name "youtubeSearch" = false.
Proof.
  unfold isDeclared, declaredTools. simpl.
  destruct (String.eqb name "generateImage"), (String.eqb name "googleSearch"),
    (String.eqb name "youtubeSearch"); simpl; intros; try discriminate; auto.
Qed.

Lemma tryCall_undeclared env fc c :
  isDeclared (fc_name fc) = false -> tryCall env fc c = (c, Returns None).
Proof.
  intros (H1 & H2 & H3)%isDeclared_false. unfold tryCall. by rewrite H1, H2, H3.
Qed.

(** C6, as the code has it: for a function call whose name is none of
    the three declared tools no message is appended (the hook is left as
    it was) and the function result stays undefined; the response frame
    with the call's id and name and an undefined [response] is sent on the
    connected session all the same. *)
Theorem undeclared_call_answers_undefined env fc c :
  isDeclared (fc_name fc) = false ->
  hook (handleCall env fc c) = hook c
  /\ snd (tryCall env fc c) = Returns None
  /\ forall n s,
      sessionPromiseRef (hook c) = Some n ->
      sessions (world c) !! n = Some s -> resolved s = true -> phase s = Open ->
      toolResponses (world (handleCall env fc c))
      = toolResponses (world c)
        ++ [(n, {| tr_id := fc_id fc; tr_name := fc_name fc; tr_response := None |})].
Proof.
  intros Hund. unfold handleCall. rewrite (tryCall_undeclared _ _ _ Hund). simpl.
  split; [apply hook_onSession|]. split; [reflexivity|].
  intros n s Hn Hs Hr Hp. by rewrite (onSession_open_response _ _ _ _ _ Hn Hs Hr Hp).
Qed.

Lemma undeclared_call_answers_undefined_witness :
  isDeclared (fc_name weatherCall) = false
  /\ hook (handleCall quiet weatherCall connected) = hook connected.
Proof.
  split; [reflexivity|].
  apply (undeclared_call_answers_undefined quiet weatherCall connected). reflexivity.
Defined.

(** C6 as stated fails: on a connected session the batch with the one
    undeclared call [getWeather] sends a response for it. *)
Lemma undeclared_call_is_answered :
  isDeclared (fc_name weatherCall) = false
  /\ toolResponses (world connected) = []
  /\ toolResponses (world (onmessage quiet None (toolCallFrame [weatherCall]) connected))
     = [(0, {| tr_id := "call-7"; tr_name := "getWeather"; tr_response := None |})].
Proof. vm_compute. auto. Qed.

Lemma googleSearch_call env fc c response :
  fc_name fc = "googleSearch" -> aiRef (hook c) = true ->
  generateContent env (prop "query" (fc_args fc)) = Returns response ->
  handleCall env fc c
  = onSession env (DToolResponse {| tr_id := fc_id fc; tr_name := fc_name fc;
                     tr_response := Some (snd (googleSearchReply env response)) |})
      (addMessage (fst (googleSearchReply env response)) c).
Proof.
  intros Hname Hai Hresp. unfold handleCall, tryCall. rewrite Hname, Hai, Hresp. simpl.
  by destruct (googleSearchReply env response).
Qed.

Lemma truthy_false_or_else o d : truthy o = false -> or_else o d = d.
Proof. destruct o as [s|]; simpl; [|done]. by destruct (String.eqb s EmptyString). Qed.

Lemma truthy_true_or_else o d : truthy o = true -> or_else o d = default EmptyString o.
Proof. destruct o as [s|]; simpl; [|done]. by destruct (String.eqb s EmptyString). Qed.

(** C7, as the code has it: for a [googleSearch] call whose invocation
    returns, one model message is appended and one result is sent.  With
    neither answer text nor citations the message is the fallback text
    and so is the result.  Otherwise the message has a text part (if the
    text is non-empty) followed by a sources part (if there are
    citations), and the result is the answer text when it is non-empty
    and the fixed text "I found some information for you." when there are
    only citations. *)
Theorem googleSearch_reply env fc c response :
  fc_name fc = "googleSearch" -> aiRef (hook c) = true ->
  generateContent env (prop "query" (fc_args fc)) = Returns response ->
  let text := option_map trim (resp_text response) in
  let cites := citations response in
  exists m result,
    handleCall env fc c
    = onSession env (DToolResponse {| tr_id := fc_id fc; tr_name := fc_name fc;
                                      tr_response := Some (Result result) |})
        (addMessage m c)
    /\ speaker m = model
    /\ parts m = (if (truthy text || negb (Nat.eqb (length cites) 0))%bool then
                    (if truthy text then [TextPart (default EmptyString text)] else [])
                    ++ (if negb (Nat.eqb (length cites) 0) then [SourcePart cites] else [])
                  else [TextPart "I looked for that, but couldn't find any specific information."])
    /\ result = (if truthy text then default EmptyString text
                 else if negb (Nat.eqb (length cites) 0)
                      then "I found some information for you."
                      else "I looked for that, but couldn't find any specific information.").
Proof.
  intros Hname Hai Hresp text cites.
  rewrite (googleSearch_call _ _ _ _ Hname Hai Hresp).
  unfold googleSearchReply. fold text. fold cites.
  destruct (truthy text) eqn:Ht; simpl.
  - eexists _, _. split; [reflexivity|]. repeat split. simpl. by apply truthy_true_or_else.
  - destruct (Nat.eqb (length cites) 0) eqn:Hc; simpl.
    + eexists _, _. split; [reflexivity|]. done.
    + eexists _, _. split; [reflexivity|]. repeat split. by apply truthy_false_or_else.
Qed.

Lemma googleSearch_reply_witness :
  fc_name searchCall = "googleSearch" /\ aiRef (hook connected) = true
  /\ exists m result,
       handleCall quiet searchCall connected
       = onSession quiet (DToolResponse {| tr_id := "call-2"; tr_name := "googleSearch";
                                           tr_response := Some (Result result) |})
           (addMessage m connected)
       /\ parts m = [TextPart "I looked for that, but couldn't find any specific information."]
       /\ result = "I looked for that, but couldn't find any specific information.".
Proof.
  split; [reflexivity|]. split; [reflexivity|].
  destruct (googleSearch_reply quiet searchCall connected
              {| resp_text := None; resp_groundingChunks := None |}
              eq_refl eq_refl eq_refl) as (m & result & H1 & _ & H2 & H3).
  exists m, result. split; [exact H1|]. split; [exact H2 | exact H3].
Defined.

(** C7 as stated fails: with citations and no answer text the result
    sent to the session is not the fallback text. *)
Lemma googleSearch_result_not_fallback :
  truthy (option_map trim (resp_text citedOnly)) = false
  /\ snd (googleSearchReply quiet citedOnly) = Result "I found some information for you."
  /\ snd (googleSearchReply quiet citedOnly) <> specGoogleResult citedOnly.
Proof. split; [reflexivity|]. split; [reflexivity|]. vm_compute. discriminate. Qed.

(** ** Playback *)

Lemma audioFrame_refl c : audioFrame c c.
Proof. by repeat split. Qed.

Lemma audioFrame_trans c1 c2 c3 : audioFrame c1 c2 -> audioFrame c2 c3 -> audioFrame c1 c3.
Proof. unfold audioFrame. intros (?&?&?&?) (?&?&?&?). repeat split; congruence. Qed.

Lemma audioFrame_seq (f g : Handler) c :
  audioFrame c (f c) -> (forall c1, audioFrame c1 (g c1)) -> audioFrame c (seq f g c).
Proof. intros Hf Hg. eapply audioFrame_trans; [exact Hf | apply Hg]. Qed.

Lemma sources_promiseThen env n d w : sources (promiseThen env n d w) = sources w.
Proof.
  unfold promiseThen, runDeferred.
  destruct (sessions w !! n) as [s|]; [|reflexivity].
  destruct (resolved s); [|reflexivity].
  destruct d; repeat case_match; reflexivity.
Qed.

Lemma audioFrame_onSession env d c : audioFrame c (onSession env d c).
Proof.
  unfold audioFrame. rewrite hook_onSession. repeat split.
  unfold onSession, whenSome. destruct (sessionPromiseRef (hook c)); [|reflexivity].
  apply sources_promiseThen.
Qed.

Lemma audioFrame_tryCall env fc c : audioFrame c (fst (tryCall env fc c)).
Proof. unfold tryCall. repeat case_match; simpl; by repeat split. Qed.

Lemma audioFrame_handleCall env fc c : audioFrame c (handleCall env fc c).
Proof.
  unfold handleCall. pose proof (audioFrame_tryCall env fc c) as Ht.
  destruct (tryCall env fc c) as [c1 [fr|e]]; simpl in Ht.
  - eapply audioFrame_trans; [exact Ht | apply audioFrame_onSession].
  - eapply audioFrame_trans; [exact Ht|].
    eapply audioFrame_trans; [|apply audioFrame_onSession]. by repeat split.
Qed.

Lemma audioFrame_handleCalls env calls c : audioFrame c (handleCalls env calls c).
Proof.
  revert c. induction calls as [|fc calls IH]; intros c; [apply audioFrame_refl|].
  simpl. apply audioFrame_seq; [apply audioFrame_handleCall | exact IH].
Qed.

Lemma audioFrame_onToolCall env m c : audioFrame c (onToolCall env m c).
Proof.
  unfold onToolCall. destruct (toolCall m); [|apply audioFrame_refl].
  unfold seq. eapply audioFrame_trans; [|apply audioFrame_handleCalls]. by repeat split.
Qed.

Lemma audioFrame_onTurnComplete env img m c : audioFrame c (onTurnComplete env img m c).
Proof.
  unfold onTurnComplete. destruct (turnComplete m); [|apply audioFrame_refl].
  unfold seq, flushInput, flushOutput. repeat case_match; by repeat split.
Qed.

Lemma audioFrame_accumulate m c : audioFrame c (accumulate m c).
Proof. unfold accumulate. repeat case_match; by repeat split. Qed.

(** Up to the audio fragment, [onmessage] leaves the playback state. *)
Lemma audioFrame_beforeAudio env img m c :
  audioFrame c (onTurnComplete env img m (onToolCall env m (accumulate m c))).
Proof.
  eapply audioFrame_trans; [apply audioFrame_accumulate|].
  eapply audioFrame_trans; [apply audioFrame_onToolCall|].
  apply audioFrame_onTurnComplete.
Qed.

Lemma onAudio_schedules env m c a o :
  inlineAudio m = Some a -> String.eqb a EmptyString = false ->
  outputAudioContextRef (hook c) = Some o ->
  let startAt := Qmax (nextStartTimeRef (hook c)) (currentTime env) in
  let c' := onAudio env m c in
  sources (world c')
  = sources (world c) ++ [{| ps_start := startAt; ps_duration := decodedDuration env a;
                             ps_stopped := false; ps_turnComplete := turnComplete m |}]
  /\ nextStartTimeRef (hook c') = (startAt + decodedDuration env a)%Q
  /\ audioSourcesRef (hook c') = audioSourcesRef (hook c) ++ [length (sources (world c))]
  /\ outputAudioContextRef (hook c') = Some o.
Proof.
  intros Ha Hne Ho. unfold onAudio. rewrite Ha, Ho, Hne. simpl. by rewrite Ho.
Qed.

Lemma onAudio_silent env m c :
  truthy (inlineAudio m) = false \/ outputAudioContextRef (hook c) = None ->
  onAudio env m c = c.
Proof.
  unfold onAudio, truthy. intros [H|H].
  - destruct (inlineAudio m) as [a|]; [|reflexivity].
    destruct (String.eqb a EmptyString); [|discriminate]. by case_match.
  - rewrite H. by case_match.
Qed.

Lemma carriesAudio_fields env m :
  carriesAudio (env, m) = true ->
  exists a, inlineAudio m = Some a /\ String.eqb a EmptyString = false
            /\ interrupted m = false.
Proof.
  unfold carriesAudio, truthy. simpl. intros [H1 H2]%andb_prop.
  destruct (inlineAudio m) as [a|]; [|discriminate]. exists a.
  by destruct (String.eqb a EmptyString), (interrupted m).
Qed.

Lemma onmessage_schedules env img m c o :
  carriesAudio (env, m) = true -> outputAudioContextRef (hook c) = Some o ->
  let startAt := Qmax (nextStartTimeRef (hook c)) (currentTime env) in
  let endAt := (startAt + decodedDuration env (default EmptyString (inlineAudio m)))%Q in
  let c' := onmessage env img m c in
  (exists p, sources (world c') = sources (world c) ++ [p]
             /\ ps_start p = startAt /\ (ps_start p + ps_duration p)%Q = endAt)
  /\ nextStartTimeRef (hook c') = endAt
  /\ outputAudioContextRef (hook c') = Some o.
Proof.
  intros (a & Ha & Hne & Hi)%carriesAudio_fields Ho.
  unfold onmessage, beforeInterrupted, seq. rewrite Hi. unfold skip.
  destruct (audioFrame_beforeAudio env img m c) as (F1 & F2 & F3 & F4).
  set (c0 := onTurnComplete env img m (onToolCall env m (accumulate m c))) in *.
  rewrite <- F1 in Ho.
  destruct (onAudio_schedules env m c0 a o Ha Hne Ho) as (S1 & S2 & S3 & S4).
  rewrite Ha. simpl. rewrite S1, S2, S4, F2, F4. split; [|done].
  eexists. split; [reflexivity|]. done.
Qed.

Lemma specSchedule_monotonic previousEnd ms :
  monotonic previousEnd ms (specSchedule previousEnd ms).
Proof.
  revert previousEnd. induction ms as [|[env m] ms IH]; intros previousEnd; [exact I|].
  simpl. split; [apply Q.le_max_l|]. split; [apply Q.le_max_r|]. apply IH.
Qed.

Lemma deliver_schedules img ms c o :
  outputAudioContextRef (hook c) = Some o ->
  Forall (fun em => carriesAudio em = true) ms ->
  exists news,
    sources (world (deliver img ms c)) = sources (world c) ++ news
    /\ map (fun p => (ps_start p, (ps_start p + ps_duration p)%Q)) news
       = specSchedule (nextStartTimeRef (hook c)) ms.
Proof.
  revert c. induction ms as [|[env m] ms IH]; intros c Ho Hall.
  - exists []. by rewrite app_nil_r.
  - apply Forall_cons in Hall as [Hm Hall].
    destruct (onmessage_schedules env img m c o Hm Ho) as ((p & Hp & Hs & He) & Hn & Ho').
    destruct (IH _ Ho' Hall) as (news & Hnews & Hmap).
    exists (p :: news). simpl. unfold seq. rewrite Hnews, Hp, <- app_assoc. split; [done|].
    simpl. rewrite Hmap, Hn, He, Hs. reflexivity.
Qed.

(** C8: for consecutive messages that each carry an audio fragment and
    no interruption marker, delivered while a playback context exists,
    the sources scheduled are those of the specification: each starts at
    the maximum of the previous scheduled end and of the playback clock
    at arrival; so each start is at or after the previous end and at or
    after the clock. *)
Theorem playback_schedule_monotonic img ms c o :
  outputAudioContextRef (hook c) = Some o ->
  Forall (fun em => carriesAudio em = true) ms ->
  let c' := deliver img ms c in
  scheduledSince c c' = specSchedule (nextStartTimeRef (hook c)) ms
  /\ monotonic (nextStartTimeRef (hook c)) ms (scheduledSince c c').
Proof.
  intros Ho Hall c'. destruct (deliver_schedules img ms c o Ho Hall) as (news & Hs & Hm).
  assert (scheduledSince c c' = specSchedule (nextStartTimeRef (hook c)) ms) as ->.
  { unfold scheduledSince. subst c'. by rewrite Hs, drop_app_length. }
  split; [reflexivity | apply specSchedule_monotonic].
Qed.

Lemma playback_schedule_monotonic_witness :
  outputAudioContextRef (hook connected) = Some 0
  /\ Forall (fun em => carriesAudio em = true) twoFragments
  /\ scheduledSince connected playing = specSchedule 0 twoFragments
  /\ monotonic 0 twoFragments (scheduledSince connected playing).
Proof.
  assert (Forall (fun em => carriesAudio em = true) twoFragments) as Hall
    by (repeat constructor).
  assert (outputAudioContextRef (hook connected) = Some 0) as Ho
    by (vm_compute; reflexivity).
  split; [exact Ho|]. split; [exact Hall|].
  exact (playback_schedule_monotonic None twoFragments connected 0 Ho Hall).
Defined.

Lemma length_sourceStop i w : length (sources (sourceStop i w)) = length (sources w).
Proof. unfold sourceStop. case_match; [|reflexivity]. simpl. apply length_insert. Qed.

Lemma stoppedAt_sourceStop_keep i j w :
  stoppedAt w j = true -> stoppedAt (sourceStop i w) j = true.
Proof.
  unfold stoppedAt, sourceStop. destruct (sources w !! i) as [p|] eqn:Hi; [|done]. simpl.
  destruct (decide (j = i)) as [->|Hne].
  - rewrite list_lookup_insert_eq by (by eapply lookup_lt_Some). done.
  - by rewrite list_lookup_insert_ne.
Qed.

Lemma stoppedAt_sourceStop i w :
  i < length (sources w) -> stoppedAt (sourceStop i w) i = true.
Proof.
  intros Hlt. unfold stoppedAt, sourceStop.
  destruct (lookup_lt_is_Some_2 _ _ Hlt) as [p Hp]. rewrite Hp. simpl.
  by rewrite list_lookup_insert_eq.
Qed.

Lemma length_stopSources l w : length (sources (stopSources l w)) = length (sources w).
Proof.
  unfold stopSources. revert w. induction l as [|i l IH]; intros w; [reflexivity|].
  simpl. by rewrite IH, length_sourceStop.
Qed.

Lemma stoppedAt_stopSources_keep l j w :
  stoppedAt w j = true -> stoppedAt (stopSources l w) j = true.
Proof.
  unfold stopSources. revert w. induction l as [|i l IH]; intros w H; [done|].
  simpl. apply IH. by apply stoppedAt_sourceStop_keep.
Qed.

Lemma stoppedAt_stopSources l j w :
  j ∈ l -> j < length (sources w) -> stoppedAt (stopSources l w) j = true.
Proof.
  revert w. induction l as [|i l IH]; intros w Hin Hlt; [by apply elem_of_nil in Hin|].
  apply elem_of_cons in Hin as [->|Hin].
  - change (stoppedAt (stopSources l (sourceStop i w)) i = true).
    apply stoppedAt_stopSources_keep. by apply stoppedAt_sourceStop.
  - change (stoppedAt (stopSources l (sourceStop i w)) j = true).
    apply IH; [done|]. by rewrite length_sourceStop.
Qed.

Lemma handlesValid_beforeInterrupted env img m c :
  handlesValid c -> handlesValid (beforeInterrupted env img m c).
Proof.
  intros Hv. unfold beforeInterrupted, seq.
  destruct (audioFrame_beforeAudio env img m c) as (F1 & F2 & F3 & F4).
  set (c0 := onTurnComplete env img m (onToolCall env m (accumulate m c))) in *.
  assert (handlesValid c0) as Hv0 by (unfold handlesValid; by rewrite F3, F4).
  unfold onAudio. repeat case_match; try exact Hv0.
  unfold handlesValid, seq. simpl. rewrite length_app. simpl.
  apply Forall_app. split.
  - eapply Forall_impl; [exact Hv0|]. simpl. lia.
  - constructor; [lia | constructor].
Qed.

Lemma output_beforeInterrupted env img m c :
  outputAudioContextRef (hook (beforeInterrupted env img m c))
  = outputAudioContextRef (hook c).
Proof.
  unfold beforeInterrupted, seq.
  destruct (audioFrame_beforeAudio env img m c) as (F1 & F2 & F3 & F4).
  set (c0 := onTurnComplete env img m (onToolCall env m (accumulate m c))) in *.
  rewrite <- F1. unfold onAudio. repeat case_match; simpl; congruence.
Qed.

Lemma active_beforeInterrupted env img m c i :
  i ∈ audioSourcesRef (hook c) -> i ∈ audioSourcesRef (hook (beforeInterrupted env img m c)).
Proof.
  unfold beforeInterrupted, seq.
  destruct (audioFrame_beforeAudio env img m c) as (F1 & F2 & F3 & F4).
  set (c0 := onTurnComplete env img m (onToolCall env m (accumulate m c))) in *.
  rewrite <- F3. unfold onAudio. repeat case_match; try done; simpl.
  all: intros Hin; apply elem_of_app; by left.
Qed.

Lemma handlesValid_mono c c' :
  (forall i, i ∈ audioSourcesRef (hook c') -> i ∈ audioSourcesRef (hook c)) ->
  length (sources (world c)) <= length (sources (world c')) ->
  handlesValid c -> handlesValid c'.
Proof.
  unfold handlesValid. rewrite !Forall_forall. intros Hsub Hlen Hv i Hi.
  specialize (Hv i (Hsub i Hi)). lia.
Qed.

Lemma active_playbackHook h i :
  i ∈ audioSourcesRef (playbackHook h) -> i ∈ audioSourcesRef h.
Proof. unfold playbackHook. case_match; [by intros ?%elem_of_nil | done]. Qed.

Lemma length_playbackWorld h w :
  length (sources (playbackWorld h w)) = length (sources w).
Proof. unfold playbackWorld. case_match; [apply length_stopSources | reflexivity]. Qed.

Lemma handlesValid_stopAudioPlayback c : handlesValid c -> handlesValid (stopAudioPlayback c).
Proof.
  rewrite stopAudioPlayback_split. apply handlesValid_mono; simpl.
  - apply active_playbackHook.
  - by rewrite length_playbackWorld.
Qed.

Lemma sources_closeContext env i w : sources (closeContext env i w) = sources w.
Proof. unfold closeContext. repeat case_match; reflexivity. Qed.

Lemma length_stopWorld env h w : length (sources (stopWorld env h w)) = length (sources w).
Proof.
  unfold stopWorld.
  destruct (outputAudioContextRef h); simpl; rewrite ?sources_closeContext;
    rewrite length_playbackWorld;
    destruct (inputAudioContextRef h); simpl; rewrite ?sources_closeContext;
    destruct (scriptProcessorRef h), (microphoneStreamRef h), (sessionPromiseRef h); simpl;
    by rewrite ?sources_promiseThen.
Qed.

Lemma handlesValid_stop env c : handlesValid c -> handlesValid (stop env c).
Proof.
  rewrite stop_split. apply handlesValid_mono; cbn [hook world].
  - unfold stopHook. simpl. apply active_playbackHook.
  - by rewrite length_stopWorld.
Qed.

Lemma handlesValid_same c c' :
  audioSourcesRef (hook c') = audioSourcesRef (hook c) ->
  sources (world c') = sources (world c) -> handlesValid c -> handlesValid c'.
Proof. unfold handlesValid. by intros -> ->. Qed.

Lemma handlesValid_onmessage env img m c :
  handlesValid c -> handlesValid (onmessage env img m c).
Proof.
  intros Hv. unfold onmessage, seq.
  pose proof (handlesValid_beforeInterrupted env img m c Hv) as Hv1.
  destruct (interrupted m); [by apply handlesValid_stopAudioPlayback | exact Hv1].
Qed.

Lemma sources_runAll env n l w :
  sources (foldl (fun w d => runDeferred env n d w) w l) = sources w.
Proof.
  revert w. induction l as [|d l IH]; intros w; [reflexivity|].
  simpl. rewrite IH. unfold runDeferred. repeat case_match; reflexivity.
Qed.

Lemma step_handlesValid env ev c c' :
  step env ev c = Some c' -> handlesValid c -> handlesValid c'.
Proof.
  intros Hstep Hv. destruct ev; simpl in Hstep.
  - simplify_eq. unfold start. destruct liveAtRender; [exact Hv|].
    unfold seq, startAttempt, startFailed, seq.
    destruct (truthy (API_KEY env)); [|exact Hv].
    destruct img, (connectThrows env); exact Hv.
  - simplify_eq. by apply handlesValid_stop.
  - simplify_eq. exact Hv.
  - simplify_eq. exact Hv.
  - destruct (sessions (world c) !! n) as [s|]; [|done].
    destruct (phase s); simplify_eq.
    eapply handlesValid_same; [| |exact Hv]; [reflexivity|].
    unfold sessionOpened, seq. simpl. by rewrite sources_runAll.
  - destruct (micPending (world c)); simplify_eq. exact Hv.
  - destruct (micPending (world c)); simplify_eq.
    unfold seq, onopenDenied, seq. by apply handlesValid_stop.
  - destruct (sessions (world c) !! n) as [s|]; [|done].
    destruct (phase s); simplify_eq; by apply handlesValid_onmessage.
  - destruct (sessions (world c) !! n) as [s|]; [|done].
    destruct (phase s); simplify_eq; unfold seq, onerror, seq;
      by apply handlesValid_stop.
  - destruct (sessions (world c) !! n) as [s|]; [|done].
    destruct (phase s); simplify_eq; unfold seq, onclose; by apply handlesValid_stop.
  - destruct (processors (world c) !! p) as [[|]|]; simplify_eq.
    unfold onaudioprocess. destruct (isMicMuted (hook c)); [exact Hv|].
    eapply handlesValid_same; [| |exact Hv]; [by rewrite hook_onSession|].
    unfold onSession, whenSome. destruct (sessionPromiseRef (hook c)); [|reflexivity].
    apply sources_promiseThen.
  - destruct (sources (world c) !! i); simplify_eq.
    eapply handlesValid_mono; [| |exact Hv].
    + unfold onended, seq. case_match; simpl; by intros j [_ ?]%list_elem_of_filter.
    + unfold onended, seq. by case_match.
Qed.

(** In every configuration reached from the initial one the handles of
    the active set name sources of the world. *)
Lemma run_handlesValid trace c :
  run trace initial = Some c -> handlesValid c.
Proof.
  assert (forall c0, handlesValid c0 -> run trace c0 = Some c -> handlesValid c) as H.
  { induction trace as [|[env ev] trace IH]; intros c0 Hv Hrun; simpl in Hrun.
    - by simplify_eq.
    - destruct (step env ev c0) as [c1|] eqn:Hstep; [|done].
      apply (IH c1); [by eapply step_handlesValid | exact Hrun]. }
  apply H. constructor.
Qed.

(** C9: a message with the interruption marker, received while a
    playback context exists.  Every source of the active set at that
    point (the sources active before the message and the one the
    message itself may have scheduled) is stopped, the active set ends
    empty and the scheduling clock is zero, whatever the size of the
    set.  [handlesValid] holds in every reachable configuration
    ([run_handlesValid]). *)
Theorem interruption_clears_playback env img m c o :
  interrupted m = true -> outputAudioContextRef (hook c) = Some o -> handlesValid c ->
  let c1 := beforeInterrupted env img m c in
  let c' := onmessage env img m c in
  c' = stopAudioPlayback c1
  /\ (forall i, i ∈ audioSourcesRef (hook c) -> i ∈ audioSourcesRef (hook c1))
  /\ (forall i, i ∈ audioSourcesRef (hook c1) -> stoppedAt (world c') i = true)
  /\ audioSourcesRef (hook c') = []
  /\ nextStartTimeRef (hook c') = 0%Q.
Proof.
  intros Hi Ho Hv c1 c'.
  assert (c' = stopAudioPlayback c1) as -> by (subst c' c1; unfold onmessage, seq; by rewrite Hi).
  split; [reflexivity|]. split; [intros i; apply active_beforeInterrupted|].
  assert (outputAudioContextRef (hook c1) = Some o) as Ho1
    by (subst c1; by rewrite output_beforeInterrupted).
  assert (handlesValid c1) as Hv1 by (by apply handlesValid_beforeInterrupted).
  rewrite stopAudioPlayback_split. unfold playbackHook, playbackWorld. rewrite Ho1. simpl.
  split; [|done]. intros i Hin. apply stoppedAt_stopSources; [done|].
  unfold handlesValid in Hv1. rewrite Forall_forall in Hv1. by apply Hv1.
Qed.

Lemma interruption_clears_playback_witness :
  interrupted bargeIn = true
  /\ audioSourcesRef (hook playing) = [0; 1]
  /\ audioSourcesRef (hook (onmessage quiet None bargeIn playing)) = []
  /\ nextStartTimeRef (hook (onmessage quiet None bargeIn playing)) = 0%Q.
Proof.
  assert (handlesValid playing) as Hv by (vm_compute; repeat constructor).
  assert (outputAudioContextRef (hook playing) = Some 0) as Ho
    by (vm_compute; reflexivity).
  pose proof (interruption_clears_playback quiet None bargeIn playing 0
                eq_refl Ho Hv) as H.
  split; [reflexivity|]. split; [vm_compute; reflexivity|].
  exact (proj2 (proj2 (proj2 H))).
Defined.

(** ** One session at a time *)

Lemma at_most_one {A} (P : A -> Prop) `{forall x, Decision (P x)} (l : list A) :
  (forall i j x y, l !! i = Some x -> l !! j = Some y -> P x -> P y -> i = j) ->
  length (filter P l) <= 1.
Proof.
  induction l as [|a l IH]; intros Huniq; [simpl; lia|].
  destruct (decide (P a)) as [Ha|Ha].
  - rewrite filter_cons_True by done.
    rewrite (filter_none P l); [simpl; lia|].
    intros x Hx Hp. apply list_elem_of_lookup in Hx as [j Hj].
    by specialize (Huniq 0 (S j) a x eq_refl Hj Ha Hp).
  - rewrite filter_cons_False by done. apply IH.
    intros i j x y Hi Hj Hx Hy.
    by specialize (Huniq (S i) (S j) x y Hi Hj Hx Hy) as [= ->].
Qed.

Lemma slotInv_connected slot ss :
  slotInv slot ss -> length (filter (fun s => isOpen s = true) ss) <= 1.
Proof.
  intros Hinv. apply at_most_one. intros i j x y Hi Hj Hx Hy.
  pose proof (Hinv i x Hi) as Hxi. pose proof (Hinv j y Hj) as Hyj.
  unfold isOpen in Hx, Hy.
  destruct (phase x); try discriminate. destruct (phase y); try discriminate.
  destruct Hxi as [Hxi _], Hyj as [Hyj _]. congruence.
Qed.

Lemma slotInv_grow slot ss ss' : slotInv slot ss -> sessionsGrow ss ss' -> slotInv slot ss'.
Proof.
  intros Hinv Hgrow n s' Hs'.
  destruct (Hgrow n s' Hs') as (s & Hs & Hp & Hr & Ht).
  specialize (Hinv n s Hs). rewrite Hp, Hr. destruct (phase s); try done.
  destruct Hinv as [? [?|?]]; auto.
Qed.

Lemma sessionInv_sendFrame c c' : sessionInv c -> sendFrame c c' -> sessionInv c'.
Proof.
  unfold sessionInv. intros Hinv (_ & Hs & Hg). rewrite Hs. by eapply slotInv_grow.
Qed.

Lemma sessions_closeContext env i w : sessions (closeContext env i w) = sessions w.
Proof. unfold closeContext. repeat case_match; reflexivity. Qed.

Lemma sessions_stopWorld env h w :
  sessions (stopWorld env h w)
  = sessions (onRef (sessionPromiseRef h) (fun n => promiseThen env n DClose) w).
Proof.
  unfold stopWorld.
  destruct (outputAudioContextRef h); simpl; rewrite ?sessions_closeContext;
    rewrite sessions_playbackWorld;
    destruct (inputAudioContextRef h); simpl; rewrite ?sessions_closeContext;
    by destruct (scriptProcessorRef h), (microphoneStreamRef h).
Qed.

Lemma slot_stopHook h : sessionPromiseRef (stopHook h) = None.
Proof. unfold stopHook. simpl. by rewrite slot_playbackHook. Qed.

(** Closing what is in the slot, and emptying the slot. *)
Lemma slotInv_close env slot w :
  calm env = true -> slotInv slot (sessions w) ->
  slotInv None (sessions (onRef slot (fun n => promiseThen env n DClose) w)).
Proof.
  unfold calm. intros Hcalm Hinv. destruct (closeThrows env) eqn:Hc; [discriminate|].
  assert (forall n s, sessions w !! n = Some s -> slot <> Some n ->
            match phase s with
            | Open => None = Some n /\ resolved s = true
            | Connecting => resolved s = false /\ (None = Some n \/ DClose ∈ thens s)
            | _ => True
            end) as Hother.
  { intros n s Hs Hne. specialize (Hinv n s Hs). destruct (phase s); try done.
    - destruct Hinv as [? [?|?]]; [done | auto].
    - by destruct Hinv. }
  destruct slot as [k|]; simpl.
  2:{ intros n s Hs. by apply Hother. }
  unfold promiseThen. destruct (sessions w !! k) as [sk|] eqn:Hk.
  2:{ intros n s Hs. apply Hother; [done|]. intros [= ->]. congruence. }
  pose proof (Hinv k sk Hk) as Hsk.
  destruct (resolved sk) eqn:Hr.
  - unfold runDeferred. rewrite Hk, Hc.
    destruct (phase sk) eqn:Hp; simpl.
    + by destruct Hsk.
    + intros n s Hs. destruct (decide (n = k)) as [->|Hne].
      * rewrite list_lookup_insert_eq in Hs by (by eapply lookup_lt_Some).
        by inversion Hs.
      * rewrite list_lookup_insert_ne in Hs by done. apply Hother; [done | congruence].
    + intros n s Hs. destruct (decide (n = k)) as [->|Hne].
      * rewrite Hk in Hs. inversion Hs; subst. by rewrite Hp.
      * apply Hother; [done | congruence].
    + intros n s Hs. destruct (decide (n = k)) as [->|Hne].
      * rewrite Hk in Hs. inversion Hs; subst. by rewrite Hp.
      * apply Hother; [done | congruence].
  - simpl. intros n s Hs. destruct (decide (n = k)) as [->|Hne].
    + rewrite list_lookup_insert_eq in Hs by (by eapply lookup_lt_Some).
      inversion Hs; subst. simpl. destruct (phase sk); try done.
      * split; [done|]. right. apply elem_of_app. right. by left.
      * destruct Hsk. congruence.
    + rewrite list_lookup_insert_ne in Hs by done. apply Hother; [done | congruence].
Qed.

Lemma sessionInv_stop env c : calm env = true -> sessionInv c -> sessionInv (stop env c).
Proof.
  intros Hcalm Hinv. unfold sessionInv. rewrite stop_split. cbn [hook world].
  rewrite slot_stopHook, sessions_stopWorld. by apply slotInv_close.
Qed.

Lemma sessionInv_start env live history t l img c :
  mayStart live c = true -> sessionInv c ->
  sessionInv (start env live history t l img c).
Proof.
  unfold mayStart, start. intros [Hlive Hmay]%andb_prop Hinv.
  apply Bool.eqb_prop in Hlive. subst live.
  destruct (isLiveConnected (hook c)); [exact Hinv|]. simpl in Hmay.
  destruct (sessionPromiseRef (hook c)) eqn:Hslot; [discriminate|].
  unfold sessionInv in *. rewrite Hslot in Hinv.
  unfold seq, startAttempt, startFailed, seq.
  destruct (truthy (API_KEY env)); simpl; [|by rewrite Hslot].
  destruct img as [p|], (connectThrows env); simpl; rewrite ?Hslot; try exact Hinv.
  all: intros n s Hs; apply lookup_app_Some in Hs as [Hs|[Hge Hs]].
  all: try (specialize (Hinv n s Hs); destruct (phase s); try done;
            [destruct Hinv as [? [?|?]]; [done|auto] | by destruct Hinv]).
  all: apply list_lookup_singleton_Some in Hs as [Hz <-]; simpl.
  all: split; [done|]; left; f_equal; lia.
Qed.

(** The continuations of an opened session: only a [DClose] changes the
    sessions, and it closes the session. *)
Lemma sessions_runDeferred env n d w :
  calm env = true ->
  sessions (runDeferred env n d w)
  = match sessions w !! n with
    | Some s =>
        if (isDClose d && isOpen s)%bool
        then <[n := set_phase Closing s]> (sessions w) else sessions w
    | None => sessions w
    end.
Proof.
  unfold calm, runDeferred, isOpen. intros Hcalm.
  destruct (closeThrows env); [discriminate|].
  destruct (sessions w !! n) as [s|]; [|reflexivity].
  destruct d, (phase s); reflexivity.
Qed.

Lemma sessions_runAll env n l w s :
  calm env = true -> sessions w !! n = Some s ->
  sessions (foldl (fun w d => runDeferred env n d w) w l)
  = if (existsb isDClose l && isOpen s)%bool
    then <[n := set_phase Closing s]> (sessions w) else sessions w.
Proof.
  intros Hcalm. revert w s. induction l as [|d l IH]; intros w s Hs; simpl.
  - reflexivity.
  - pose proof (sessions_runDeferred env n d w Hcalm) as Hd. rewrite Hs in Hd.
    destruct (isDClose d && isOpen s)%bool eqn:Hb.
    + apply andb_prop in Hb as [Hb1 Hb2]. rewrite Hb1, Hb2. simpl.
      erewrite IH; [|rewrite Hd; apply list_lookup_insert_eq; by eapply lookup_lt_Some].
      rewrite andb_false_r. exact Hd.
    + erewrite IH; [|by rewrite Hd]. rewrite Hd.
      destruct (isDClose d); simpl in *; [by rewrite Hb, andb_false_r | reflexivity].
Qed.

Lemma existsb_isDClose l : existsb isDClose l = false -> DClose ∉ l.
Proof.
  induction l as [|d l IH]; simpl; intros H; [apply not_elem_of_nil|].
  apply orb_false_elim in H as [Hd Hl]. apply not_elem_of_cons. split; [|by apply IH].
  by destruct d.
Qed.

Lemma sessionInv_sessionOpened env n s c :
  calm env = true -> sessions (world c) !! n = Some s -> phase s = Connecting ->
  sessionInv c -> sessionInv (sessionOpened env n s c).
Proof.
  intros Hcalm Hs Hp Hinv. unfold sessionInv, sessionOpened, seq, onopen, seq. simpl.
  set (s0 := set_thens [] (set_resolved true (set_phase Open s))).
  assert (n < length (sessions (world c))) as Hlt by (by eapply lookup_lt_Some).
  erewrite sessions_runAll; [|done|simpl; by apply list_lookup_insert_eq].
  simpl. rewrite andb_true_r, list_insert_insert_eq.
  pose proof (Hinv n s Hs) as Hn. rewrite Hp in Hn. destruct Hn as [_ Hn].
  intros m s' Hm.
  destruct (decide (m = n)) as [->|Hne].
  - destruct (existsb isDClose (thens s)) eqn:He;
      rewrite list_lookup_insert_eq in Hm by done; inversion Hm; subst; simpl; [done|].
    split; [|done]. destruct Hn as [Hn|Hn]; [done|].
    by apply existsb_isDClose in He.
  - assert (sessions (world c) !! m = Some s') as Hm'.
    { destruct (existsb isDClose (thens s));
        by rewrite list_lookup_insert_ne in Hm by done. }
    exact (Hinv m s' Hm').
Qed.

Lemma sessionInv_markPhase n s p c :
  sessions (world c) !! n = Some s -> p = Closing \/ p = Closed ->
  sessionInv c -> sessionInv (markPhase n s p c).
Proof.
  intros Hs Hp Hinv. unfold sessionInv, markPhase. simpl. intros m s' Hm.
  destruct (decide (m = n)) as [->|Hne].
  - rewrite list_lookup_insert_eq in Hm by (by eapply lookup_lt_Some).
    inversion Hm; subst. simpl. by destruct Hp as [-> | ->].
  - rewrite list_lookup_insert_ne in Hm by done. exact (Hinv m s' Hm).
Qed.

Lemma sessionInv_initial : sessionInv initial.
Proof. intros n s Hs. simpl in Hs. by rewrite lookup_nil in Hs. Qed.

Lemma step_sessionInv env ev c c' :
  allowed env ev c = true -> step env ev c = Some c' -> sessionInv c -> sessionInv c'.
Proof.
  unfold allowed. intros [Hcalm Hev]%andb_prop Hstep Hinv.
  destruct ev; simpl in Hstep.
  - simplify_eq. by apply sessionInv_start.
  - simplify_eq. by apply sessionInv_stop.
  - simplify_eq. exact Hinv.
  - simplify_eq. exact Hinv.
  - destruct (sessions (world c) !! n) as [s|] eqn:Hs; [|done].
    destruct (phase s) eqn:Hp; simplify_eq. by apply sessionInv_sessionOpened.
  - destruct (micPending (world c)); simplify_eq. exact Hinv.
  - destruct (micPending (world c)); simplify_eq.
    unfold seq, onopenDenied, seq. by apply sessionInv_stop.
  - destruct (sessions (world c) !! n) as [s|] eqn:Hs; [|done].
    destruct (phase s); simplify_eq;
      (eapply sessionInv_sendFrame; [exact Hinv | apply sendFrame_onmessage]).
  - destruct (sessions (world c) !! n) as [s|] eqn:Hs; [|done].
    destruct (phase s); simplify_eq; unfold seq, onerror, seq;
      apply sessionInv_stop; try done;
      apply (sessionInv_markPhase n s Closing c Hs (or_introl eq_refl) Hinv).
  - destruct (sessions (world c) !! n) as [s|] eqn:Hs; [|done].
    destruct (phase s); simplify_eq; unfold seq, onclose;
      apply sessionInv_stop; try done;
      apply (sessionInv_markPhase n s Closed c Hs (or_intror eq_refl) Hinv).
  - destruct (processors (world c) !! p) as [[|]|]; simplify_eq.
    unfold onaudioprocess. destruct (isMicMuted (hook c)); [exact Hinv|].
    eapply sessionInv_sendFrame; [exact Hinv | by apply sendFrame_onSession].
  - destruct (sources (world c) !! i); simplify_eq.
    unfold onended, seq. by case_match.
Qed.

Lemma run_sessionInv trace c c' :
  disciplined trace c = true -> run trace c = Some c' -> sessionInv c -> sessionInv c'.
Proof.
  revert c. induction trace as [|[env ev] trace IH]; intros c Hd Hrun Hinv; simpl in *.
  - by simplify_eq.
  - apply andb_prop in Hd as [Hal Hd].
    destruct (step env ev c) as [c1|] eqn:Hstep; [|done].
    apply (IH c1 Hd Hrun). by eapply step_sessionInv.
Qed.

Lemma disciplined_prefix pre post c :
  disciplined (pre ++ post) c = true -> disciplined pre c = true.
Proof.
  revert c. induction pre as [|[env ev] pre IH]; intros c H; simpl in *; [done|].
  apply andb_prop in H as [Hal H]. rewrite Hal. simpl.
  destruct (step env ev c); [by apply IH | done].
Qed.

(** What the guard of [start] does achieve: along every trace in which
    [start] is called with the flag of the hook and never while the slot
    still holds a session that has not reported open, and no [close()]
    throws, at most one session is connected at every point. *)
Lemma disciplined_single_session pre post c :
  disciplined (pre ++ post) initial = true -> run pre initial = Some c ->
  connectedSessions (world c) <= 1.
Proof.
  intros Hd%disciplined_prefix Hrun.
  apply (slotInv_connected (sessionPromiseRef (hook c))).
  exact (run_sessionInv pre initial c Hd Hrun sessionInv_initial).
Qed.

Lemma filter_length_elem {A} (P : A -> Prop) `{forall x, Decision (P x)} (l : list A) x :
  x ∈ l -> P x -> 1 <= length (filter P l).
Proof.
  intros Hx Hp. assert (x ∈ filter P l) as Hf by (by apply list_elem_of_filter).
  destruct (filter P l); [by apply elem_of_nil in Hf | simpl; lia].
Qed.

Lemma two_connected ss i j a b :
  i < j -> ss !! i = Some a -> ss !! j = Some b -> isOpen a = true -> isOpen b = true ->
  2 <= length (filter (fun s => isOpen s = true) ss).
Proof.
  intros Hij Hi Hj Ha Hb.
  rewrite <- (take_drop_middle ss j b Hj), filter_app, length_app.
  assert (1 <= length (filter (fun s => isOpen s = true) (take j ss))).
  { apply (filter_length_elem _ _ a); [|done].
    apply list_elem_of_lookup. exists i. by rewrite lookup_take_lt. }
  assert (1 <= length (filter (fun s => isOpen s = true) (b :: drop (S j) ss))).
  { apply (filter_length_elem _ _ b); [by left | done]. }
  lia.
Qed.

Lemma second_start_connects_two
    env env1 env2 env3 history t l img c n s :
  truthy (API_KEY env) = true -> connectThrows env = None ->
  isLiveConnected (hook c) = false ->
  sessionPromiseRef (hook c) = Some n ->
  sessions (world c) !! n = Some s -> phase s = Connecting -> thens s = [] ->
  let n' := length (sessions (world c)) in
  let c1 := start env (isLiveConnected (hook c)) history t l img c in
  exists c2 c3 s1 s2,
    sessionPromiseRef (hook c1) = Some n'
    /\ step env1 (SessionOpened n) c1 = Some c2
    /\ step env2 (SessionOpened n') c2 = Some c3
    /\ n <> n'
    /\ sessions (world c3) !! n = Some s1 /\ isOpen s1 = true
    /\ sessions (world c3) !! n' = Some s2 /\ isOpen s2 = true
    /\ 2 <= connectedSessions (world c3)
    /\ isLiveConnected (hook c3) = true
    /\ sessionPromiseRef (hook c3) = Some n'
    /\ sessions (world (stop env3 c3)) !! n = Some s1
    /\ sessionPromiseRef (hook (stop env3 c3)) = None.
Proof.
  intros Hkey Hconn Hlive Hslot Hs Hp Ht n' c1.
  assert (n < n') as Hlt by (by eapply lookup_lt_Some).
  set (new := {| phase := Connecting; resolved := false;
                 systemInstruction := buildSystemInstruction history t l;
                 imagePart := img; thens := [] |}).
  assert (sessions (world c1) = sessions (world c) ++ [new]
          /\ sessionPromiseRef (hook c1) = Some n') as [Hss1 Hslot1].
  { subst c1. rewrite Hlive. unfold start, seq, startAttempt. rewrite Hkey, Hconn.
    by destruct img. }
  clearbody c1.
  set (s1 := set_thens [] (set_resolved true (set_phase Open s))).
  set (s2 := set_thens [] (set_resolved true (set_phase Open new))).
  assert (step env1 (SessionOpened n) c1 = Some (sessionOpened env1 n s c1)) as Hstep1.
  { unfold step. rewrite Hss1, lookup_app_l, Hs, Hp by done. reflexivity. }
  set (c2 := sessionOpened env1 n s c1) in *.
  assert (sessions (world c2) = <[n := s1]> (sessions (world c) ++ [new])
          /\ sessionPromiseRef (hook c2) = Some n') as [Hss2 Hslot2].
  { subst c2. unfold sessionOpened, seq, onopen, seq. simpl. by rewrite Ht, Hss1. }
  clearbody c2.
  assert (sessions (world c2) !! n' = Some new) as Hnew.
  { rewrite Hss2, list_lookup_insert_ne by lia.
    rewrite lookup_app_r by (subst n'; lia). subst n'. by rewrite Nat.sub_diag. }
  assert (step env2 (SessionOpened n') c2 = Some (sessionOpened env2 n' new c2)) as Hstep2.
  { unfold step. by rewrite Hnew. }
  set (c3 := sessionOpened env2 n' new c2) in *.
  assert (sessions (world c3) = <[n' := s2]> (<[n := s1]> (sessions (world c) ++ [new]))
          /\ sessionPromiseRef (hook c3) = Some n'
          /\ isLiveConnected (hook c3) = true) as (Hss3 & Hslot3 & Hlive3).
  { subst c3. unfold sessionOpened, seq, onopen, seq. simpl. by rewrite Hss2. }
  clearbody c3.
  assert (n < length (sessions (world c) ++ [new])) as Hlen1
    by (rewrite length_app; simpl; lia).
  assert (n' < length (sessions (world c) ++ [new])) as Hlen2
    by (rewrite length_app; simpl; subst n'; lia).
  assert (sessions (world c3) !! n = Some s1) as H1.
  { rewrite Hss3, list_lookup_insert_ne by lia. by rewrite list_lookup_insert_eq. }
  assert (sessions (world c3) !! n' = Some s2) as H2.
  { rewrite Hss3. rewrite list_lookup_insert_eq; [done|]. by rewrite length_insert. }
  exists c2, c3, s1, s2.
  split; [exact Hslot1|]. split; [exact Hstep1|]. split; [exact Hstep2|].
  split; [lia|]. split; [exact H1|]. split; [reflexivity|].
  split; [exact H2|]. split; [reflexivity|].
  split; [by apply (two_connected _ n n' s1 s2)|].
  split; [exact Hlive3|]. split; [exact Hslot3|].
  rewrite stop_split. cbn [hook world]. split; [|apply slot_stopHook].
  rewrite sessions_stopWorld, Hslot3. simpl.
  unfold promiseThen. rewrite H2. simpl. unfold runDeferred. rewrite H2.
  destruct (closeThrows env3); [exact H1|]. simpl.
  by rewrite list_lookup_insert_ne by lia.
Qed.

Lemma stale_start_on_connected_hook env history t l img c :
  truthy (API_KEY env) = true -> connectThrows env = None ->
  let c1 := start env false history t l img c in
  sessions (world c1)
  = sessions (world c) ++ [{| phase := Connecting; resolved := false;
                              systemInstruction := buildSystemInstruction history t l;
                              imagePart := img; thens := [] |}]
  /\ sessionPromiseRef (hook c1) = Some (length (sessions (world c)))
  /\ status (hook c1) = "Connecting..."
  /\ isLiveConnected (hook c1) = isLiveConnected (hook c).
Proof.
  intros Hkey Hconn. cbv zeta. unfold start, seq, startAttempt. rewrite Hkey, Hconn.
  by destruct img.
Qed.

(** C1 fails on the code.  The guard of [start] reads [isLiveConnected]
    from its closure, and the flag is set only when a session reports
    open.  (1) A [start] called while the first session is still
    connecting, with the flag of the hook, creates a second session and
    overwrites the slot; both sessions open, so two sessions are
    connected, and a later [stop] reaches only the one in the slot: the
    first stays connected with no reference left in the hook.  (2) A
    [start] that holds the flag of an earlier render ([false]) does not
    return on a connected hook either: it creates a second session and
    sets the status back to [Connecting...]. *)
Theorem start_guard_admits_second_session env history t l img :
  truthy (API_KEY env) = true -> connectThrows env = None ->
  (forall env1 env2 env3 c n s,
     isLiveConnected (hook c) = false ->
     sessionPromiseRef (hook c) = Some n ->
     sessions (world c) !! n = Some s -> phase s = Connecting -> thens s = [] ->
     let n' := length (sessions (world c)) in
     let c1 := start env (isLiveConnected (hook c)) history t l img c in
     exists c2 c3 s1 s2,
       sessionPromiseRef (hook c1) = Some n'
       /\ step env1 (SessionOpened n) c1 = Some c2
       /\ step env2 (SessionOpened n') c2 = Some c3
       /\ n <> n'
       /\ sessions (world c3) !! n = Some s1 /\ isOpen s1 = true
       /\ sessions (world c3) !! n' = Some s2 /\ isOpen s2 = true
       /\ 2 <= connectedSessions (world c3)
       /\ isLiveConnected (hook c3) = true
       /\ sessionPromiseRef (hook c3) = Some n'
       /\ sessions (world (stop env3 c3)) !! n = Some s1
       /\ sessionPromiseRef (hook (stop env3 c3)) = None)
  /\ (forall c,
        isLiveConnected (hook c) = true ->
        let c1 := start env false history t l img c in
        length (sessions (world c1)) = S (length (sessions (world c)))
        /\ sessionPromiseRef (hook c1) = Some (length (sessions (world c)))
        /\ status (hook c1) = "Connecting..."
        /\ isLiveConnected (hook c1) = true
        /\ start env true history t l img c = c).
Proof.
  intros Hkey Hconn. split.
  - intros env1 env2 env3 c n s.
    by apply (second_start_connects_two env env1 env2 env3 history t l img c n s).
  - intros c Hlive c1.
    destruct (stale_start_on_connected_hook env history t l img c Hkey Hconn)
      as (Hss & Hslot & Hstatus & Hl).
    fold c1 in Hss, Hslot, Hstatus, Hl.
    rewrite Hss, length_app, Hl, Hlive. simpl.
    repeat split; try done. lia.
Qed.

Lemma start_guard_admits_second_session_witness :
  let c := zud connecting in
  let n' := length (sessions (world c)) in
  let c1 := start quiet (isLiveConnected (hook c)) [] general en_US None c in
  (appRun pressedOnce firstVisit = Some connecting
   /\ appStep quiet ToggleConversation connecting = Some (upd_zud (fun _ => c1) connecting)
   /\ exists a a',
        appRun pressedTwice firstVisit = Some a
        /\ connectedSessions (world (zud a)) = 2
        /\ appStep quiet ToggleConversation a = Some a'
        /\ isLiveConnected (hook (zud a')) = false
        /\ sessionPromiseRef (hook (zud a')) = None
        /\ connectedSessions (world (zud a')) = 1
        /\ contexts (world (zud a'))
           = [{| sampleRate := 24000; closed := false |};
              {| sampleRate := 24000; closed := true |}])
  /\ (exists a, appRun staleStart firstVisit = Some a
                /\ connectedSessions (world (zud a)) = 2)
  /\ (exists c2 c3 s1 s2,
        sessionPromiseRef (hook c1) = Some n'
        /\ step quiet (SessionOpened 0) c1 = Some c2
        /\ step quiet (SessionOpened n') c2 = Some c3
        /\ 0 <> n'
        /\ sessions (world c3) !! 0 = Some s1 /\ isOpen s1 = true
        /\ sessions (world c3) !! n' = Some s2 /\ isOpen s2 = true
        /\ 2 <= connectedSessions (world c3)
        /\ isLiveConnected (hook c3) = true
        /\ sessionPromiseRef (hook c3) = Some n'
        /\ sessions (world (stop quiet c3)) !! 0 = Some s1
        /\ sessionPromiseRef (hook (stop quiet c3)) = None)
  /\ (let c1 := start quiet false [] general en_US None connected in
      length (sessions (world c1)) = S (length (sessions (world connected)))
      /\ sessionPromiseRef (hook c1) = Some (length (sessions (world connected)))
      /\ status (hook c1) = "Connecting..."
      /\ isLiveConnected (hook c1) = true
      /\ start quiet true [] general en_US None connected = connected).
Proof.
  assert (isLiveConnected (hook (zud connecting)) = false) as Hlive
    by (vm_compute; reflexivity).
  assert (sessionPromiseRef (hook (zud connecting)) = Some 0) as Hslot
    by (vm_compute; reflexivity).
  assert (sessions (world (zud connecting)) !! 0 = Some firstSession) as Hs
    by (vm_compute; reflexivity).
  assert (isLiveConnected (hook connected) = true) as Hlive' by (vm_compute; reflexivity).
  pose proof (start_guard_admits_second_session quiet [] general en_US None
                eq_refl eq_refl) as [H1 H2].
  split; [|split; [|split]].
  - split; [vm_compute; reflexivity|]. split; [vm_compute; reflexivity|].
    exists (default firstVisit (appRun pressedTwice firstVisit)).
    eexists. split; [vm_compute; reflexivity|]. split; [vm_compute; reflexivity|].
    split; [vm_compute; reflexivity|]. by vm_compute.
  - exists (default firstVisit (appRun staleStart firstVisit)).
    split; vm_compute; reflexivity.
  - exact (H1 quiet quiet quiet (zud connecting) 0 firstSession
             Hlive Hslot Hs eq_refl eq_refl).
  - exact (H2 connected Hlive').
Defined.

(** * Further properties *)

(** ** Capture and the mute flag *)

Lemma captureAll_muted frames c :
  isMicMuted (hook c) = true -> captureAll frames c = c.
Proof.
  intros Hm. induction frames as [|[env b] frames IH]; [reflexivity|].
  simpl. unfold seq, onaudioprocess. by rewrite Hm.
Qed.

Lemma slotOpen_same c c' n :
  sessionPromiseRef (hook c') = sessionPromiseRef (hook c) ->
  sessions (world c') = sessions (world c) -> slotOpen c n -> slotOpen c' n.
Proof. unfold slotOpen. by intros -> ->. Qed.

Lemma onSession_open_input env b c n :
  slotOpen c n ->
  onSession env (DRealtimeInput b) c
  = upd_world (fun w => set_realtimeInputs (realtimeInputs w ++ [(n, b)]) w) c.
Proof.
  intros (Hn & s & Hs & Hr & Hp). unfold onSession, whenSome. rewrite Hn.
  unfold upd_world. f_equal. unfold promiseThen. rewrite Hs, Hr.
  unfold runDeferred. by rewrite Hs, Hp.
Qed.

Lemma captureAll_unmuted frames c n :
  isMicMuted (hook c) = false -> slotOpen c n ->
  hook (captureAll frames c) = hook c
  /\ sessions (world (captureAll frames c)) = sessions (world c)
  /\ realtimeInputs (world (captureAll frames c))
     = realtimeInputs (world c) ++ map (fun f => (n, snd f)) frames.
Proof.
  revert c. induction frames as [|[env b] frames IH]; intros c Hm Ho.
  - by rewrite app_nil_r.
  - simpl. unfold seq, onaudioprocess. rewrite Hm.
    rewrite (onSession_open_input env b c n Ho).
    set (c1 := upd_world _ c).
    destruct (IH c1) as (H1 & H2 & H3); [done | by eapply slotOpen_same|].
    rewrite H1, H2, H3. simpl. by rewrite <- app_assoc.
Qed.

Lemma toggleMicMute_flag c :
  isMicMuted (hook (toggleMicMute c)) = negb (isMicMuted (hook c))
  /\ sessionPromiseRef (hook (toggleMicMute c)) = sessionPromiseRef (hook c)
  /\ world (toggleMicMute c) = world c.
Proof. done. Qed.

(** X1: while the microphone is muted no captured frame is sent and nothing
    else changes; the frames captured before muting and after unmuting reach
    the connected session, in order and unchanged. *)
Theorem muted_frames_are_dropped before during after c n :
  isMicMuted (hook c) = false -> slotOpen c n ->
  let c1 := captureAll before c in
  let c2 := toggleMicMute c1 in
  let c3 := captureAll during c2 in
  let c4 := toggleMicMute c3 in
  let c5 := captureAll after c4 in
  c3 = c2
  /\ isMicMuted (hook c4) = false
  /\ realtimeInputs (world c5)
     = realtimeInputs (world c) ++ map (fun f => (n, snd f)) (before ++ after).
Proof.
  intros Hm Ho c1 c2 c3 c4 c5.
  destruct (captureAll_unmuted before c n Hm Ho) as (H1 & H2 & H3). fold c1 in H1, H2, H3.
  destruct (toggleMicMute_flag c1) as (T1 & T2 & T3). fold c2 in T1, T2, T3.
  assert (isMicMuted (hook c2) = true) as Hm2 by (by rewrite T1, H1, Hm).
  assert (c3 = c2) as E3 by (subst c3; by apply captureAll_muted).
  split; [exact E3|].
  destruct (toggleMicMute_flag c3) as (U1 & U2 & U3). fold c4 in U1, U2, U3.
  rewrite E3 in U1, U2, U3.
  assert (isMicMuted (hook c4) = false) as Hm4 by (by rewrite U1, Hm2).
  split; [exact Hm4|].
  assert (slotOpen c4 n) as Ho4.
  { eapply slotOpen_same; [| |exact Ho].
    - by rewrite U2, T2, H1.
    - by rewrite U3, T3, H2. }
  destruct (captureAll_unmuted after c4 n Hm4 Ho4) as (_ & _ & H5). fold c5 in H5.
  rewrite H5, U3, T3, H3, map_app. by rewrite <- app_assoc.
Qed.

Lemma muted_frames_are_dropped_witness :
  let c1 := captureAll [(quiet, pcm "AAAA")] connected in
  let c2 := toggleMicMute c1 in
  let c3 := captureAll [(quiet, pcm "BBBB")] c2 in
  let c4 := toggleMicMute c3 in
  let c5 := captureAll [(quiet, pcm "CCCC")] c4 in
  c3 = c2
  /\ isMicMuted (hook c4) = false
  /\ realtimeInputs (world c5)
     = realtimeInputs (world connected)
       ++ map (fun f => (0, snd f)) ([(quiet, pcm "AAAA")] ++ [(quiet, pcm "CCCC")]).
Proof.
  assert (isMicMuted (hook connected) = false) as Hm by (vm_compute; reflexivity).
  assert (slotOpen connected 0) as Hs.
  { split; [vm_compute; reflexivity|].
    eexists. split; [vm_compute; reflexivity|]. split; reflexivity. }
  exact (muted_frames_are_dropped [(quiet, pcm "AAAA")] [(quiet, pcm "BBBB")]
           [(quiet, pcm "CCCC")] connected 0 Hm Hs).
Defined.

(** ** One response per call *)

(** What the [try] block of a call does besides computing the response:
    it appends one message exactly when it returns a response, and
    leaves the connection and the responses sent alone. *)
Lemma tryCall_effect env fc c :
  sessionPromiseRef (hook (fst (tryCall env fc c))) = sessionPromiseRef (hook c)
  /\ sessions (world (fst (tryCall env fc c))) = sessions (world c)
  /\ toolResponses (world (fst (tryCall env fc c))) = toolResponses (world c)
  /\ exists l, messages (hook (fst (tryCall env fc c))) = messages (hook c) ++ l
               /\ length l = match snd (tryCall env fc c) with
                             | Returns (Some _) => 1
                             | _ => 0
                             end.
Proof.
  unfold tryCall.
  repeat case_match; simpl; repeat split; try reflexivity;
    first [ by (exists []; rewrite app_nil_r)
          | (eexists; split; [reflexivity | reflexivity]) ].
Qed.

Lemma handleCall_effect env fc c n :
  slotOpen c n ->
  exists r l,
    toolResponses (world (handleCall env fc c))
    = toolResponses (world c)
      ++ [(n, {| tr_id := fc_id fc; tr_name := fc_name fc; tr_response := r |})]
    /\ messages (hook (handleCall env fc c)) = messages (hook c) ++ l
    /\ length l = (if definedResponse r then 1 else 0)
    /\ slotOpen (handleCall env fc c) n.
Proof.
  intros Ho. unfold handleCall.
  destruct (tryCall_effect env fc c) as (T1 & T2 & T3 & l & T4 & T5).
  destruct (tryCall env fc c) as [c1 [fr|e]]; simpl in *.
  - assert (slotOpen c1 n) as Ho1 by (by eapply slotOpen_same).
    destruct Ho1 as (Hn & s & Hs & Hr & Hp).
    erewrite onSession_open_response by done. simpl.
    exists fr, l. rewrite T3, T4. split; [done|]. split; [done|].
    split; [by destruct fr|]. split; [done|]. by exists s.
  - assert (slotOpen (toolFailed env e c1) n) as Ho1 by (by eapply slotOpen_same).
    destruct Ho1 as (Hn & s & Hs & Hr & Hp).
    erewrite onSession_open_response by done. simpl in *.
    eexists (Some _), [_]. rewrite T3, T4.
    destruct l; [|discriminate]. rewrite app_nil_r.
    split; [done|]. split; [done|]. split; [done|]. split; [done|]. by exists s.
Qed.

Lemma handleCalls_effect env calls c n :
  slotOpen c n ->
  exists rs l,
    toolResponses (world (handleCalls env calls c)) = toolResponses (world c) ++ rs
    /\ map (fun r => (fst r, tr_id (snd r), tr_name (snd r))) rs
       = map (fun fc => (n, fc_id fc, fc_name fc)) calls
    /\ messages (hook (handleCalls env calls c)) = messages (hook c) ++ l
    /\ length l = length (filter (fun r => isDefined r = true) rs)
    /\ slotOpen (handleCalls env calls c) n.
Proof.
  revert c. induction calls as [|fc calls IH]; intros c Ho.
  - exists [], []. by rewrite !app_nil_r.
  - simpl. unfold seq.
    destruct (handleCall_effect env fc c n Ho) as (r & l1 & H1 & H2 & H3 & Ho1).
    destruct (IH _ Ho1) as (rs & l2 & I1 & I2 & I3 & I4 & Ho2).
    eexists (_ :: rs), (l1 ++ l2). rewrite I1, H1, I3, H2, <- !app_assoc. simpl.
    split; [done|]. split; [by rewrite I2|]. split; [done|]. split; [|done].
    rewrite length_app, H3, I4. unfold isDefined at 2, definedResponse. simpl.
    destruct r; [by rewrite filter_cons_True | by rewrite filter_cons_False].
Qed.

(** X3: after the handoff notice, a batch appends one message per response
    that is defined: a call whose response is left undefined shows nothing,
    every other call shows exactly one message. *)
Theorem one_message_per_defined_response env m calls c n :
  toolCall m = Some calls -> slotOpen c n ->
  let c' := onToolCall env m c in
  exists l,
    messagesSince c c'
    = {| msg_id := "handoff-" +:+ toString (now env); speaker := model;
         parts := [TextPart "Let me check with my partner AI for better assistance..."] |} :: l
    /\ length l = length (filter (fun r => isDefined r = true) (responsesSince c c'))
    /\ length l <= length calls.
Proof.
  intros Hcalls Ho c'. subst c'. unfold onToolCall, seq. rewrite Hcalls.
  set (c0 := setStatus "Thinking..." (addMessage (handoffMessage env) c)).
  assert (slotOpen c0 n) as Ho0 by (by eapply slotOpen_same).
  destruct (handleCalls_effect env calls c0 n Ho0) as (rs & l & H1 & H2 & H3 & H4 & _).
  exists l. unfold messagesSince, responsesSince. rewrite H1, H3. simpl.
  rewrite <- app_assoc, !drop_app_length. split; [done|]. split; [done|].
  rewrite H4. etrans; [apply length_filter|].
  apply (f_equal length) in H2. by rewrite !length_map in H2; rewrite H2.
Qed.

Lemma one_message_per_defined_response_witness :
  let c' := onToolCall quiet (toolCallFrame [weatherCall; imageCall]) connected in
  exists l,
    messagesSince connected c'
    = {| msg_id := "handoff-" +:+ toString (now quiet); speaker := model;
         parts := [TextPart "Let me check with my partner AI for better assistance..."] |} :: l
    /\ length l = length (filter (fun r => isDefined r = true) (responsesSince connected c'))
    /\ length l <= length [weatherCall; imageCall].
Proof.
  assert (slotOpen connected 0) as Hs.
  { split; [vm_compute; reflexivity|].
    eexists. split; [vm_compute; reflexivity|]. split; reflexivity. }
  exact (one_message_per_defined_response quiet (toolCallFrame [weatherCall; imageCall])
           [weatherCall; imageCall] connected 0 eq_refl Hs).
Defined.

(** ** Messages that arrive after [stop] *)

Lemma worldButConsole_refl c : worldButConsole c c.
Proof. by repeat split. Qed.

Lemma worldButConsole_trans c1 c2 c3 :
  worldButConsole c1 c2 -> worldButConsole c2 c3 -> worldButConsole c1 c3.
Proof.
  unfold worldButConsole. intros (?&?&?&?&?&?&?&?) (?&?&?&?&?&?&?&?).
  repeat split; congruence.
Qed.

Lemma worldButConsole_tryCall env fc c : worldButConsole c (fst (tryCall env fc c)).
Proof. unfold tryCall. repeat case_match; simpl; by repeat split. Qed.

Lemma refsKept_tryCall env fc c : refsKept c (fst (tryCall env fc c)).
Proof. unfold tryCall. repeat case_match; simpl; by repeat split. Qed.

Lemma onSession_none env d c : sessionPromiseRef (hook c) = None -> onSession env d c = c.
Proof. intros H. unfold onSession, whenSome. by rewrite H. Qed.

Lemma handleCalls_unsent env calls c :
  sessionPromiseRef (hook c) = None ->
  worldButConsole c (handleCalls env calls c) /\ refsKept c (handleCalls env calls c).
Proof.
  revert c. induction calls as [|fc calls IH]; intros c Hn; [done|].
  simpl. unfold seq.
  assert (worldButConsole c (handleCall env fc c) /\ refsKept c (handleCall env fc c))
    as [W1 R1].
  { unfold handleCall.
    pose proof (worldButConsole_tryCall env fc c) as W.
    pose proof (refsKept_tryCall env fc c) as R.
    destruct (tryCall env fc c) as [c1 [fr|e]]; simpl in W, R.
    - rewrite onSession_none; [done|]. destruct R as (-> & _). done.
    - rewrite onSession_none.
      + split; [eapply worldButConsole_trans; [exact W|]; by repeat split|].
        destruct R as (R1 & R2 & R3). by repeat split.
      + simpl. destruct R as (-> & _). done. }
  destruct (IH (handleCall env fc c)) as [W2 R2].
  { destruct R1 as (-> & _). done. }
  split; [by eapply worldButConsole_trans|].
  destruct R1 as (?&?&?), R2 as (?&?&?). repeat split; congruence.
Qed.

Lemma stopAudioPlayback_none c :
  outputAudioContextRef (hook c) = None -> stopAudioPlayback c = c.
Proof. intros H. unfold stopAudioPlayback, whenSome. by rewrite H. Qed.

Lemma onmessage_unsent env img m c :
  sessionPromiseRef (hook c) = None -> outputAudioContextRef (hook c) = None ->
  worldButConsole c (onmessage env img m c) /\ refsKept c (onmessage env img m c).
Proof.
  intros Hn Ho. unfold onmessage, beforeInterrupted, seq.
  set (c0 := accumulate m c).
  assert (worldButConsole c c0 /\ refsKept c c0) as [W0 R0]
    by (subst c0; unfold accumulate; repeat case_match; by repeat split).
  set (c1 := onToolCall env m c0).
  assert (worldButConsole c0 c1 /\ refsKept c0 c1) as [W1 R1].
  { subst c1. unfold onToolCall. destruct (toolCall m) as [calls|]; [|done].
    unfold seq.
    set (c' := setStatus "Thinking..." (addMessage (handoffMessage env) c0)).
    destruct (handleCalls_unsent env calls c') as [W R].
    { subst c'. simpl. destruct R0 as (-> & _). done. }
    split; [eapply worldButConsole_trans; [|exact W]; by repeat split|].
    destruct R as (?&?&?). by repeat split. }
  set (c2 := onTurnComplete env img m c1).
  assert (worldButConsole c1 c2 /\ refsKept c1 c2) as [W2 R2].
  { subst c2. unfold onTurnComplete. destruct (turnComplete m); [|done].
    unfold seq, flushInput, flushOutput. repeat case_match; by repeat split. }
  assert (sessionPromiseRef (hook c2) = None /\ outputAudioContextRef (hook c2) = None)
    as [Hn2 Ho2].
  { destruct R0 as (?&?&?), R1 as (?&?&?), R2 as (?&?&?). split; congruence. }
  rewrite (onAudio_silent env m c2) by (by right).
  assert ((if interrupted m then stopAudioPlayback else skip) c2 = c2) as ->
    by (destruct (interrupted m); [by apply stopAudioPlayback_none | done]).
  split.
  - eapply worldButConsole_trans; [exact W0|].
    eapply worldButConsole_trans; [exact W1 | exact W2].
  - destruct R0 as (?&?&?), R1 as (?&?&?), R2 as (?&?&?). repeat split; congruence.
Qed.

(** X4: a message handled after [stop] (a call still in flight, a late
    fragment, a late interruption) sends nothing, schedules nothing and
    opens nothing: outside the console the world stays as [stop] left it,
    and the hook stays disconnected without session or playback context. *)
Theorem message_after_stop_reaches_nothing env0 c0 env img m :
  let c := stop env0 c0 in
  let c' := onmessage env img m c in
  worldButConsole c c'
  /\ isLiveConnected (hook c') = false
  /\ sessionPromiseRef (hook c') = None
  /\ outputAudioContextRef (hook c') = None.
Proof.
  intros c c'.
  pose proof (idle_fields c (idle_stop env0 c0)) as (_ & _ & Hl & Hn & _ & _ & _ & Ho).
  destruct (onmessage_unsent env img m c Hn Ho) as [W (R1 & R2 & R3)].
  fold c' in W, R1, R2, R3. split; [exact W|]. repeat split; congruence.
Qed.

(** ** A batch and what runs while its calls are awaited *)









(** ** Transcripts *)

Lemma append_cons x (a b : string) : String x a +:+ b = String x (a +:+ b).
Proof. reflexivity. Qed.

Lemma append_assoc (a b c : string) : (a +:+ b) +:+ c = a +:+ (b +:+ c).
Proof.
  induction a as [|x a IH]; [reflexivity|]. rewrite !append_cons. by rewrite IH.
Qed.

Lemma append_empty_r (a : string) : a +:+ EmptyString = a.
Proof.
  induction a as [|x a IH]; [reflexivity|]. rewrite append_cons. by rewrite IH.
Qed.

Lemma onmessage_transcriptOnly env img m c :
  transcriptOnly (env, m) = true -> onmessage env img m c = accumulate m c.
Proof.
  unfold transcriptOnly. simpl. intros H.
  repeat (apply andb_prop in H as [H ?]).
  unfold onmessage, beforeInterrupted, seq, onToolCall, onTurnComplete.
  destruct (toolCall m); [discriminate|].
  destruct (turnComplete m); [discriminate|].
  destruct (interrupted m); [discriminate|]. unfold skip.
  apply onAudio_silent. left. by destruct (truthy (inlineAudio m)).
Qed.

Lemma deliver_transcripts img ms c :
  Forall (fun em => transcriptOnly em = true) ms ->
  currentInputTranscriptionRef (hook (deliver img ms c))
  = currentInputTranscriptionRef (hook c) +:+ inputDeltas ms
  /\ currentOutputTranscriptionRef (hook (deliver img ms c))
     = currentOutputTranscriptionRef (hook c) +:+ outputDeltas ms
  /\ messages (hook (deliver img ms c)) = messages (hook c)
  /\ status (hook (deliver img ms c)) = status (hook c)
  /\ world (deliver img ms c) = world c.
Proof.
  revert c. induction ms as [|[env m] ms IH]; intros c Hall.
  - simpl. by rewrite !append_empty_r.
  - apply Forall_cons in Hall as [Hm Hall]. simpl. unfold seq.
    rewrite (onmessage_transcriptOnly env img m c Hm).
    destruct (IH (accumulate m c) Hall) as (I1 & I2 & I3 & I4 & I5).
    rewrite I1, I2, I3, I4, I5. unfold accumulate.
    destruct (outputTranscription m) as [o|], (inputTranscription m) as [i|]; simpl;
      by rewrite ?append_assoc.
Qed.

Lemma onmessage_turnEnd env img c :
  messages (hook (onmessage env img turnEnd c))
  = messages (hook c)
    ++ turnMessages env img (currentInputTranscriptionRef (hook c))
                    (currentOutputTranscriptionRef (hook c))
  /\ currentInputTranscriptionRef (hook (onmessage env img turnEnd c)) = EmptyString
  /\ currentOutputTranscriptionRef (hook (onmessage env img turnEnd c)) = EmptyString
  /\ status (hook (onmessage env img turnEnd c)) = "Listening...".
Proof.
  unfold onmessage, beforeInterrupted, seq, turnEnd, accumulate, onToolCall,
    onTurnComplete, onAudio, seq, skip, flushInput, flushOutput, turnMessages. simpl.
  destruct (String.eqb (trim (currentInputTranscriptionRef (hook c))) EmptyString);
    simpl;
    destruct (String.eqb (trim (currentOutputTranscriptionRef (hook c))) EmptyString);
    simpl; rewrite ?app_nil_r, <- ?app_assoc; done.
Qed.

(** X5: transcription deltas are concatenated in arrival order and flushed
    when the turn completes: a user message for the trimmed input (after the
    leading image, if the session had one), then a model message for the
    trimmed output; a transcript that is blank gives no message; both
    accumulators are empty afterwards. In a message with both kinds of
    transcription only the output delta is kept. *)
Theorem transcripts_flushed_at_turn_end env img ms c :
  Forall (fun em => transcriptOnly em = true) ms ->
  let c' := onmessage env img turnEnd (deliver img ms c) in
  messages (hook c')
  = messages (hook c)
    ++ turnMessages env img
         (currentInputTranscriptionRef (hook c) +:+ inputDeltas ms)
         (currentOutputTranscriptionRef (hook c) +:+ outputDeltas ms)
  /\ currentInputTranscriptionRef (hook c') = EmptyString
  /\ currentOutputTranscriptionRef (hook c') = EmptyString
  /\ status (hook c') = "Listening...".
Proof.
  intros Hall c'. subst c'.
  destruct (deliver_transcripts img ms c Hall) as (I1 & I2 & I3 & _).
  destruct (onmessage_turnEnd env img (deliver img ms c)) as (T1 & T2 & T3 & T4).
  rewrite T1, I1, I2, I3. done.
Qed.

Lemma transcripts_flushed_at_turn_end_witness :
  let ms := [(quiet, heard "hel"); (quiet, said "wel"); (quiet, heard "lo ");
             (quiet, said "come")] in
  let c' := onmessage quiet None turnEnd (deliver None ms connected) in
  messages (hook c')
  = messages (hook connected)
    ++ turnMessages quiet None
         (currentInputTranscriptionRef (hook connected) +:+ inputDeltas ms)
         (currentOutputTranscriptionRef (hook connected) +:+ outputDeltas ms)
  /\ currentInputTranscriptionRef (hook c') = EmptyString
  /\ currentOutputTranscriptionRef (hook c') = EmptyString
  /\ status (hook c') = "Listening...".
Proof.
  apply (transcripts_flushed_at_turn_end quiet None
           [(quiet, heard "hel"); (quiet, said "wel"); (quiet, heard "lo ");
            (quiet, said "come")] connected).
  repeat constructor.
Defined.

(** ** [start] *)

(** X6: without an API key [start] creates no session and no audio context
    and shows no leading image: it clears the list, reports the
    configuration error and stays disconnected; only the console changes in
    the world. *)
Theorem start_without_key_opens_nothing env history t l img c :
  truthy (API_KEY env) = false ->
  let c' := start env false history t l img c in
  worldButConsole c c'
  /\ console (world c')
     = console (world c) ++ [ErrorObj "API_KEY environment variable not set."]
  /\ messages (hook c') = []
  /\ status (hook c') = "Error"
  /\ error (hook c')
     = Some "Failed to start session: API_KEY environment variable not set."
  /\ isLiveConnected (hook c') = false
  /\ aiRef (hook c') = aiRef (hook c)
  /\ sessionPromiseRef (hook c') = sessionPromiseRef (hook c)
  /\ outputAudioContextRef (hook c') = outputAudioContextRef (hook c).
Proof.
  intros Hk c'. subst c'. unfold start.
  unfold seq, startAttempt. rewrite Hk. by repeat split.
Qed.

Lemma start_without_key_opens_nothing_witness :
  let c' := start noKey false [] general en_US None initial in
  worldButConsole initial c'
  /\ console (world c')
     = console (world initial) ++ [ErrorObj "API_KEY environment variable not set."]
  /\ messages (hook c') = []
  /\ status (hook c') = "Error"
  /\ error (hook c')
     = Some "Failed to start session: API_KEY environment variable not set."
  /\ isLiveConnected (hook c') = false
  /\ aiRef (hook c') = aiRef (hook initial)
  /\ sessionPromiseRef (hook c') = sessionPromiseRef (hook initial)
  /\ outputAudioContextRef (hook c') = outputAudioContextRef (hook initial).
Proof.
  exact (start_without_key_opens_nothing noKey [] general en_US None initial
           eq_refl).
Defined.

(** X7: the system instruction depends on the history only through the
    speakers and the text parts of its messages: images, sources and video
    results of earlier turns, and message ids, never reach it. *)
Theorem instruction_keeps_text_only h1 h2 t l :
  map spokenText h1 = map spokenText h2 ->
  buildSystemInstruction h1 t l = buildSystemInstruction h2 t l.
Proof.
  intros H. unfold buildSystemInstruction. f_equal. f_equal. f_equal. f_equal.
  unfold historyText.
  assert (map (fun m => (match speaker m with user => "User" | model => "Zud" end)
                        +:+ ": " +:+ join " " (omap isText (parts m))) h1
          = map (fun m => (match speaker m with user => "User" | model => "Zud" end)
                          +:+ ": " +:+ join " " (omap isText (parts m))) h2) as Hm.
  { revert h2 H. induction h1 as [|a h1 IH]; intros [|b h2] H; try discriminate.
    - reflexivity.
    - unfold spokenText in H. simpl in H. inversion H as [[Hs Hp Hrest]].
      simpl. rewrite Hs, Hp. f_equal. by apply IH. }
  destruct h1 as [|a h1], h2 as [|b h2]; try discriminate; [reflexivity|].
  by rewrite Hm.
Qed.

Lemma instruction_keeps_text_only_witness :
  buildSystemInstruction
    [{| msg_id := "1"; speaker := user;
        parts := [ImagePart "data:image/png;base64,AA" None; TextPart "what is this?"] |}]
    general en_US
  = buildSystemInstruction
      [{| msg_id := "2"; speaker := user; parts := [TextPart "what is this?"] |}]
      general en_US.
Proof.
  apply (instruction_keeps_text_only
           [{| msg_id := "1"; speaker := user;
               parts := [ImagePart "data:image/png;base64,AA" None;
                         TextPart "what is this?"] |}]
           [{| msg_id := "2"; speaker := user; parts := [TextPart "what is this?"] |}]
           general en_US).
  reflexivity.
Defined.

(** ** More on playback *)

Lemma Qmax_keep (p t : Q) : (t <= p)%Q -> Qmax p t = p.
Proof.
  intros H. unfold Qmax, GenericMinMax.gmax.
  destruct (Qcompare_spec p t) as [E|L|G]; try reflexivity.
  exfalso. apply (Qlt_not_le _ _ L H).
Qed.

Lemma specSchedule_contiguous previousEnd ms :
  Forall (arrivesBy previousEnd) ms -> contiguous previousEnd (specSchedule previousEnd ms).
Proof.
  revert previousEnd. induction ms as [|[env m] ms IH]; intros p Hall; [exact I|].
  apply Forall_cons in Hall as [[Hc Hd] Hall]. simpl in Hc, Hd. simpl.
  rewrite (Qmax_keep p _ Hc). split; [reflexivity|]. apply IH.
  eapply Forall_impl; [exact Hall|]. intros [env' m'] [Hc' Hd']. split; [|exact Hd'].
  simpl in *. apply Qle_trans with p; [exact Hc'|].
  rewrite <- (Qplus_0_r p) at 1. by apply Qplus_le_r.
Qed.

(** X8: fragments that arrive while the queue is still ahead of the clock
    are played back to back: each starts exactly where the previous one
    ends, without gap or overlap. *)
Theorem burst_plays_back_to_back img ms c o :
  outputAudioContextRef (hook c) = Some o ->
  Forall (fun em => carriesAudio em = true) ms ->
  Forall (arrivesBy (nextStartTimeRef (hook c))) ms ->
  contiguous (nextStartTimeRef (hook c)) (scheduledSince c (deliver img ms c))
  /\ length (scheduledSince c (deliver img ms c)) = length ms.
Proof.
  intros Ho Hall Hby.
  destruct (deliver_schedules img ms c o Ho Hall) as (news & Hs & Hm).
  unfold scheduledSince. rewrite Hs, drop_app_length, Hm. split.
  - by apply specSchedule_contiguous.
  - clear. generalize (nextStartTimeRef (hook c)).
    induction ms as [|[env m] ms IH]; intros p; simpl; [done | by rewrite IH].
Qed.

Lemma burst_plays_back_to_back_witness :
  contiguous (nextStartTimeRef (hook playing))
    (scheduledSince playing (deliver None twoFragments playing))
  /\ length (scheduledSince playing (deliver None twoFragments playing))
     = length twoFragments.
Proof.
  assert (outputAudioContextRef (hook playing) = Some 0) as Ho
    by (vm_compute; reflexivity).
  assert (Forall (arrivesBy (nextStartTimeRef (hook playing))) twoFragments) as Ha
    by (repeat constructor; vm_compute; discriminate).
  apply (burst_plays_back_to_back None twoFragments playing 0 Ho); [|exact Ha].
  repeat constructor.
Defined.

Lemma output_stopAudioPlayback c :
  outputAudioContextRef (hook (stopAudioPlayback c)) = outputAudioContextRef (hook c).
Proof. rewrite stopAudioPlayback_split. unfold playbackHook. simpl. by case_match. Qed.

Lemma clock_stopAudioPlayback c o :
  outputAudioContextRef (hook c) = Some o ->
  nextStartTimeRef (hook (stopAudioPlayback c)) = 0%Q.
Proof.
  intros Ho. rewrite stopAudioPlayback_split. unfold playbackHook. simpl. by rewrite Ho.
Qed.

(** X9: after an interruption the next fragment starts at the playback clock
    of its arrival: the queue that was discarded does not delay it. *)
Theorem fragment_after_interruption_starts_at_clock env1 env2 img m1 m2 c o :
  outputAudioContextRef (hook c) = Some o -> interrupted m1 = true ->
  carriesAudio (env2, m2) = true -> (0 <= currentTime env2)%Q ->
  let c1 := onmessage env1 img m1 c in
  let c2 := onmessage env2 img m2 c1 in
  exists startAt endAt,
    scheduledSince c1 c2 = [(startAt, endAt)]
    /\ (startAt == currentTime env2)%Q
    /\ endAt = (startAt + decodedDuration env2 (default EmptyString (inlineAudio m2)))%Q
    /\ nextStartTimeRef (hook c2) = endAt.
Proof.
  intros Ho Hi Ha Hclock c1 c2.
  assert (outputAudioContextRef (hook c1) = Some o /\ nextStartTimeRef (hook c1) = 0%Q)
    as [Ho1 Hn1].
  { subst c1. unfold onmessage, seq. rewrite Hi.
    pose proof (output_beforeInterrupted env1 img m1 c) as Hb. rewrite Ho in Hb.
    split; [by rewrite output_stopAudioPlayback | by eapply clock_stopAudioPlayback]. }
  destruct (onmessage_schedules env2 img m2 c1 o Ha Ho1)
    as ((p & Hp & Hs & He) & Hn & _).
  fold c2 in Hp, Hn. rewrite Hn1 in Hs, He, Hn.
  eexists _, _. split.
  { unfold scheduledSince. rewrite Hp, drop_app_length. simpl. reflexivity. }
  split; [rewrite Hs; exact (Q.max_r _ _ Hclock)|].
  split; [by rewrite He, Hs | by rewrite Hn, He].
Qed.

Lemma fragment_after_interruption_starts_at_clock_witness :
  let c1 := onmessage quiet None bargeIn playing in
  let c2 := onmessage (quietAt (5 # 2)) None fragment c1 in
  exists startAt endAt,
    scheduledSince c1 c2 = [(startAt, endAt)]
    /\ (startAt == currentTime (quietAt (5 # 2)))%Q
    /\ endAt = (startAt + decodedDuration (quietAt (5 # 2))
                            (default EmptyString (inlineAudio fragment)))%Q
    /\ nextStartTimeRef (hook c2) = endAt.
Proof.
  assert (outputAudioContextRef (hook playing) = Some 0) as Ho
    by (vm_compute; reflexivity).
  assert (0 <= currentTime (quietAt (5 # 2)))%Q as Ht by (vm_compute; discriminate).
  exact (fragment_after_interruption_starts_at_clock quiet (quietAt (5 # 2)) None
           bargeIn fragment playing 0 Ho eq_refl eq_refl Ht).
Defined.

(** ** Natural completion *)

Lemma onended_effect i turnDone c :
  audioSourcesRef (hook (onended i turnDone c))
  = filter (fun j => j <> i) (audioSourcesRef (hook c))
  /\ world (onended i turnDone c) = world c
  /\ (status (hook (onended i turnDone c)) = status (hook c)
      \/ status (hook (onended i turnDone c)) = "Listening...")
  /\ (turnDone = false -> filter (fun j => j <> i) (audioSourcesRef (hook c)) = [] ->
      status (hook (onended i turnDone c)) = "Listening...").
Proof.
  unfold onended, seq.
  assert (audioSourcesRef (hook (upd_hook (deleteSource i) c))
          = filter (fun j => j <> i) (audioSourcesRef (hook c))) as Hd by reflexivity.
  set (c1 := upd_hook (deleteSource i) c) in *.
  destruct (Nat.eqb (length (audioSourcesRef (hook c1))) 0 && negb turnDone)%bool eqn:Hb.
  - split; [exact Hd|]. split; [reflexivity|]. split; [by right|]. done.
  - split; [exact Hd|]. split; [reflexivity|]. split; [by left|].
    intros -> Hf. rewrite Hd, Hf in Hb. discriminate.
Qed.

Lemma endAll_effect l c :
  audioSourcesRef (hook (endAll l c))
  = filter (fun j => j ∉ map fst l) (audioSourcesRef (hook c))
  /\ world (endAll l c) = world c.
Proof.
  revert c. induction l as [|[i d] l IH]; intros c.
  - simpl. split; [|done]. symmetry. apply filter_all. intros. apply not_elem_of_nil.
  - simpl. unfold seq. destruct (IH (onended i d c)) as [I1 I2].
    destruct (onended_effect i d c) as (E1 & E2 & _ & _).
    rewrite I1, I2, E1, E2. split; [|done].
    rewrite list_filter_filter. apply list_filter_iff.
    intros j. rewrite not_elem_of_cons. tauto.
Qed.

(** X10: when every active source has ended, in whatever order and however
    often, the active set is empty and nothing outside the hook has changed;
    sources that were not in the set are not affected. If the set was not
    empty and no source was scheduled by a message that completed the turn,
    the status is back to [Listening...]. *)
Theorem ended_sources_leave_the_set l c :
  (forall i, i ∈ audioSourcesRef (hook c) -> i ∈ map fst l) ->
  let c' := endAll l c in
  audioSourcesRef (hook c') = []
  /\ world c' = world c
  /\ (audioSourcesRef (hook c) <> [] -> Forall (fun e => snd e = false) l ->
      status (hook c') = "Listening...").
Proof.
  intros Hcover c'. subst c'. destruct (endAll_effect l c) as [E1 E2].
  split; [|split; [exact E2|]].
  - rewrite E1. apply filter_none. intros i Hi Hn. by apply Hn, Hcover.
  - clear E1 E2. revert c Hcover. induction l as [|[i d] l IH]; intros c Hcover Hne Hall.
    + destruct (audioSourcesRef (hook c)) as [|j rest]; [done|].
      specialize (Hcover j). simpl in Hcover. exfalso.
      eapply not_elem_of_nil, Hcover. by left.
    + apply Forall_cons in Hall as [Hd Hall]. simpl in Hd. subst d.
      simpl. unfold seq.
      destruct (onended_effect i false c) as (F1 & F2 & F3 & F4).
      destruct (decide (audioSourcesRef (hook (onended i false c)) = [])) as [Hempty|Hne'].
      * assert (status (hook (onended i false c)) = "Listening...") as Hst.
        { apply F4; [done|]. by rewrite <- F1. }
        clear -Hst Hall. revert Hst. generalize (onended i false c). clear -Hall.
        induction l as [|[j d] l IH]; intros c0 Hst; [exact Hst|].
        apply Forall_cons in Hall as [Hd Hall]. simpl in Hd. subst d.
        simpl. unfold seq. apply IH; [exact Hall|].
        destruct (onended_effect j false c0) as (_ & _ & [G|G] & _); congruence.
      * apply IH; [|exact Hne'|exact Hall].
        intros j Hj. rewrite F1 in Hj. apply list_elem_of_filter in Hj as [Hji Hj].
        specialize (Hcover j Hj). simpl in Hcover.
        apply elem_of_cons in Hcover as [?|?]; [done | assumption].
Qed.

Lemma ended_sources_leave_the_set_witness :
  let c' := endAll [(0, false); (1, false)] playing in
  audioSourcesRef (hook c') = []
  /\ world c' = world playing
  /\ (audioSourcesRef (hook playing) <> [] ->
      Forall (fun e => snd e = false) [(0, false); (1, false)] ->
      status (hook c') = "Listening...").
Proof.
  assert (audioSourcesRef (hook playing) = [0; 1]) as Hs by (vm_compute; reflexivity).
  apply (ended_sources_leave_the_set [(0, false); (1, false)] playing).
  rewrite Hs. intros i Hi. exact Hi.
Defined.

(** ** Video search *)

Lemma not_generateImage_youtube :
  String.eqb "youtubeSearch" "generateImage" = false
  /\ String.eqb "youtubeSearch" "googleSearch" = false.
Proof. done. Qed.

Lemma console_onSession_response env r c :
  console (world (onSession env (DToolResponse r) c)) = console (world c).
Proof.
  unfold onSession, whenSome. destruct (sessionPromiseRef (hook c)); [|reflexivity].
  simpl. unfold promiseThen, runDeferred. repeat case_match; reflexivity.
Qed.

(** X11: without a YouTube key the search is not attempted: whatever [fetch]
    would answer, the call shows the configuration message, logs it once and
    answers the session with a failure. *)
Theorem youtube_without_key_is_reported env fc c :
  fc_name fc = "youtubeSearch" -> YOUTUBE_API_KEY env = EmptyString ->
  let text := "The YouTube API key is not configured in config.ts. Please add your key to enable video search." in
  let c' := handleCall env fc c in
  c'
  = onSession env
      (DToolResponse {| tr_id := fc_id fc; tr_name := fc_name fc;
         tr_response := Some (Failure ("Tool execution failed: "
                                       +:+ errorMessageOf missingKeyError)) |})
      (toolFailed env missingKeyError c)
  /\ console (world c') = console (world c) ++ [ErrorObj text]
  /\ error (hook c') = Some ("Error with tool: " +:+ text)
  /\ messages (hook c')
     = messages (hook c)
       ++ [{| msg_id := toString (now env); speaker := model;
              parts := [TextPart ("An error occurred: " +:+ text)] |}].
Proof.
  intros Hname Hkey text c'.
  assert (c' = onSession env
                 (DToolResponse {| tr_id := fc_id fc; tr_name := fc_name fc;
                    tr_response := Some (Failure ("Tool execution failed: "
                                                  +:+ errorMessageOf missingKeyError)) |})
                 (toolFailed env missingKeyError c)) as Hc.
  { subst c'. unfold handleCall, tryCall, fetchYouTubeVideos.
    rewrite Hname, Hkey. simpl.
    assert (upd_world (fun w => set_console (console w ++ []) w) c = c) as ->.
    { unfold upd_world. destruct c as [h w]. simpl. f_equal. rewrite app_nil_r.
      by destruct w. }
    reflexivity. }
  split; [exact Hc|]. rewrite Hc, console_onSession_response, !hook_onSession.
  by repeat split.
Qed.

Lemma youtube_without_key_is_reported_witness :
  let text := "The YouTube API key is not configured in config.ts. Please add your key to enable video search." in
  let c' := handleCall noYouTubeKey youtubeCall connected in
  c'
  = onSession noYouTubeKey
      (DToolResponse {| tr_id := fc_id youtubeCall; tr_name := fc_name youtubeCall;
         tr_response := Some (Failure ("Tool execution failed: "
                                       +:+ errorMessageOf missingKeyError)) |})
      (toolFailed noYouTubeKey missingKeyError connected)
  /\ console (world c') = console (world connected) ++ [ErrorObj text]
  /\ error (hook c') = Some ("Error with tool: " +:+ text)
  /\ messages (hook c')
     = messages (hook connected)
       ++ [{| msg_id := toString (now noYouTubeKey); speaker := model;
              parts := [TextPart ("An error occurred: " +:+ text)] |}].
Proof.
  exact (youtube_without_key_is_reported noYouTubeKey youtubeCall connected
           eq_refl eq_refl).
Defined.

(** X12: a video search that succeeds shows every item of the reply, in the
    order of the reply and without truncation, after a summary text, and
    answers with their number; a reply without items shows the fallback text
    alone and answers with it. The request asks for at most 5 embeddable
    videos under the configured key. *)
Theorem youtube_results_are_all_shown env fc c items :
  fc_name fc = "youtubeSearch" -> YOUTUBE_API_KEY env <> EmptyString ->
  fetch env (searchRequest env (prop "query" (fc_args fc))) = HttpOk items ->
  exists m result,
    handleCall env fc c
    = onSession env (DToolResponse {| tr_id := fc_id fc; tr_name := fc_name fc;
                                      tr_response := Some (Result result) |})
        (addMessage m c)
    /\ speaker m = model
    /\ match items with
       | [] => parts m = [TextPart "Sorry, no videos could be found that allow playback here."]
               /\ result = "Sorry, no videos could be found that allow playback here."
       | _ :: _ =>
           exists videos,
             parts m = [TextPart "Found some videos for you:"; YouTubePart videos]
             /\ map vid_id videos = map item_videoId items
             /\ map vid_title videos = map item_title items
             /\ map vid_channel videos = map item_channelTitle items
             /\ map vid_description videos = map item_description items
             /\ result = "OK, I found " +:+ toString (N.of_nat (length items))
                         +:+ " videos."
       end.
Proof.
  intros Hname Hkey Hfetch. apply String.eqb_neq in Hkey.
  unfold handleCall, tryCall, fetchYouTubeVideos. rewrite Hname. simpl.
  rewrite Hkey. unfold searchRequest in Hfetch. rewrite Hfetch.
  destruct items as [|item items]; simpl.
  - eexists _, _. split; [reflexivity|]. done.
  - eexists _, _. split; [reflexivity|]. split; [done|].
    eexists. split; [reflexivity|]. rewrite length_map. simpl.
    rewrite !List.map_map. simpl. by repeat split.
Qed.

Lemma youtube_results_are_all_shown_witness :
  exists m result,
    handleCall (youTubeReplies (HttpOk [kiteVideo])) youtubeCall connected
    = onSession (youTubeReplies (HttpOk [kiteVideo]))
        (DToolResponse {| tr_id := fc_id youtubeCall; tr_name := fc_name youtubeCall;
                          tr_response := Some (Result result) |})
        (addMessage m connected)
    /\ speaker m = model
    /\ exists videos,
         parts m = [TextPart "Found some videos for you:"; YouTubePart videos]
         /\ map vid_id videos = map item_videoId [kiteVideo]
         /\ map vid_title videos = map item_title [kiteVideo]
         /\ map vid_channel videos = map item_channelTitle [kiteVideo]
         /\ map vid_description videos = map item_description [kiteVideo]
         /\ result = "OK, I found " +:+ toString (N.of_nat (length [kiteVideo]))
                     +:+ " videos.".
Proof.
  assert (YOUTUBE_API_KEY (youTubeReplies (HttpOk [kiteVideo])) <> EmptyString) as Hk
    by discriminate.
  exact (youtube_results_are_all_shown (youTubeReplies (HttpOk [kiteVideo]))
           youtubeCall connected [kiteVideo] eq_refl Hk eq_refl).
Defined.

(** X13: when the search service answers with an HTTP error, its message is
    shown and sent back as a failure, and the error is logged twice: by
    [fetchYouTubeVideos] and by the handler that catches it again. *)
Theorem youtube_http_error_is_reported env fc c message :
  fc_name fc = "youtubeSearch" -> YOUTUBE_API_KEY env <> EmptyString ->
  fetch env (searchRequest env (prop "query" (fc_args fc))) = HttpError message ->
  let e := ErrorObj ("YouTube API error: " +:+ message) in
  handleCall env fc c
  = onSession env
      (DToolResponse {| tr_id := fc_id fc; tr_name := fc_name fc;
         tr_response := Some (Failure ("Tool execution failed: YouTube API error: "
                                       +:+ message)) |})
      (toolFailed env e (consoleError e c))
  /\ console (world (handleCall env fc c)) = console (world c) ++ [e; e].
Proof.
  intros Hname Hkey Hfetch e. apply String.eqb_neq in Hkey.
  assert (handleCall env fc c
          = onSession env
              (DToolResponse {| tr_id := fc_id fc; tr_name := fc_name fc;
                 tr_response := Some (Failure ("Tool execution failed: YouTube API error: "
                                               +:+ message)) |})
              (toolFailed env e (consoleError e c))) as Heq.
  { unfold handleCall, tryCall, fetchYouTubeVideos. rewrite Hname. simpl.
    rewrite Hkey. unfold searchRequest in Hfetch. rewrite Hfetch. reflexivity. }
  split; [exact Heq|]. rewrite Heq.
  unfold onSession, whenSome.
  destruct (sessionPromiseRef (hook (toolFailed env e (consoleError e c)))) as [n|];
    simpl; [|by rewrite <- app_assoc].
  unfold promiseThen, runDeferred.
  repeat case_match; simpl; by rewrite <- app_assoc.
Qed.

Lemma youtube_http_error_is_reported_witness :
  let env := youTubeReplies (HttpError "quotaExceeded") in
  let e := ErrorObj ("YouTube API error: " +:+ "quotaExceeded") in
  handleCall env youtubeCall connected
  = onSession env
      (DToolResponse {| tr_id := fc_id youtubeCall; tr_name := fc_name youtubeCall;
         tr_response := Some (Failure ("Tool execution failed: YouTube API error: "
                                       +:+ "quotaExceeded")) |})
      (toolFailed env e (consoleError e connected))
  /\ console (world (handleCall env youtubeCall connected))
     = console (world connected) ++ [e; e].
Proof.
  assert (YOUTUBE_API_KEY (youTubeReplies (HttpError "quotaExceeded")) <> EmptyString)
    as Hk by discriminate.
  exact (youtube_http_error_is_reported (youTubeReplies (HttpError "quotaExceeded"))
           youtubeCall connected "quotaExceeded" eq_refl Hk eq_refl).
Defined.

(** ** Session errors *)

Lemma stopHook_display h s e :
  stopHook (set_status s (set_error e h)) = stopHook h.
Proof. unfold stopHook, playbackHook. simpl. by case_match. Qed.

(** X14: [onerror] tears down exactly as [onclose] does: the hook ends in
    the same idle state, so the session error message it had set is cleared
    again; the error only remains in the console. *)
Theorem onerror_ends_like_onclose env message c :
  hook (onerror env message c) = hook (onclose env c)
  /\ idle (onerror env message c) = true
  /\ console (world (onerror env message c))
     = console (world c) ++ ErrorObj message
       :: raisedByStop env c.
Proof.
  unfold onerror, onclose, seq. split; [|split; [apply idle_stop|]].
  - rewrite !stop_split. cbn [hook]. unfold setStatus, setError, consoleError.
    cbn [hook upd_hook upd_world]. apply stopHook_display.
  - rewrite console_stop. unfold raisedByStop, closeError, contextError. simpl.
    by rewrite <- app_assoc.
Qed.

(** ** The status shown *)

Ltac known :=
  unfold displayStatuses;
  repeat first [ apply list_elem_of_here | apply list_elem_of_further ].

Lemma statusStep_refl c : statusStep c c.
Proof. by left. Qed.

Lemma statusStep_trans c1 c2 c3 : statusStep c1 c2 -> statusStep c2 c3 -> statusStep c1 c3.
Proof.
  unfold statusStep, statusKnown. intros [H1|H1] [H2|H2]; [left; congruence |by right| |by right].
  right. by rewrite H2.
Qed.

Lemma statusStep_known c c' : statusKnown c' -> statusStep c c'.
Proof. by right. Qed.

Lemma statusKnown_literal c s :
  status (hook c) = s -> s ∈ displayStatuses -> statusKnown c.
Proof. unfold statusKnown. by intros ->. Qed.

Lemma statusStep_onmessage env img m c : statusStep c (onmessage env img m c).
Proof.
  unfold onmessage, beforeInterrupted, seq.
  set (c0 := accumulate m c).
  assert (statusStep c c0) as S0
    by (left; subst c0; unfold accumulate; repeat case_match; done).
  set (c1 := onToolCall env m c0).
  assert (statusStep c0 c1) as S1.
  { subst c1. unfold onToolCall. destruct (toolCall m) as [calls|]; [|by left].
    right. unfold seq.
    destruct (status_handleCalls env calls
                (setStatus "Thinking..." (addMessage (handoffMessage env) c0))) as [H _].
    eapply statusKnown_literal; [exact H|]. simpl. known. }
  set (c2 := onTurnComplete env img m c1).
  assert (statusStep c1 c2) as S2.
  { subst c2. unfold onTurnComplete. destruct (turnComplete m); [|by left].
    right. eapply statusKnown_literal; [reflexivity|]. known. }
  set (c3 := onAudio env m c2).
  assert (statusStep c2 c3) as S3.
  { subst c3. unfold onAudio. repeat case_match; try (by left).
    right. eapply statusKnown_literal; [reflexivity|]. known. }
  assert (statusStep c3 ((if interrupted m then stopAudioPlayback else skip) c3)) as S4.
  { left. destruct (interrupted m); [|done].
    by destruct (statusFrame_stopAudioPlayback c3) as (-> & _). }
  eapply statusStep_trans; [exact S0|]. eapply statusStep_trans; [exact S1|].
  eapply statusStep_trans; [exact S2|]. eapply statusStep_trans; [exact S3 | exact S4].
Qed.

Lemma statusKnown_stop env c : statusKnown (stop env c).
Proof.
  pose proof (idle_fields _ (idle_stop env c)) as (H & _).
  eapply statusKnown_literal; [exact H|]. known.
Qed.

Lemma step_statusStep env ev c c' : step env ev c = Some c' -> statusStep c c'.
Proof.
  intros Hstep. destruct ev; simpl in Hstep.
  - simplify_eq. unfold start. destruct liveAtRender; [by left|].
    right. unfold seq, startAttempt, startFailed, seq.
    destruct (truthy (API_KEY env));
      [|eapply statusKnown_literal; [reflexivity | known]].
    destruct img, (connectThrows env);
      (eapply statusKnown_literal; [reflexivity | known]).
  - simplify_eq. right. apply statusKnown_stop.
  - simplify_eq. by left.
  - simplify_eq. by left.
  - destruct (sessions (world c) !! n) as [s|]; [|done].
    destruct (phase s); simplify_eq. right.
    eapply statusKnown_literal; [reflexivity | known].
  - destruct (micPending (world c)); simplify_eq. by left.
  - destruct (micPending (world c)); simplify_eq. right. apply statusKnown_stop.
  - destruct (sessions (world c) !! n) as [s|]; [|done].
    destruct (phase s); simplify_eq; apply statusStep_onmessage.
  - destruct (sessions (world c) !! n) as [s|]; [|done].
    destruct (phase s); simplify_eq; right; apply statusKnown_stop.
  - destruct (sessions (world c) !! n) as [s|]; [|done].
    destruct (phase s); simplify_eq; right; apply statusKnown_stop.
  - destruct (processors (world c) !! p) as [[|]|]; simplify_eq.
    left. unfold onaudioprocess. destruct (isMicMuted (hook c)); [done|].
    by rewrite hook_onSession.
  - destruct (sources (world c) !! i); simplify_eq.
    destruct (onended_effect i (ps_turnComplete p) c) as (_ & _ & [H|H] & _);
      [by left | right]. eapply statusKnown_literal; [exact H | known].
Qed.

Lemma run_statusKnown trace c0 c :
  statusKnown c0 -> run trace c0 = Some c -> statusKnown c.
Proof.
  revert c0. induction trace as [|[env ev] trace IH]; intros c0 Hc Hrun; simpl in Hrun.
  - by simplify_eq.
  - destruct (step env ev c0) as [c1|] eqn:Hstep; [|done].
    apply (IH c1); [|exact Hrun].
    destruct (step_statusStep _ _ _ _ Hstep) as [Hs|Hs]; [|exact Hs].
    unfold statusKnown. by rewrite Hs.
Qed.

Lemma statusKnown_initial : statusKnown initial.
Proof. unfold statusKnown. simpl. known. Qed.

(** X15: whatever happens, the status the hook shows is one of the six
    strings [Ready], [Connecting...], [Listening...], [Thinking...],
    [Speaking...] and [Error]. *)
Theorem status_is_a_display_string trace c :
  run trace initial = Some c -> statusKnown c.
Proof.
  intros Hrun. eapply run_statusKnown; [|exact Hrun].
  exact statusKnown_initial.
Qed.

Lemma status_is_a_display_string_witness : statusKnown restartedEnd.
Proof.
  assert (run restarted initial = Some restartedEnd) as Hr by (vm_compute; reflexivity).
  exact (status_is_a_display_string restarted restartedEnd Hr).
Defined.

(** X16: the chat panel shows the status in the colour of the default branch
    of [getStatusColor] exactly when the hook is [Ready]: every other status
    the hook can reach has a colour of its own. *)
Theorem default_colour_means_ready trace c :
  run trace initial = Some c ->
  getStatusColor (status (hook c)) = "text-gray-400" <-> status (hook c) = "Ready".
Proof.
  intros H. apply (run_statusKnown _ _ _ statusKnown_initial) in H.
  unfold statusKnown, displayStatuses in H.
  repeat (apply elem_of_cons in H as [->|H]);
    try (split; intros E; first [reflexivity | vm_compute in E; discriminate E]).
  by apply elem_of_nil in H.
Qed.

Lemma default_colour_means_ready_witness :
  getStatusColor (status (hook restartedEnd)) = "text-gray-400"
  <-> status (hook restartedEnd) = "Ready".
Proof.
  assert (run restarted initial = Some restartedEnd) as Hr by (vm_compute; reflexivity).
  exact (default_colour_means_ready restarted restartedEnd Hr).
Defined.

(** ** What [stop] releases *)

Lemma contexts_closeContext_closed env i w ref :
  closedAt w ref -> closedAt (closeContext env i w) ref.
Proof.
  destruct ref as [j|]; [|done]. intros (a & Ha & Hc). unfold closeContext. simpl.
  destruct (contexts w !! i) as [b|] eqn:Hi; [|by exists a].
  destruct (closed b) eqn:Hb; [by exists a|].
  destruct (contextCloseRejects env i); [by exists a|]. simpl.
  destruct (decide (j = i)) as [->|Hne].
  - rewrite list_lookup_insert_eq by (by eapply lookup_lt_Some). by eexists.
  - rewrite list_lookup_insert_ne by done. by exists a.
Qed.

Lemma closeContext_closes env i w :
  (forall j, contextCloseRejects env j = None) -> i < length (contexts w) ->
  closedAt (closeContext env i w) (Some i).
Proof.
  intros Hok Hlt. unfold closeContext. simpl.
  destruct (lookup_lt_is_Some_2 _ _ Hlt) as [a Ha]. rewrite Ha.
  destruct (closed a) eqn:Hc; [by exists a|]. rewrite Hok. simpl.
  rewrite list_lookup_insert_eq by done. by eexists.
Qed.

Lemma closedAt_same w w' ref : contexts w' = contexts w -> closedAt w ref -> closedAt w' ref.
Proof. unfold closedAt. by intros ->. Qed.

Lemma streams_stopWorld env h w :
  streams (stopWorld env h w)
  = match microphoneStreamRef h with
    | Some i => <[i := true]> (streams w)
    | None => streams w
    end.
Proof.
  unfold stopWorld.
  assert (forall i w0, streams (closeContext env i w0) = streams w0) as Hc
    by (intros; unfold closeContext; repeat case_match; reflexivity).
  assert (forall l w0, streams (stopSources l w0) = streams w0) as Hs.
  { unfold stopSources. induction l as [|i l IH]; intros w0; [reflexivity|].
    simpl. rewrite IH. unfold sourceStop. by case_match. }
  assert (forall n d w0, streams (promiseThen env n d w0) = streams w0) as Hp.
  { intros. unfold promiseThen, runDeferred. repeat case_match; reflexivity. }
  destruct (outputAudioContextRef h) eqn:Ho; simpl; rewrite ?Hc;
    unfold playbackWorld; rewrite Ho, ?Hs;
    destruct (inputAudioContextRef h); simpl; rewrite ?Hc;
    destruct (scriptProcessorRef h), (microphoneStreamRef h), (sessionPromiseRef h);
    simpl; by rewrite ?Hp.
Qed.

Lemma processors_stopWorld env h w :
  processors (stopWorld env h w)
  = match scriptProcessorRef h with
    | Some i => <[i := false]> (processors w)
    | None => processors w
    end.
Proof.
  unfold stopWorld.
  assert (forall i w0, processors (closeContext env i w0) = processors w0) as Hc
    by (intros; unfold closeContext; repeat case_match; reflexivity).
  assert (forall l w0, processors (stopSources l w0) = processors w0) as Hs.
  { unfold stopSources. induction l as [|i l IH]; intros w0; [reflexivity|].
    simpl. rewrite IH. unfold sourceStop. by case_match. }
  assert (forall n d w0, processors (promiseThen env n d w0) = processors w0) as Hp.
  { intros. unfold promiseThen, runDeferred. repeat case_match; reflexivity. }
  destruct (outputAudioContextRef h) eqn:Ho; simpl; rewrite ?Hc;
    unfold playbackWorld; rewrite Ho, ?Hs;
    destruct (inputAudioContextRef h); simpl; rewrite ?Hc;
    destruct (scriptProcessorRef h), (microphoneStreamRef h), (sessionPromiseRef h);
    simpl; by rewrite ?Hp.
Qed.

Lemma contexts_stopWorld_input env h w :
  contexts (onRef (inputAudioContextRef h) (closeContext env)
              (onRef (scriptProcessorRef h) disconnect
                 (onRef (microphoneStreamRef h) stopTracks
                    (onRef (sessionPromiseRef h) (fun n => promiseThen env n DClose) w))))
  = contexts (onRef (inputAudioContextRef h) (closeContext env) w).
Proof.
  assert (forall i w0 w1, contexts w1 = contexts w0 ->
            contexts (closeContext env i w1) = contexts (closeContext env i w0)) as Hc.
  { intros i w0 w1 H. unfold closeContext. rewrite H. repeat case_match; simpl; congruence. }
  assert (contexts (onRef (scriptProcessorRef h) disconnect
                      (onRef (microphoneStreamRef h) stopTracks
                         (onRef (sessionPromiseRef h)
                            (fun n => promiseThen env n DClose) w)))
          = contexts w) as H0.
  { destruct (scriptProcessorRef h), (microphoneStreamRef h), (sessionPromiseRef h);
      simpl; by rewrite ?contexts_promiseThen. }
  destruct (inputAudioContextRef h); simpl; [by apply Hc | exact H0].
Qed.

Lemma sources_stopWorld env h w :
  sources (stopWorld env h w) = sources (playbackWorld h w).
Proof.
  unfold stopWorld.
  assert (forall l w0 w1, sources w1 = sources w0 ->
            sources (stopSources l w1) = sources (stopSources l w0)) as Hs.
  { unfold stopSources. induction l as [|i l IH]; intros w0 w1 H; [exact H|].
    simpl. apply IH. unfold sourceStop. rewrite H. by case_match. }
  assert (sources (onRef (inputAudioContextRef h) (closeContext env)
                      (onRef (scriptProcessorRef h) disconnect
                         (onRef (microphoneStreamRef h) stopTracks
                            (onRef (sessionPromiseRef h)
                               (fun n => promiseThen env n DClose) w))))
          = sources w) as H0.
  { destruct (inputAudioContextRef h); simpl; rewrite ?sources_closeContext;
      destruct (scriptProcessorRef h), (microphoneStreamRef h), (sessionPromiseRef h);
      simpl; by rewrite ?sources_promiseThen. }
  destruct (outputAudioContextRef h) eqn:Ho; simpl; rewrite ?sources_closeContext;
    unfold playbackWorld; rewrite Ho; [by apply Hs | exact H0].
Qed.

(** X17: when no close operation fails, [stop] releases everything the hook
    held: both audio contexts end closed, the tracks of the microphone
    stream stopped, the processor node disconnected and every active source
    stopped; and the hook itself ends idle. *)
Theorem stop_releases_what_the_hook_held env c :
  closesSucceed env -> refsValid c ->
  let w' := world (stop env c) in
  closedAt w' (inputAudioContextRef (hook c))
  /\ closedAt w' (outputAudioContextRef (hook c))
  /\ (forall i, microphoneStreamRef (hook c) = Some i -> streams w' !! i = Some true)
  /\ (forall i, scriptProcessorRef (hook c) = Some i -> processors w' !! i = Some false)
  /\ (forall i, i ∈ audioSourcesRef (hook c) -> stoppedAt w' i = true)
  /\ idle (stop env c) = true.
Proof.
  intros [Hclose Hctx] (Vi & Vo & Vm & Vp & Vh & Ve) w'. subst w'.
  rewrite stop_split. cbn [world].
  split; [|split; [|split; [|split; [|split]]]].
  - unfold stopWorld.
    assert (closedAt (onRef (inputAudioContextRef (hook c)) (closeContext env)
                        (onRef (scriptProcessorRef (hook c)) disconnect
                           (onRef (microphoneStreamRef (hook c)) stopTracks
                              (onRef (sessionPromiseRef (hook c))
                                 (fun n => promiseThen env n DClose) (world c)))))
                     (inputAudioContextRef (hook c))) as H1.
    { eapply closedAt_same; [apply contexts_stopWorld_input|].
      destruct (inputAudioContextRef (hook c)) as [i|]; [|done]. simpl.
      by apply closeContext_closes. }
    destruct (outputAudioContextRef (hook c)); simpl.
    + apply contexts_closeContext_closed.
      eapply closedAt_same; [apply contexts_playbackWorld | exact H1].
    + eapply closedAt_same; [apply contexts_playbackWorld | exact H1].
  - unfold stopWorld. destruct (outputAudioContextRef (hook c)) as [o|]; [|done]. simpl.
    apply closeContext_closes; [exact Hctx|].
    rewrite contexts_playbackWorld, contexts_stopWorld_input.
    simpl in Vo. destruct (inputAudioContextRef (hook c)) as [i|]; simpl; [|done].
    unfold closeContext. repeat case_match; simpl; rewrite ?length_insert; done.
  - intros i Hm. rewrite streams_stopWorld, Hm. rewrite Hm in Vm. simpl in Vm.
    by apply list_lookup_insert_eq.
  - intros i Hp. rewrite processors_stopWorld, Hp. rewrite Hp in Vp. simpl in Vp.
    by apply list_lookup_insert_eq.
  - intros i Hi. unfold stoppedAt. rewrite sources_stopWorld. unfold playbackWorld.
    destruct (outputAudioContextRef (hook c)) eqn:Ho.
    + apply stoppedAt_stopSources; [exact Hi|].
      unfold handlesValid in Vh. rewrite Forall_forall in Vh. by apply Vh.
    + rewrite (Ve eq_refl) in Hi. by apply elem_of_nil in Hi.
  - rewrite <- (stop_split env c). apply idle_stop.
Qed.

Lemma stop_releases_what_the_hook_held_witness :
  let w' := world (stop quiet playing) in
  closedAt w' (inputAudioContextRef (hook playing))
  /\ closedAt w' (outputAudioContextRef (hook playing))
  /\ (forall i, microphoneStreamRef (hook playing) = Some i -> streams w' !! i = Some true)
  /\ (forall i, scriptProcessorRef (hook playing) = Some i ->
                processors w' !! i = Some false)
  /\ (forall i, i ∈ audioSourcesRef (hook playing) -> stoppedAt w' i = true)
  /\ idle (stop quiet playing) = true.
Proof.
  assert (closesSucceed quiet) as Hc by (split; [reflexivity | intros i; reflexivity]).
  assert (refsValid playing) as Hv.
  { vm_compute. repeat split; try repeat constructor. intros H; discriminate H. }
  exact (stop_releases_what_the_hook_held quiet playing Hc Hv).
Defined.

(** ** The handles of the hook *)

Lemma devicesKept_refl c : devicesKept c c.
Proof. by repeat split. Qed.

Lemma devicesKept_trans c1 c2 c3 :
  devicesKept c1 c2 -> devicesKept c2 c3 -> devicesKept c1 c3.
Proof.
  unfold devicesKept, handlesKept.
  intros ((?&?&?&?)&?&?&?) ((?&?&?&?)&?&?&?). repeat split; congruence.
Qed.

Lemma devicesKept_valid c c' : devicesKept c c' -> devicesValid c -> devicesValid c'.
Proof.
  unfold devicesKept, handlesKept, devicesValid.
  intros ((-> & -> & -> & ->) & -> & -> & ->). done.
Qed.

Lemma devicesKept_promiseThen env n d c :
  devicesKept c (upd_world (promiseThen env n d) c).
Proof.
  unfold devicesKept, handlesKept. simpl. rewrite contexts_promiseThen.
  repeat split; unfold promiseThen, runDeferred; repeat case_match; reflexivity.
Qed.

Lemma devicesKept_onSession env d c : devicesKept c (onSession env d c).
Proof.
  unfold onSession, whenSome. destruct (sessionPromiseRef (hook c));
    [apply devicesKept_promiseThen | apply devicesKept_refl].
Qed.

Lemma devicesKept_handleCalls env calls c : devicesKept c (handleCalls env calls c).
Proof.
  revert c. induction calls as [|fc calls IH]; intros c; [apply devicesKept_refl|].
  simpl. unfold seq. eapply devicesKept_trans; [|apply IH].
  unfold handleCall.
  assert (devicesKept c (fst (tryCall env fc c))) as Ht
    by (unfold tryCall; repeat case_match; simpl; by repeat split).
  destruct (tryCall env fc c) as [c1 [fr|e]]; simpl in Ht.
  - eapply devicesKept_trans; [exact Ht | apply devicesKept_onSession].
  - eapply devicesKept_trans; [exact Ht|].
    eapply devicesKept_trans; [|apply devicesKept_onSession]. by repeat split.
Qed.

Lemma devicesKept_stopAudioPlayback c : devicesKept c (stopAudioPlayback c).
Proof.
  rewrite stopAudioPlayback_split. unfold devicesKept, handlesKept. simpl.
  rewrite contexts_playbackWorld. unfold playbackHook, playbackWorld.
  assert (forall l w0, streams (stopSources l w0) = streams w0
                       /\ processors (stopSources l w0) = processors w0) as Hs.
  { unfold stopSources. induction l as [|i l IH]; intros w0; [done|].
    simpl. destruct (IH (sourceStop i w0)) as [-> ->]. unfold sourceStop. by case_match. }
  destruct (outputAudioContextRef (hook c)) eqn:Ho; simpl; [|by rewrite Ho].
  destruct (Hs (audioSourcesRef (hook c)) (world c)) as [-> ->]. by rewrite Ho.
Qed.

Lemma devicesKept_onmessage env img m c : devicesKept c (onmessage env img m c).
Proof.
  unfold onmessage, beforeInterrupted, seq.
  set (c0 := accumulate m c).
  assert (devicesKept c c0) as D0
    by (subst c0; unfold accumulate; repeat case_match; by repeat split).
  set (c1 := onToolCall env m c0).
  assert (devicesKept c0 c1) as D1.
  { subst c1. unfold onToolCall. destruct (toolCall m); [|apply devicesKept_refl].
    unfold seq. eapply devicesKept_trans; [|apply devicesKept_handleCalls].
    by repeat split. }
  set (c2 := onTurnComplete env img m c1).
  assert (devicesKept c1 c2) as D2.
  { subst c2. unfold onTurnComplete. destruct (turnComplete m); [|apply devicesKept_refl].
    unfold seq, flushInput, flushOutput. repeat case_match; by repeat split. }
  set (c3 := onAudio env m c2).
  assert (devicesKept c2 c3) as D3
    by (subst c3; unfold onAudio; repeat case_match; by repeat split).
  eapply devicesKept_trans; [exact D0|]. eapply devicesKept_trans; [exact D1|].
  eapply devicesKept_trans; [exact D2|]. eapply devicesKept_trans; [exact D3|].
  destruct (interrupted m); [apply devicesKept_stopAudioPlayback | apply devicesKept_refl].
Qed.

Lemma quiet_onmessage env img m c :
  quietWithoutPlayback c -> quietWithoutPlayback (onmessage env img m c).
Proof.
  unfold quietWithoutPlayback. intros Hq Ho.
  destruct (devicesKept_onmessage env img m c) as ((_ & Ho' & _) & _).
  rewrite Ho in Ho'. symmetry in Ho'. specialize (Hq Ho').
  unfold onmessage, beforeInterrupted, seq.
  destruct (audioFrame_beforeAudio env img m c) as (F1 & F2 & F3 & F4).
  set (c0 := onTurnComplete env img m (onToolCall env m (accumulate m c))) in *.
  rewrite (onAudio_silent env m c0) by (right; congruence).
  assert ((if interrupted m then stopAudioPlayback else skip) c0 = c0) as ->.
  { destruct (interrupted m); [|done]. apply stopAudioPlayback_none. congruence. }
  congruence.
Qed.

Lemma devicesValid_stop env c : devicesValid (stop env c).
Proof.
  pose proof (idle_fields _ (idle_stop env c)) as (_ & _ & _ & _ & Hm & Hp & Hi & Ho).
  unfold devicesValid. by rewrite Hm, Hp, Hi, Ho.
Qed.

Lemma quiet_stop env c : quietWithoutPlayback c -> quietWithoutPlayback (stop env c).
Proof.
  unfold quietWithoutPlayback. intros Hq _. rewrite stop_split. unfold stopHook. simpl.
  unfold playbackHook. simpl. destruct (outputAudioContextRef (hook c)); [done|].
  by apply Hq.
Qed.

Lemma refIn_app {A} ref (l l' : list A) : refIn ref l -> refIn ref (l ++ l').
Proof. destruct ref; simpl; [|done]. rewrite length_app. lia. Qed.

Lemma step_devicesValid env ev c c' :
  step env ev c = Some c' ->
  devicesValid c /\ quietWithoutPlayback c ->
  devicesValid c' /\ quietWithoutPlayback c'.
Proof.
  intros Hstep [Hv Hq]. destruct ev; simpl in Hstep.
  - simplify_eq. unfold start. destruct liveAtRender; [done|].
    destruct Hv as (V1 & V2 & V3 & V4).
    unfold seq, startAttempt, startFailed, seq.
    destruct (truthy (API_KEY env)); [|done].
    destruct img, (connectThrows env); simpl; unfold devicesValid, quietWithoutPlayback;
      simpl; rewrite length_app; simpl;
      (split; [repeat split; try done; try (by apply refIn_app); lia | done]).
  - simplify_eq. split; [apply devicesValid_stop | by apply quiet_stop].
  - simplify_eq. done.
  - simplify_eq. done.
  - destruct (sessions (world c) !! n) as [s|]; [|done].
    destruct (phase s); simplify_eq.
    assert (devicesKept c (sessionOpened env n s c)) as D.
    { unfold sessionOpened, seq, onopen, seq, devicesKept, handlesKept. simpl.
      assert (forall l w0,
                contexts (foldl (fun w d => runDeferred env n d w) w0 l) = contexts w0
                /\ streams (foldl (fun w d => runDeferred env n d w) w0 l) = streams w0
                /\ processors (foldl (fun w d => runDeferred env n d w) w0 l)
                   = processors w0) as Hf.
      { induction l as [|d l IH]; intros w0; [done|]. simpl.
        destruct (IH (runDeferred env n d w0)) as (-> & -> & ->).
        unfold runDeferred. repeat case_match; done. }
      destruct (Hf (thens s)
                  (set_micPending (S (micPending (world c)))
                     (set_sessions (<[n := set_thens [] (set_resolved true
                                                           (set_phase Open s))]>
                                      (sessions (world c))) (world c))))
        as (-> & -> & ->). done. }
    split; [by eapply devicesKept_valid | exact Hq].
  - destruct (micPending (world c)); simplify_eq.
    destruct Hv as (V1 & V2 & V3 & V4).
    unfold seq, onopenGranted, seq, devicesValid, quietWithoutPlayback. simpl.
    rewrite !length_app. simpl.
    split; [repeat split; try lia; by apply refIn_app | done].
  - destruct (micPending (world c)); simplify_eq.
    unfold seq, onopenDenied, seq. split; [apply devicesValid_stop|].
    apply quiet_stop. done.
  - destruct (sessions (world c) !! n) as [s|]; [|done].
    destruct (phase s); simplify_eq;
      (split; [eapply devicesKept_valid; [apply devicesKept_onmessage | done]
              | by apply quiet_onmessage]).
  - destruct (sessions (world c) !! n) as [s|]; [|done].
    destruct (phase s); simplify_eq; unfold seq, onerror, seq;
      (split; [apply devicesValid_stop | by apply quiet_stop]).
  - destruct (sessions (world c) !! n) as [s|]; [|done].
    destruct (phase s); simplify_eq; unfold seq, onclose;
      (split; [apply devicesValid_stop | by apply quiet_stop]).
  - destruct (processors (world c) !! p) as [[|]|]; simplify_eq.
    unfold onaudioprocess. destruct (isMicMuted (hook c)); [done|].
    split; [eapply devicesKept_valid; [apply devicesKept_onSession | done]|].
    unfold quietWithoutPlayback. by rewrite hook_onSession.
  - destruct (sources (world c) !! i); simplify_eq.
    destruct (onended_effect i (ps_turnComplete p) c) as (E1 & E2 & _).
    split.
    + unfold devicesValid. rewrite E2. unfold onended, seq. by case_match.
    + unfold quietWithoutPlayback. rewrite E1. intros Ho.
      assert (outputAudioContextRef (hook c) = None) as Ho'
        by (unfold onended, seq in Ho; by case_match).
      by rewrite (Hq Ho').
Qed.

(** X18: in every configuration reached from the initial one the handles the
    hook holds name objects that exist, and sources are in the active set
    only while there is a playback context. *)
Theorem reachable_handles_are_valid trace c :
  run trace initial = Some c -> refsValid c.
Proof.
  intros Hrun.
  assert (forall c0, devicesValid c0 /\ quietWithoutPlayback c0 ->
            run trace c0 = Some c -> devicesValid c /\ quietWithoutPlayback c) as H.
  { clear Hrun. induction trace as [|[env ev] trace IH]; intros c0 Hc Hr; simpl in Hr.
    - by simplify_eq.
    - destruct (step env ev c0) as [c1|] eqn:Hstep; [|done].
      apply (IH c1); [by eapply step_devicesValid | exact Hr]. }
  destruct (H initial) as [(V1 & V2 & V3 & V4) Hq]; [done | exact Hrun|].
  unfold refsValid. repeat split; try done. by eapply run_handlesValid.
Qed.

Lemma reachable_handles_are_valid_witness : refsValid restartedEnd.
Proof.
  assert (run restarted initial = Some restartedEnd) as Hr by (vm_compute; reflexivity).
  exact (reachable_handles_are_valid restarted restartedEnd Hr).
Defined.

(** ** The application *)

Lemma length_append (s1 s2 : string) :
  String.length (s1 +:+ s2) = String.length s1 + String.length s2.
Proof.
  induction s1 as [|a s1 IH]; [reflexivity|].
  rewrite append_cons. simpl. by rewrite IH.
Qed.

Lemma length_substring n (s : string) :
  String.length (substring 0 n s) = Nat.min n (String.length s).
Proof.
  revert n. induction s as [|a s IH]; intros [|n]; simpl; try reflexivity.
  by rewrite IH.
Qed.

Lemma firstUserText_nonempty m : 0 < String.length (firstUserText m).
Proof.
  unfold firstUserText, or_else.
  destruct (find isTextPart (parts m) ≫= isText) as [[|a s]|]; cbn; lia.
Qed.

(** X19: the title given to a conversation saved for the first time is not
    empty and has at most 43 code units. *)
Theorem derived_title_is_short m :
  0 < String.length (derivedTitle m) <= 43.
Proof.
  unfold derivedTitle. rewrite length_append, length_substring.
  pose proof (firstUserText_nonempty m).
  destruct (40 <? String.length (firstUserText m)) eqn:E.
  - apply Nat.ltb_lt in E. change (String.length "...") with 3. lia.
  - apply Nat.ltb_ge in E. change (String.length EmptyString) with 0. lia.
Qed.

Lemma saveEffect_quiet a :
  (wasLiveConnectedRef a && negb (isLiveConnected (hook (zud a)))
   && (0 <? length (messages (hook (zud a))))
   && truthy (currentConversationId a))%bool = false ->
  saveEffect a = set_wasLiveConnectedRef (isLiveConnected (hook (zud a))) a.
Proof. unfold saveEffect. by intros ->. Qed.

Lemma saveEffect_settled a :
  wasLiveConnectedRef a = isLiveConnected (hook (zud a)) -> saveEffect a = a.
Proof.
  intros Hw. rewrite saveEffect_quiet.
  - rewrite <- Hw. by destruct a.
  - rewrite Hw. by destruct (isLiveConnected (hook (zud a))).
Qed.

Lemma saveEffect_once a :
  wasLiveConnectedRef (saveEffect a) = isLiveConnected (hook (zud (saveEffect a)))
  \/ messages (hook (zud (saveEffect a))) = [].
Proof.
  unfold saveEffect. case_match; [|by left].
  destruct (currentConversationId a), (find isUser (messages (hook (zud a))));
    first [by left | by right].
Qed.

(** X20: after the two runs of one render the effect has nothing left to do:
    a further run changes nothing. *)
Theorem save_effect_settles a : saveEffect (render a) = render a.
Proof.
  apply saveEffect_settled. unfold render. destruct (saveEffect_once a) as [H|H].
  - by rewrite (saveEffect_settled _ H).
  - rewrite saveEffect_quiet; [reflexivity|]. rewrite H. simpl.
    by rewrite andb_false_r.
Qed.

Lemma find_Some_nonempty {A} (f : A -> bool) l x : find f l = Some x -> 0 < length l.
Proof. destruct l; simpl; [done | lia]. Qed.

Lemma saveEffect_saves a k first :
  wasLiveConnectedRef a = true ->
  isLiveConnected (hook (zud a)) = false ->
  currentConversationId a = Some k -> k <> EmptyString ->
  find isUser (messages (hook (zud a))) = Some first ->
  saveEffect a
  = set_wasLiveConnectedRef false
      (upd_zud clearSessionMessages
         (set_conversations
            (saveConversation k first (messages (hook (zud a))) (conversations a)) a)).
Proof.
  intros Hw Hl Hk Hne Hf. unfold saveEffect. rewrite Hw, Hl, Hk, Hf. simpl.
  apply find_Some_nonempty in Hf. apply Nat.ltb_lt in Hf. rewrite Hf. simpl.
  destruct k; [done|]. reflexivity.
Qed.

Lemma render_saves_eq a k first :
  wasLiveConnectedRef a = true ->
  isLiveConnected (hook (zud a)) = false ->
  currentConversationId a = Some k -> k <> EmptyString ->
  find isUser (messages (hook (zud a))) = Some first ->
  render a
  = set_wasLiveConnectedRef false
      (upd_zud clearSessionMessages
         (set_conversations
            (saveConversation k first (messages (hook (zud a))) (conversations a)) a)).
Proof.
  intros Hw Hl Hk Hne Hf. unfold render.
  rewrite (saveEffect_saves a k first) by done. by apply saveEffect_settled.
Qed.

Lemma saveConversation_found k first msgs prev conv :
  prev !! k = Some conv ->
  saveConversation k first msgs prev
  = <[k := {| conv_id := conv_id conv;
              conv_title := if bool_decide (conv_title conv = Some "New Conversation")
                            then Some (derivedTitle first) else conv_title conv;
              conv_messages := conv_messages conv ++ msgs |}]> prev.
Proof. intros H. unfold saveConversation. by rewrite H. Qed.

(** X21: when a live session has ended with a user message in it, the render
    that follows moves the session messages to the end of the current
    conversation: the conversation keeps its id, keeps its title unless it
    was still called New Conversation, every other conversation is
    untouched, the session messages are cleared, and the messages on display
    are the same as before. *)
Theorem ended_session_is_saved a k conv first :
  wasLiveConnectedRef a = true ->
  isLiveConnected (hook (zud a)) = false ->
  currentConversationId a = Some k -> k <> EmptyString ->
  conversations a !! k = Some conv ->
  find isUser (messages (hook (zud a))) = Some first ->
  let a' := render a in
  conversations a' !! k
  = Some {| conv_id := conv_id conv;
            conv_title := if bool_decide (conv_title conv = Some "New Conversation")
                          then Some (derivedTitle first) else conv_title conv;
            conv_messages := conv_messages conv ++ messages (hook (zud a)) |}
  /\ (forall k', k' <> k -> conversations a' !! k' = conversations a !! k')
  /\ messages (hook (zud a')) = []
  /\ displayedMessages a' = displayedMessages a
  /\ wasLiveConnectedRef a' = false.
Proof.
  intros Hw Hl Hk Hne Hc Hf a'.
  assert (a' = set_wasLiveConnectedRef false
                 (upd_zud clearSessionMessages
                    (set_conversations
                       (saveConversation k first (messages (hook (zud a)))
                          (conversations a)) a))) as ->.
  { subst a'. unfold render. rewrite (saveEffect_saves a k first) by done.
    by apply saveEffect_settled. }
  assert (truthy (Some k) = true) as Ht by (by destruct k).
  unfold displayedMessages.
  cbn [currentConversationId conversations zud set_wasLiveConnectedRef upd_zud
       set_conversations].
  rewrite Hk, Ht, (saveConversation_found _ _ _ _ _ Hc), lookup_insert_eq, Hc.
  repeat split; try done.
  - intros k' Hk'. by rewrite lookup_insert_ne.
  - simpl. by rewrite app_nil_r.
Qed.

Lemma find_isUser_none l :
  Forall (fun m => speaker m = model) l -> find isUser l = None.
Proof.
  induction 1 as [|m l Hm _ IH]; [reflexivity|]. simpl. unfold isUser. by rewrite Hm.
Qed.

Lemma ended_session_is_saved_witness :
  let a' := render (hungUp talking) in
  conversations a' !! "1000"
  = Some {| conv_id := conv_id newConversation;
            conv_title := if bool_decide (conv_title newConversation
                                          = Some "New Conversation")
                          then Some (derivedTitle hello)
                          else conv_title newConversation;
            conv_messages := conv_messages newConversation
                             ++ messages (hook (zud (hungUp talking))) |}
  /\ (forall k', k' <> "1000" ->
                 conversations a' !! k' = conversations (hungUp talking) !! k')
  /\ messages (hook (zud a')) = []
  /\ displayedMessages a' = displayedMessages (hungUp talking)
  /\ wasLiveConnectedRef a' = false.
Proof.
  assert (wasLiveConnectedRef (hungUp talking) = true) as Hw by (vm_compute; reflexivity).
  assert (isLiveConnected (hook (zud (hungUp talking))) = false) as Hl
    by (vm_compute; reflexivity).
  assert (currentConversationId (hungUp talking) = Some "1000") as Hk
    by (vm_compute; reflexivity).
  assert ("1000" <> EmptyString) as Hne by discriminate.
  assert (conversations (hungUp talking) !! "1000" = Some newConversation) as Hc
    by (vm_compute; reflexivity).
  assert (find isUser (messages (hook (zud (hungUp talking)))) = Some hello) as Hf
    by (vm_compute; reflexivity).
  exact (ended_session_is_saved (hungUp talking) "1000" newConversation hello
           Hw Hl Hk Hne Hc Hf).
Defined.

(** X22: a session that ended without any user message is not saved: the
    render clears its messages and leaves every conversation as it was. *)
Theorem session_without_user_message_is_dropped a :
  wasLiveConnectedRef a = true ->
  isLiveConnected (hook (zud a)) = false ->
  truthy (currentConversationId a) = true ->
  messages (hook (zud a)) <> [] ->
  Forall (fun m => speaker m = model) (messages (hook (zud a))) ->
  let a' := render a in
  conversations a' = conversations a
  /\ messages (hook (zud a')) = []
  /\ wasLiveConnectedRef a' = false.
Proof.
  intros Hw Hl Ht Hne Hall a'.
  assert (saveEffect a = upd_zud clearSessionMessages a) as H1.
  { unfold saveEffect. rewrite Hw, Hl, Ht, (find_isUser_none _ Hall). simpl.
    destruct (messages (hook (zud a))); [done|]. simpl.
    by destruct (currentConversationId a). }
  subst a'. unfold render. rewrite H1.
  rewrite saveEffect_quiet by (simpl; by rewrite andb_false_r). simpl.
  by rewrite Hl.
Qed.

Lemma session_without_user_message_is_dropped_witness :
  let a' := render (hungUp listening) in
  conversations a' = conversations (hungUp listening)
  /\ messages (hook (zud a')) = []
  /\ wasLiveConnectedRef a' = false.
Proof.
  assert (wasLiveConnectedRef (hungUp listening) = true) as Hw
    by (vm_compute; reflexivity).
  assert (isLiveConnected (hook (zud (hungUp listening))) = false) as Hl
    by (vm_compute; reflexivity).
  assert (truthy (currentConversationId (hungUp listening)) = true) as Ht
    by (vm_compute; reflexivity).
  assert (messages (hook (zud (hungUp listening)))
          = [{| msg_id := "1000"; speaker := model; parts := [TextPart "welcome"] |}])
    as Hm by (vm_compute; reflexivity).
  apply (session_without_user_message_is_dropped (hungUp listening) Hw Hl Ht).
  - rewrite Hm. discriminate.
  - rewrite Hm. repeat constructor.
Defined.

Lemma hangUp env a :
  let a1 := if isLiveConnected (hook (zud a)) then upd_zud (stop env) a else a in
  conversations a1 = conversations a
  /\ isLiveConnected (hook (zud a1)) = false.
Proof.
  destruct (isLiveConnected (hook (zud a))) eqn:Hl; [|done].
  split; [done|]. by destruct (idle_fields _ (idle_stop env (zud a))) as (_ & _ & H & _).
Qed.

(** X23: selecting a conversation never saves anything: whatever the session
    was doing, after the render the stored conversations are the same, the
    hook is disconnected and there are no session messages. *)
Theorem select_discards_the_session env id a :
  let a' := render (handleSelectConversation env id a) in
  conversations a' = conversations a
  /\ currentConversationId a' = Some id
  /\ isLiveConnected (hook (zud a')) = false
  /\ messages (hook (zud a')) = [].
Proof.
  cbv zeta. destruct (hangUp env a) as [Hc Hl].
  set (a1 := if isLiveConnected (hook (zud a)) then upd_zud (stop env) a else a) in *.
  set (b := handleSelectConversation env id a).
  assert (saveEffect b = set_wasLiveConnectedRef false b) as H1.
  { rewrite saveEffect_quiet; subst b; unfold handleSelectConversation; fold a1; simpl.
    - by rewrite Hl.
    - by rewrite !andb_false_r. }
  unfold render. rewrite H1.
  rewrite saveEffect_settled
    by (subst b; unfold handleSelectConversation; fold a1; simpl; by rewrite Hl).
  subst b. unfold handleSelectConversation. fold a1. simpl. by rewrite Hl.
Qed.

(** X24: a new chat never saves anything either: after the render the
    conversation stored under the new id is an empty New Conversation, every
    other conversation is as before, the hook is disconnected and there are
    no session messages. *)
Theorem new_chat_discards_the_session env a :
  let a' := render (handleNewChat env a) in
  let newId := toString (now env) in
  conversations a' !! newId
  = Some {| conv_id := Some newId; conv_title := Some "New Conversation";
            conv_messages := [] |}
  /\ (forall k, k <> newId -> conversations a' !! k = conversations a !! k)
  /\ currentConversationId a' = Some newId
  /\ isLiveConnected (hook (zud a')) = false
  /\ messages (hook (zud a')) = [].
Proof.
  cbv zeta. destruct (hangUp env a) as [Hc Hl].
  set (newId := toString (now env)).
  set (a1 := if isLiveConnected (hook (zud a)) then upd_zud (stop env) a else a) in *.
  set (b := handleNewChat env a).
  assert (saveEffect b = set_wasLiveConnectedRef false b) as H1.
  { rewrite saveEffect_quiet; subst b; unfold handleNewChat; fold a1; simpl.
    - by rewrite Hl.
    - by rewrite !andb_false_r. }
  unfold render. rewrite H1.
  rewrite saveEffect_settled
    by (subst b; unfold handleNewChat; fold a1; simpl; by rewrite Hl).
  subst b. unfold handleNewChat. fold a1. simpl. rewrite Hl, Hc.
  fold newId. rewrite lookup_insert_eq. repeat split; try done.
  intros k Hk. by rewrite lookup_insert_ne.
Qed.

Lemma listed_stored id a :
  listed id a = true ->
  exists k conv, conversations a !! k = Some conv /\ conv_id conv = Some id.
Proof.
  unfold listed. intros H. apply bool_decide_eq_true in H.
  apply list_elem_of_fmap in H as (conv & Hid & H).
  apply list_elem_of_fmap in H as ([k conv'] & -> & H).
  apply elem_of_map_to_list in H. by exists k, conv'.
Qed.

Lemma wellFormed_same a b :
  conversations b = conversations a ->
  currentConversationId b = currentConversationId a ->
  wellFormed a -> wellFormed b.
Proof. unfold wellFormed. by intros -> ->. Qed.

Lemma wellKeyed_insert k conv s :
  wellKeyed s -> conv_id conv = Some k -> is_Some (conv_title conv) ->
  wellKeyed (<[k := conv]> s).
Proof.
  intros Hs Hid Ht k' conv' H. destruct (decide (k' = k)) as [->|Hne].
  - rewrite lookup_insert_eq in H. by simplify_eq.
  - rewrite lookup_insert_ne in H by done. by apply Hs.
Qed.

Lemma wellFormed_saveEffect a : wellFormed a -> wellFormed (saveEffect a).
Proof.
  intros Hw. unfold saveEffect. case_match; [|by apply (wellFormed_same a)].
  destruct (currentConversationId a) as [k|] eqn:Hk; [|by apply (wellFormed_same a)].
  destruct (find isUser (messages (hook (zud a)))) as [first|];
    [|by apply (wellFormed_same a)].
  destruct Hw as [Hs Hcur].
  destruct (Hcur k Hk) as [conv Hc]. destruct (Hs k conv Hc) as [Hid Ht].
  split; cbn [conversations currentConversationId set_wasLiveConnectedRef upd_zud
              set_conversations]; rewrite (saveConversation_found _ _ _ _ _ Hc).
  - apply wellKeyed_insert; [done | done|]. simpl. by case_bool_decide.
  - intros k' Hk'. rewrite Hk in Hk'. simplify_eq. by rewrite lookup_insert_eq.
Qed.

Lemma wellFormed_handle env ev a a' :
  handle env ev a = Some a' -> wellFormed a -> wellFormed a'.
Proof.
  intros H Hw. destruct ev; simpl in H.
  - simplify_eq. destruct Hw as [Hs Hcur]. unfold handleNewChat.
    destruct (hangUp env a) as [Hc _].
    set (a1 := if isLiveConnected (hook (zud a)) then upd_zud (stop env) a else a) in *.
    split; cbn [conversations currentConversationId set_attachedFile upd_zud
                set_currentConversationId set_conversations]; rewrite Hc.
    + by apply wellKeyed_insert.
    + intros k ?. simplify_eq. by rewrite lookup_insert_eq.
  - destruct (listed id a) eqn:Hl; simplify_eq. destruct Hw as [Hs Hcur].
    apply listed_stored in Hl as (k & conv & Hc & Hid).
    destruct (Hs k conv Hc) as [Hid' _]. rewrite Hid in Hid'. simplify_eq.
    unfold handleSelectConversation. destruct (hangUp env a) as [Hc' _].
    set (a1 := if isLiveConnected (hook (zud a)) then upd_zud (stop env) a else a) in *.
    split; cbn [conversations currentConversationId set_attachedFile upd_zud
                set_currentConversationId]; rewrite Hc'; [done|].
    intros k' ?. by simplify_eq.
  - destruct (truthy (currentConversationId a)); simplify_eq.
    unfold handleToggleConversation. repeat case_match; by apply (wellFormed_same a).
  - destruct (pendingToggles a !! i) as [p|]; simpl in H; simplify_eq.
    unfold resumeToggleConversation. case_match; by apply (wellFormed_same a).
  - destruct (listed id a); simplify_eq. destruct Hw as [Hs Hcur].
    unfold handleDeleteConversation. split; simpl.
    + intros k conv H. apply lookup_delete_Some in H as [_ H]. by apply Hs.
    + intros k Hk. case_bool_decide as Hd; [done|].
      rewrite lookup_delete_ne by congruence. by apply Hcur.
  - simplify_eq. unfold handleSaveTitle.
    destruct editingConversationId as [id|]; [|done]. case_match; [|done].
    unfold handleUpdateConversationTitle.
    destruct (conversations a !! id) as [conv|] eqn:Hc; [|done].
    destruct Hw as [Hs Hcur].
    destruct (Hs id conv Hc) as [Hid _]. split; simpl.
    + by apply wellKeyed_insert.
    + intros k Hk. apply lookup_insert_is_Some'. right. by apply Hcur.
  - destruct (isLiveConnected (hook (zud a))); simplify_eq.
    by apply (wellFormed_same a).
  - simplify_eq. by apply (wellFormed_same a).
  - simplify_eq. by apply (wellFormed_same a).
  - simplify_eq. by apply (wellFormed_same a).
  - destruct (isLiveConnected (hook (zud a))); simplify_eq.
    by apply (wellFormed_same a).
  - destruct (isCallback ev); [|done].
    destruct (step env ev (zud a)); simpl in H; simplify_eq.
    by apply (wellFormed_same a).
Qed.

Lemma appRun_wellFormed trace a a' :
  appRun trace a = Some a' -> wellFormed a -> wellFormed a'.
Proof.
  revert a. induction trace as [|[env ev] trace IH]; intros a Hr Hw; simpl in Hr.
  - by simplify_eq.
  - unfold appStep in Hr. destruct (handle env ev a) as [b|] eqn:Hh; [|done].
    simpl in Hr. apply (IH (render b)); [done|].
    unfold render. do 2 apply wellFormed_saveEffect. by eapply wellFormed_handle.
Qed.

(** X25: starting from saved conversations that are stored under their ids
    and have titles, every state the application reaches is of the same
    kind, its current conversation is a stored one, and the messages on
    display are defined. *)
Theorem reachable_display_is_defined saved l t trace a :
  wellKeyed saved ->
  appRun trace (initialApp saved l t) = Some a ->
  wellFormed a /\ is_Some (displayedMessages a).
Proof.
  intros Hs Hr.
  assert (wellFormed a) as Hw by (eapply appRun_wellFormed; [exact Hr | by split]).
  split; [exact Hw|]. destruct Hw as [_ Hcur]. unfold displayedMessages.
  destruct (currentConversationId a) as [k|]; [|done].
  destruct (Hcur k eq_refl) as [conv ->]. simpl. by case_match.
Qed.

Lemma reachable_display_is_defined_witness :
  wellFormed talking /\ is_Some (displayedMessages talking).
Proof.
  assert (wellKeyed ∅) as Hs by (intros k conv H; rewrite lookup_empty in H; discriminate H).
  assert (appRun chat (initialApp ∅ en_US general) = Some talking) as Hr
    by (vm_compute; reflexivity).
  exact (reachable_display_is_defined ∅ en_US general chat talking Hs Hr).
Defined.

(** X26: saving a title in the history panel touches nothing but the title
    of the edited conversation: the stored keys, ids and messages are the
    same, and a title changes only to the trimmed text, which is not empty. *)
Theorem save_title_touches_only_the_title id t a k :
  let a' := handleSaveTitle id t a in
  conv_id <$> conversations a' !! k = conv_id <$> conversations a !! k
  /\ conv_messages <$> conversations a' !! k = conv_messages <$> conversations a !! k
  /\ (conv_title <$> conversations a' !! k = conv_title <$> conversations a !! k
      \/ (id = Some k /\ trim t <> EmptyString
          /\ conv_title <$> conversations a' !! k = Some (Some (trim t))))
  /\ zud a' = zud a /\ currentConversationId a' = currentConversationId a.
Proof.
  cbv zeta. unfold handleSaveTitle. destruct id as [id|]; [|by repeat split; try left].
  destruct (truthy (Some id) && truthy (Some (trim t)))%bool eqn:Hc;
    [|by repeat split; try left].
  apply andb_prop in Hc as [_ Ht].
  assert (trim t <> EmptyString) as Hne by (intros E; rewrite E in Ht; done).
  unfold handleUpdateConversationTitle.
  destruct (conversations a !! id) as [conv|] eqn:Hl; [|by repeat split; try left].
  cbn [conversations set_conversations zud currentConversationId].
  destruct (decide (k = id)) as [->|Hk].
  - rewrite lookup_insert_eq, Hl. simpl. repeat split; try done. by right.
  - rewrite lookup_insert_ne by done. repeat split; try done. by left.
Qed.

Lemma saveEffect_grows a k conv :
  conversations a !! k = Some conv ->
  exists conv', conversations (saveEffect a) !! k = Some conv'
    /\ conv_id conv' = conv_id conv
    /\ conv_messages conv `prefix_of` conv_messages conv'.
Proof.
  intros Hc. unfold saveEffect. case_match; [|by exists conv].
  destruct (currentConversationId a) as [k0|]; [|by exists conv].
  destruct (find isUser (messages (hook (zud a)))) as [first|]; [|by exists conv].
  cbn [conversations set_wasLiveConnectedRef upd_zud set_conversations].
  destruct (decide (k = k0)) as [->|Hk].
  - rewrite (saveConversation_found _ _ _ _ _ Hc), lookup_insert_eq.
    eexists. split; [reflexivity|]. split; [done|]. simpl. by apply prefix_app_r.
  - unfold saveConversation. rewrite lookup_insert_ne by done. by exists conv.
Qed.

(** X27: stored messages are never lost by anything but a new chat or a
    deletion: after any other event and its render, every conversation is
    still stored under its key, with the same id, and its messages begin
    with the messages it had. *)
Theorem stored_messages_only_grow env ev a a' k conv :
  appStep env ev a = Some a' ->
  ev <> NewChat -> (forall id, ev <> DeleteConversation id) ->
  conversations a !! k = Some conv ->
  exists conv', conversations a' !! k = Some conv'
    /\ conv_id conv' = conv_id conv
    /\ conv_messages conv `prefix_of` conv_messages conv'.
Proof.
  intros Hstep Hnew Hdel Hc. unfold appStep in Hstep.
  destruct (handle env ev a) as [b|] eqn:Hh; [|done]. simpl in Hstep. simplify_eq.
  assert (exists conv1, conversations b !! k = Some conv1
            /\ conv_id conv1 = conv_id conv
            /\ conv_messages conv1 = conv_messages conv) as (conv1 & H1 & Hi1 & Hm1).
  { destruct ev; simpl in Hh; try done.
    - destruct (listed id a); simplify_eq. unfold handleSelectConversation.
      destruct (hangUp env a) as [Hc' _].
      set (a1 := if isLiveConnected (hook (zud a)) then upd_zud (stop env) a else a) in *.
      cbn [conversations set_attachedFile upd_zud set_currentConversationId].
      rewrite Hc'. by exists conv.
    - destruct (truthy (currentConversationId a)); simplify_eq.
      unfold handleToggleConversation. repeat case_match; by exists conv.
    - destruct (pendingToggles a !! i) as [p|]; simpl in Hh; simplify_eq.
      unfold resumeToggleConversation. case_match; by exists conv.
    - by destruct (Hdel id).
    - simplify_eq. unfold handleSaveTitle.
      destruct editingConversationId as [id|]; [|by exists conv].
      case_match; [|by exists conv]. unfold handleUpdateConversationTitle.
      destruct (conversations a !! id) as [conv0|] eqn:Hid; [|by exists conv].
      cbn [conversations set_conversations].
      destruct (decide (k = id)) as [->|Hk].
      + rewrite lookup_insert_eq. eexists. split; [reflexivity|].
        rewrite Hid in Hc. by simplify_eq.
      + rewrite lookup_insert_ne by done. by exists conv.
    - destruct (isLiveConnected (hook (zud a))); simplify_eq. by exists conv.
    - simplify_eq. by exists conv.
    - simplify_eq. by exists conv.
    - simplify_eq. by exists conv.
    - destruct (isLiveConnected (hook (zud a))); simplify_eq. by exists conv.
    - destruct (isCallback ev); [|done].
      destruct (step env ev (zud a)); simpl in Hh; simplify_eq. by exists conv. }
  unfold render.
  destruct (saveEffect_grows b k conv1 H1) as (conv2 & H2 & Hi2 & Hm2).
  destruct (saveEffect_grows (saveEffect b) k conv2 H2) as (conv3 & H3 & Hi3 & Hm3).
  exists conv3. split; [done|]. split; [congruence|].
  rewrite <- Hm1. by etrans.
Qed.

Lemma stored_messages_only_grow_witness :
  exists conv', conversations (render (hungUp talking)) !! "1000" = Some conv'
    /\ conv_id conv' = conv_id newConversation
    /\ conv_messages newConversation `prefix_of` conv_messages conv'.
Proof.
  assert (appStep quiet ToggleConversation talking = Some (render (hungUp talking)))
    as Hstep by (vm_compute; reflexivity).
  assert (conversations talking !! "1000" = Some newConversation) as Hc
    by (vm_compute; reflexivity).
  apply (stored_messages_only_grow quiet ToggleConversation talking
           (render (hungUp talking)) "1000" newConversation Hstep); [| |exact Hc].
  - discriminate.
  - intros id. discriminate.
Defined.

(** X28: stopping a connected session from the main button saves it: when
    the session holds a user message and the current conversation is stored,
    the event is enabled and, after its render, the conversation ends with
    the session messages, the hook is disconnected and the session messages
    are cleared. *)
Theorem stopping_saves_the_session env a k conv first :
  wasLiveConnectedRef a = true ->
  isLiveConnected (hook (zud a)) = true ->
  currentConversationId a = Some k -> k <> EmptyString ->
  conversations a !! k = Some conv ->
  find isUser (messages (hook (zud a))) = Some first ->
  exists a',
    appStep env ToggleConversation a = Some a'
    /\ (conv_messages <$> conversations a' !! k)
       = Some (conv_messages conv ++ messages (hook (zud a)))
    /\ (forall k', k' <> k -> conversations a' !! k' = conversations a !! k')
    /\ isLiveConnected (hook (zud a')) = false
    /\ messages (hook (zud a')) = [].
Proof.
  intros Hw Hl Hk Hne Hc Hf.
  assert (truthy (currentConversationId a) = true) as Ht
    by (rewrite Hk; by destruct k).
  unfold appStep. simpl. rewrite Ht. unfold handleToggleConversation. rewrite Hl.
  simpl. eexists. split; [reflexivity|].
  set (b := upd_zud (stop env) a).
  assert (isLiveConnected (hook (zud b)) = false) as Hl'
    by (by destruct (idle_fields _ (idle_stop env (zud a))) as (_ & _ & H & _)).
  assert (messages (hook (zud b)) = messages (hook (zud a))) as Hm
    by apply messages_stop.
  rewrite (render_saves_eq b k first) by (try done; by rewrite Hm).
  cbn [conversations zud set_wasLiveConnectedRef upd_zud set_conversations].
  rewrite Hm. change (conversations b) with (conversations a).
  rewrite (saveConversation_found _ _ _ _ _ Hc), lookup_insert_eq.
  repeat split; try done.
  intros k' Hk'. by rewrite lookup_insert_ne.
Qed.

Lemma stopping_saves_the_session_witness :
  exists a',
    appStep quiet ToggleConversation talking = Some a'
    /\ (conv_messages <$> conversations a' !! "1000")
       = Some (conv_messages newConversation ++ messages (hook (zud talking)))
    /\ (forall k', k' <> "1000" -> conversations a' !! k' = conversations talking !! k')
    /\ isLiveConnected (hook (zud a')) = false
    /\ messages (hook (zud a')) = [].
Proof.
  assert (wasLiveConnectedRef talking = true) as Hw by (vm_compute; reflexivity).
  assert (isLiveConnected (hook (zud talking)) = true) as Hl by (vm_compute; reflexivity).
  assert (currentConversationId talking = Some "1000") as Hk by (vm_compute; reflexivity).
  assert ("1000" <> EmptyString) as Hne by discriminate.
  assert (conversations talking !! "1000" = Some newConversation) as Hc
    by (vm_compute; reflexivity).
  assert (find isUser (messages (hook (zud talking))) = Some hello) as Hf
    by (vm_compute; reflexivity).
  exact (stopping_saves_the_session quiet talking "1000" newConversation hello
           Hw Hl Hk Hne Hc Hf).
Defined.
